(** * Approval discovery and exposure computation: a shallow embedding

    The development follows the three scripts of the repository:

    - [Advanced]: the advanced checker ([findAndCheckApprovals] of
      advanced-checker.js), which discovers spenders from [Approval] events;
    - [Basic]: the basic checker with progress display ([checkApprovals]
      with [updateProgress]);
    - [Plain]: the earlier basic checker ([checkApprovals] without progress
      display).

    Stateful code is written in a state-and-exception monad over the
    mutable variables of the scripts ([results], [completedTasks],
    [lastUpdate], [lastProgress]) and over the traces of what the scripts do
    to the outside world (chain calls, logger calls, terminal writes).
    JavaScript numbers are IEEE 754 binary64 values, here primitive floats;
    [bigint] amounts are [N]; texts are byte strings in UTF-8.  The sort
    of the engine is a collaborator like the chain: ECMAScript fixes its
    result only for a consistent comparator.

    The tasks of a batch, which the scripts start together, are run one
    after the other; what is proved about a run does not depend on their
    order.  The interval timer that calls [updateProgress()] every second
    is left out: it touches only the throttle state and the terminal. *)

From Stdlib Require Import ZArith NArith List String Ascii Bool Lia Floats.
From Stdlib Require Import DecimalString DecimalN Permutation Sorted.
From stdpp Require Import base gmap sets strings.
Import ListNotations.

#[local] Open Scope string_scope.
#[local] Open Scope list_scope.
#[local] Set Warnings "-clear-no-such-hyp".

(** ** JavaScript values *)

Module JS.

(** A JavaScript number. *)
Definition number := float.

(** The number with the value of an integer; exact below [2^53], which
    covers task counts and millisecond clocks. *)
Definition of_Z (z : Z) : number :=
  if (z <? 0)%Z
  then (- PrimFloat.of_uint63 (Uint63.of_Z (- z)))%float
  else PrimFloat.of_uint63 (Uint63.of_Z z).

Definition of_N (n : N) : number := of_Z (Z.of_N n).
Definition of_nat (n : nat) : number := of_Z (Z.of_nat n).

(** [a > b] on numbers; [false] when either is NaN. *)
Definition gt (a b : number) : bool := (b <? a)%float.
Definition lt (a b : number) : bool := (a <? b)%float.

(** [Math.floor]: a finite number with a negative exponent is below
    [2^53] in magnitude, so its floor is an exact integer value. *)
Definition Math_floor (x : number) : number :=
  match Prim2SF x with
  | S754_finite s m e =>
      if (0 <=? e)%Z then x
      else
        let n := if s then Z.neg m else Z.pos m in
        of_Z (Z.shiftr n (- e))
  | _ => x
  end.

(** [Math.ceil], with [Math.ceil(x) = -Math.floor(-x)]. *)
Definition Math_ceil (x : number) : number :=
  (- Math_floor (- x))%float.

(** [BigInt.prototype.toString()] for a non-negative value: the decimal
    digits without leading zeros. *)
Definition toString (n : N) : string :=
  NilZero.string_of_uint (N.to_uint n).

(** [Array.prototype.slice(0, n)] and [slice(i, i + n)]. *)
Definition slice {A} (i n : nat) (l : list A) : list A :=
  firstn n (skipn i l).

(** The three outcomes of a comparator call, as ECMAScript names them:
    [a <CF b], [a =CF b] and [a >CF b].  None of them holds when the
    comparator returns NaN. *)
Definition lessCF {A} (cmp : A -> A -> number) (a b : A) : bool :=
  (cmp a b <? 0)%float.
Definition equalCF {A} (cmp : A -> A -> number) (a b : A) : bool :=
  (cmp a b =? 0)%float.
Definition greaterCF {A} (cmp : A -> A -> number) (a b : A) : bool :=
  (0 <? cmp a b)%float.

(** The conditions of a consistent comparator on three elements: the
    result is not NaN, [=CF] is reflexive and symmetric, and [=CF], [<CF]
    and [>CF] are transitive. *)
Definition consistentAt {A} (cmp : A -> A -> number) (a b c : A) : bool :=
  (lessCF cmp a b || equalCF cmp a b || greaterCF cmp a b)
  && equalCF cmp a a
  && implb (equalCF cmp a b) (equalCF cmp b a)
  && implb (equalCF cmp a b && equalCF cmp b c) (equalCF cmp a c)
  && implb (lessCF cmp a b && lessCF cmp b c) (lessCF cmp a c)
  && implb (greaterCF cmp a b && greaterCF cmp b c) (greaterCF cmp a c).

(** Whether [cmp] is a consistent comparator for the elements of [l]. *)
Definition consistent {A} (cmp : A -> A -> number) (l : list A) : bool :=
  forallb
    (fun a => forallb (fun b => forallb (consistentAt cmp a b) l) l) l.

(** The result that ECMAScript requires of
    [Array.prototype.sort(compareFn)] when [compareFn] is a consistent
    comparator for the elements: they are in the order of the comparator,
    and the sort is stable, so that an element moves behind another one
    exactly when the comparator is positive on the pair.  Computed here by
    insertion ([sort_sorted] and [sort_stable] below).  For a comparator
    that is not consistent ECMAScript leaves the order to the engine; see
    [Array_sort]. *)
Fixpoint sort_insert {A} (cmp : A -> A -> number) (x : A) (l : list A)
  : list A :=
  match l with
  | [] => [x]
  | y :: l' =>
      if gt (cmp x y) 0%float then y :: sort_insert cmp x l' else x :: y :: l'
  end.

Fixpoint sort {A} (cmp : A -> A -> number) (l : list A) : list A :=
  match l with
  | [] => []
  | x :: l' => sort_insert cmp x (sort cmp l')
  end.

End JS.

(** [ethers.MaxUint256]. *)
Definition MaxUint256 : N := 2 ^ 256 - 1.

(** ** Data model *)

Definition Address := string.

(** An entry of the token list: [{ address, price }], [price] being [null]
    when the caller gave none. *)
Record TokenEntry := mkToken {
  tk_address : Address;
  tk_price : option JS.number
}.

(** The object pushed to [results]. *)
Record ApprovalRecord := mkRecord {
  walletAddress : Address;
  tokenAddress : Address;
  tokenSymbol : string;
  spenderAddress : Address;
  allowance : string;
  rawAllowance : string;
  isInfiniteApproval : bool;
  balance : string;
  rawBalance : string;
  exposedAmount : string;
  rawExposedAmount : string;
  price : option JS.number;
  exposedValueUSD : option JS.number
}.

(** What a call to the outside answers: a value, or an error with its
    [message]. *)
Inductive Reply (A : Type) :=
| Returns (a : A)
| Fails (message : string).
Arguments Returns {A} a.
Arguments Fails {A} message.

(** The collaborators of the scripts: the chain behind the provider (a
    fixed view: the same call gets the same answer during a run), the
    clock, the library function [ethers.formatUnits] and the built-ins
    [parseFloat], [Number.prototype.toString],
    [Number.prototype.toFixed] and [Array.prototype.sort] of the engine
    that runs the scripts.  [queryFilter] answers with the [spender]
    argument of each [Approval] event of the owner, in log order.
    [Array_sort] is the sort on an array of records; what ECMAScript
    requires of it is [sortConforms] below. *)
Record World := mkWorld {
  getBlockNumber : Reply Z;
  symbolOf : Address -> Reply string;
  decimalsOf : Address -> Reply N;
  balanceOf : Address -> Address -> Reply N;
  allowanceOf : Address -> Address -> Address -> Reply N;
  queryFilter : Address -> Address -> Z -> Z -> Reply (list Address);
  Date_now : nat -> Z;
  formatUnits : N -> N -> Reply string;
  parseFloat : string -> JS.number;
  Number_toString : JS.number -> string;
  Number_toFixed : JS.number -> nat -> string;
  Array_sort :
    (ApprovalRecord -> ApprovalRecord -> JS.number) ->
    list ApprovalRecord -> list ApprovalRecord
}.

(** ECMAScript on [Array.prototype.sort]: the result holds the elements
    of the array, and it is the stable sorted order when the comparator
    is consistent for them. *)
Definition sortConforms (w : World) : Prop :=
  forall cmp l,
    Permutation (Array_sort w cmp l) l
    /\ (JS.consistent cmp l = true -> Array_sort w cmp l = JS.sort cmp l).

(** Calls sent to the chain, in the order they are issued. *)
Inductive Call :=
| CallBlockNumber
| CallSymbol (token : Address)
| CallDecimals (token : Address)
| CallBalanceOf (token owner : Address)
| CallAllowance (token owner spender : Address)
| CallQueryFilter (token owner : Address) (fromBlock toBlock : Z).

Inductive Level := Debug | Info | Warn | Error.

(** A call to [logger]: the level, the message, and [error.message] when
    it is passed as second argument. *)
Record LogEntry := mkLog {
  log_level : Level;
  log_text : string;
  log_detail : option string
}.

(** The estimated remaining time shown in a progress line. *)
Inductive Eta :=
| EtaComputing
| EtaSeconds (s : JS.number)
| EtaMinutes (m : JS.number)
| EtaHours (h : JS.number).

(** What is written to the terminal with [process.stdout.write]: a full
    progress line of [updateProgress] (the values its template
    interpolates), a short note, and the closing line. *)
Inductive Output :=
| ProgressLine (completed total : N) (percent : JS.number) (eta : Eta)
    (currentAction : string)
| ProgressNote (completed total : N) (text : string)
| FinalLine (total : N).

(** The mutable variables of a run and the traces of its effects. *)
Record State := mkState {
  results : list ApprovalRecord;
  completedTasks : N;
  lastUpdate : Z;
  lastProgress : JS.number;
  clockReads : nat;
  stdout : list Output;
  logs : list LogEntry;
  calls : list Call
}.

Definition initialState : State :=
  mkState [] 0 0 0%float 0 [] [] [].

(** ** The monad of the scripts *)

(** How a piece of code completes: normally, by a thrown error, or by
    [process.exit]. *)
Inductive Completion (A : Type) :=
| Normal (a : A)
| Throw (message : string)
| Exit (code : Z).
Arguments Normal {A} a.
Arguments Throw {A} message.
Arguments Exit {A} code.

Definition M (A : Type) : Type := State -> Completion A * State.

Definition ret {A} (a : A) : M A := fun s => (Normal a, s).

Definition bind {A B} (m : M A) (k : A -> M B) : M B :=
  fun s =>
    match m s with
    | (Normal a, s') => k a s'
    | (Throw e, s') => (Throw e, s')
    | (Exit c, s') => (Exit c, s')
    end.

Declare Scope js_scope.
Delimit Scope js_scope with js.
Notation "x <- m ;; k" := (bind m (fun x => k))
  (at level 100, m at next level, right associativity) : js_scope.
Notation "m ;; k" := (bind m (fun _ => k))
  (at level 100, right associativity) : js_scope.
#[local] Open Scope js_scope.

(** [try { body } catch (error) { handler }]. *)
Definition try_catch {A} (body : M A) (handler : string -> M A) : M A :=
  fun s =>
    match body s with
    | (Throw e, s') => handler e s'
    | r => r
    end.

(** [try { body } finally { cleanup }]: the cleanup runs on normal and on
    abrupt completion, and the completion of the body is kept unless the
    cleanup itself completes abruptly.  [process.exit] runs no cleanup. *)
Definition try_finally {A} (body : M A) (cleanup : M unit) : M A :=
  fun s =>
    match body s with
    | (Exit c, s') => (Exit c, s')
    | (r, s') =>
        match cleanup s' with
        | (Normal _, s'') => (r, s'')
        | (Throw e, s'') => (Throw e, s'')
        | (Exit c, s'') => (Exit c, s'')
        end
    end.

(** [for (const x of l) { body }]. *)
Fixpoint for_of {A} (l : list A) (body : A -> M unit) : M unit :=
  match l with
  | [] => ret tt
  | x :: l' => body x ;; for_of l' body
  end.

(** [await Promise.all(l.map(async x => task x))].  Every task is started
    by [map]; here the tasks run one after the other in array order, each
    to its end, and the first rejection (if any) is thrown once all have
    ended. *)
Fixpoint promise_all {A} (l : list A) (task : A -> M unit) : M unit :=
  match l with
  | [] => ret tt
  | x :: l' =>
      fun s =>
        match task x s with
        | (Normal _, s') => promise_all l' task s'
        | (Throw e, s') =>
            match promise_all l' task s' with
            | (Exit c, s'') => (Exit c, s'')
            | (_, s'') => (Throw e, s'')
            end
        | (Exit c, s') => (Exit c, s')
        end
  end.

(** Primitive effects. *)
Definition await {A} (c : Call) (r : Reply A) : M A :=
  fun s =>
    let s' := mkState (results s) (completedTasks s) (lastUpdate s)
                (lastProgress s) (clockReads s) (stdout s) (logs s)
                (calls s ++ [c]) in
    match r with
    | Returns a => (Normal a, s')
    | Fails e => (Throw e, s')
    end.

(** A library call that may throw. *)
Definition lib {A} (r : Reply A) : M A :=
  fun s =>
    match r with
    | Returns a => (Normal a, s)
    | Fails e => (Throw e, s)
    end.

Definition logger (l : Level) (text : string) (detail : option string)
  : M unit :=
  fun s =>
    (Normal tt,
     mkState (results s) (completedTasks s) (lastUpdate s) (lastProgress s)
       (clockReads s) (stdout s) (logs s ++ [mkLog l text detail]) (calls s)).

Definition write (o : Output) : M unit :=
  fun s =>
    (Normal tt,
     mkState (results s) (completedTasks s) (lastUpdate s) (lastProgress s)
       (clockReads s) (stdout s ++ [o]) (logs s) (calls s)).

Definition push (r : ApprovalRecord) : M unit :=
  fun s =>
    (Normal tt,
     mkState (results s ++ [r]) (completedTasks s) (lastUpdate s)
       (lastProgress s) (clockReads s) (stdout s) (logs s) (calls s)).

(** [completedTasks += n]. *)
Definition complete (n : N) : M unit :=
  fun s =>
    (Normal tt,
     mkState (results s) (completedTasks s + n)%N (lastUpdate s)
       (lastProgress s) (clockReads s) (stdout s) (logs s) (calls s)).

Definition process_exit {A} (code : Z) : M A := fun s => (Exit code, s).

Definition get_completedTasks : M N := fun s => (Normal (completedTasks s), s).

(** [await Promise.all([a, b])]: both calls are issued; the result is the
    pair of their values, or the rejection of the first one that fails in
    array order. *)
Definition promise_all2 {A B} (a : M A) (b : M B) : M (A * B) :=
  fun s =>
    match a s with
    | (Normal x, s1) =>
        match b s1 with
        | (Normal y, s2) => (Normal (x, y), s2)
        | (Throw e, s2) => (Throw e, s2)
        | (Exit c, s2) => (Exit c, s2)
        end
    | (Throw e, s1) =>
        match b s1 with
        | (Exit c, s2) => (Exit c, s2)
        | (_, s2) => (Throw e, s2)
        end
    | (Exit c, s1) => (Exit c, s1)
    end.

(** The declaration [const results = []] at the start of a run. *)
Definition declare_results : M unit :=
  fun s =>
    (Normal tt,
     mkState [] (completedTasks s) (lastUpdate s) (lastProgress s)
       (clockReads s) (stdout s) (logs s) (calls s)).

(** The declarations [let completedTasks = 0],
    [const startTime = Date.now()], [let lastUpdate = startTime] and
    [let lastProgress = 0]; the value is [startTime]. *)
Definition declare_progress (w : World) : M Z :=
  fun s =>
    let startTime := Date_now w (clockReads s) in
    (Normal startTime,
     mkState (results s) 0 startTime 0%float (S (clockReads s)) (stdout s)
       (logs s) (calls s)).

Definition get_results : M (list ApprovalRecord) :=
  fun s => (Normal (results s), s).

(** ** Code shared by the scripts *)

(** [shortenAddress]. *)
Definition shortenAddress (address : string) : string :=
  if (String.length address <? 10)%nat then address
  else String.substring 0 6 address ++ "..."
       ++ String.substring (String.length address - 4) 4 address.

(** The stablecoin symbols whose price is taken to be 1. *)
Definition stablecoins : list string :=
  ["USDT"; "USDC"; "DAI"; "BUSD"; "TUSD"; "USDK"; "GUSD"].

(** [Array.prototype.includes] on strings. *)
Definition includes (l : list string) (x : string) : bool :=
  existsb (String.eqb x) l.

(** The price chosen once symbol and decimals are fetched. *)
Definition inferPrice (given : option JS.number) (sym : string)
  : option JS.number :=
  match given with
  | None => if includes stablecoins sym then Some 1%float else None
  | Some p => Some p
  end.

(** The token information block: fetch symbol and decimals together; on
    failure warn and fall back to the placeholder symbol, 18 decimals and
    the caller's price.  [before] and [after] are the terminal note and the
    debug line that the scripts put around the fetch. *)
Definition fetchTokenInfo (w : World) (tokenInfo : TokenEntry)
    (before : M unit) (after : string -> N -> M unit)
  : M (string * N * option JS.number) :=
  let tokenAddress := tk_address tokenInfo in
  try_catch
    (before ;;
     sd <- promise_all2
             (await (CallSymbol tokenAddress) (symbolOf w tokenAddress))
             (await (CallDecimals tokenAddress) (decimalsOf w tokenAddress)) ;;
     after (fst sd) (snd sd) ;;
     ret (fst sd, snd sd, inferPrice (tk_price tokenInfo) (fst sd)))
    (fun e =>
       logger Warn ("无法获取代币 " ++ tokenAddress ++ " 的信息:") (Some e) ;;
       ret ("未知", 18%N, tk_price tokenInfo)).

(** The balance block: [let balance = 0n], then inside [try] the fetch,
    the assignment and a debug line that formats the balance.  The inner
    handler is the same [catch] clause reached after the assignment, where
    [balance] keeps the fetched value. *)
Definition fetchBalance (w : World) (before : M unit)
    (tokenAddress address sym : string) (dec : N) : M N :=
  let warn e :=
    logger Warn ("获取 " ++ address ++ " 的 " ++ sym ++ " 余额出错:") (Some e) in
  try_catch
    (before ;;
     bal <- await (CallBalanceOf tokenAddress address)
              (balanceOf w tokenAddress address) ;;
     try_catch
       (formatted <- lib (formatUnits w bal dec) ;;
        logger Debug ("  地址 " ++ address ++ " 的 " ++ sym ++ " 余额: "
                      ++ formatted) None ;;
        ret bal)
       (fun e => warn e ;; ret bal))
    (fun e => warn e ;; ret 0%N).

(** The exposure computation between the allowance fetch and
    [results.push]: a pure computation that throws when [formatUnits]
    does. *)
Definition approvalRecord (w : World) (address tokenAddress sym : string)
    (dec : N) (price : option JS.number) (bal : N) (spender : Address)
    (allowance : N) : Reply ApprovalRecord :=
  let isInfiniteApproval :=
    String.eqb (JS.toString allowance) (JS.toString MaxUint256) in
  match (if isInfiniteApproval then Returns "∞"
         else formatUnits w allowance dec) with
  | Fails e => Fails e
  | Returns formattedAllowance =>
      let exposedAmount :=
        if isInfiniteApproval then bal
        else if (bal <? allowance)%N then bal else allowance in
      match formatUnits w exposedAmount dec with
      | Fails e => Fails e
      | Returns formattedExposedAmount =>
          let exposedValueUSD :=
            match price with
            | Some p => Some (parseFloat w formattedExposedAmount * p)%float
            | None => None
            end in
          match formatUnits w bal dec with
          | Fails e => Fails e
          | Returns formattedBalance =>
              Returns
                {| walletAddress := address;
                   tokenAddress := tokenAddress;
                   tokenSymbol := sym;
                   spenderAddress := spender;
                   allowance := formattedAllowance;
                   rawAllowance := JS.toString allowance;
                   isInfiniteApproval := isInfiniteApproval;
                   balance := formattedBalance;
                   rawBalance := JS.toString bal;
                   exposedAmount := formattedExposedAmount;
                   rawExposedAmount := JS.toString exposedAmount;
                   price := price;
                   exposedValueUSD := exposedValueUSD |}
          end
      end
  end.

(** The remaining time in its bands; the hours are shown with
    [toFixed(1)]. *)
Definition formatEta (remainingTime : JS.number) : Eta :=
  if JS.lt remainingTime 60%float then EtaSeconds (JS.Math_ceil remainingTime)
  else if JS.lt remainingTime 3600%float
       then EtaMinutes (JS.Math_ceil (remainingTime / 60)%float)
       else EtaHours (remainingTime / 3600)%float.

(** [percent] of [updateProgress]. *)
Definition percentOf (completed totalTasks : N) : JS.number :=
  JS.Math_floor ((JS.of_N completed / JS.of_N totalTasks) * 100)%float.

(** [eta] of [updateProgress]. *)
Definition etaOf (elapsed : JS.number) (completed totalTasks : N) : Eta :=
  if (0 <? completed)%N then
    let timePerTask := (elapsed / JS.of_N completed)%float in
    let remainingTasks := JS.of_Z (Z.of_N totalTasks - Z.of_N completed) in
    formatEta (timePerTask * remainingTasks)%float
  else EtaComputing.

(** The closure [updateProgress(force, currentAction)] over [startTime]
    and [totalTasks].  The basic checker's closure has no [currentAction]
    and shows none: it is this one at the empty string. *)
Definition updateProgress (w : World) (startTime : Z) (totalTasks : N)
    (force : bool) (currentAction : string) : M unit :=
  fun s =>
    let now := Date_now w (clockReads s) in
    let elapsed := (JS.of_Z (now - startTime) / 1000)%float in
    let percent := percentOf (completedTasks s) totalTasks in
    if force || (500 <=? now - lastUpdate s)%Z
       || JS.gt percent (lastProgress s)
    then
      (Normal tt,
       mkState (results s) (completedTasks s) now percent
         (S (clockReads s))
         (stdout s ++ [ProgressLine (completedTasks s) totalTasks percent
                         (etaOf elapsed (completedTasks s) totalTasks)
                         currentAction])
         (logs s) (calls s))
    else
      (Normal tt,
       mkState (results s) (completedTasks s) (lastUpdate s)
         (lastProgress s) (S (clockReads s)) (stdout s) (logs s) (calls s)).

(** The batches of the scheduler:
    [for (let i = 0; i < l.length; i += batchSize) push(l.slice(i, i + batchSize))].
    The loop ends within [l.length] rounds. *)
Fixpoint batches_from {A} (rounds : nat) (batchSize i : nat) (l : list A)
  : list (list A) :=
  match rounds with
  | O => []
  | S rounds' =>
      if (i <? length l)%nat
      then JS.slice i batchSize l
           :: batches_from rounds' batchSize (i + batchSize) l
      else []
  end.

Definition batchSize : nat := 3.

Definition batches {A} (l : list A) : list (list A) :=
  batches_from (length l) batchSize 0 l.

(** The decimal rendering of an integer-valued number in a template. *)
Definition showZ (z : Z) : string := NilZero.string_of_int (Z.to_int z).
Definition showNat (n : nat) : string := JS.toString (N.of_nat n).

(** ** The advanced checker *)

Module Advanced.
Section Run.

Variable w : World.
Variable addresses : list Address.
Variable startBlock currentBlock : Z.
Variable startTime : Z.
Variable totalTasks : N.

Section Token.

Variable tokenAddress sym : string.
Variable dec : N.
Variable price : option JS.number.

Section Wallet.

Variable address : Address.
Variable bal : N.

(** The body of the event loop for a spender seen for the first time. *)
Definition checkSpender (spender : Address) : M unit :=
  try_catch
    (updateProgress w startTime totalTasks false
       ("检查 " ++ shortenAddress address ++ " 对 "
        ++ shortenAddress spender ++ " 的授权") ;;
     allowance <- await (CallAllowance tokenAddress address spender)
                    (allowanceOf w tokenAddress address spender) ;;
     if String.eqb (JS.toString allowance) "0" then
       logger Debug ("  跳过 " ++ address ++ " 对 " ++ spender
                     ++ " 的零值授权") None
     else
       r <- lib (approvalRecord w address tokenAddress sym dec price
                   bal spender allowance) ;;
       push r)
    (fun e =>
       logger Warn ("检查 " ++ address ++ " 对 " ++ spender
                    ++ " 的当前授权出错:") (Some e)).

(** [for (const event of events)] with the set [processedSpenders]. *)
Fixpoint eventLoop (processedSpenders : gset string)
    (events : list Address) : M unit :=
  match events with
  | [] => ret tt
  | spender :: events' =>
      if decide (spender ∈ processedSpenders)
      then eventLoop processedSpenders events'
      else
        checkSpender spender ;;
        eventLoop ({[ spender ]} ∪ processedSpenders) events'
  end.

End Wallet.

(** One task of a batch: the work for one wallet address.  (The event
    filter is built between the balance block and the query; building it
    calls nothing.) *)
Definition addressTask (address : Address) : M unit :=
  try_finally
    (updateProgress w startTime totalTasks false
       ("查找地址 " ++ shortenAddress address ++ " 的 "
        ++ (if String.eqb sym "" then tokenAddress else sym)
        ++ " 授权") ;;
     logger Debug ("  查找地址 " ++ address ++ " 的授权事件") None ;;
     bal <- fetchBalance w (ret tt) tokenAddress address sym dec ;;
     try_catch
       (updateProgress w startTime totalTasks false
          ("查询地址 " ++ shortenAddress address ++ " 的历史授权事件") ;;
        events <- await
                    (CallQueryFilter tokenAddress address startBlock
                       currentBlock)
                    (queryFilter w tokenAddress address startBlock
                       currentBlock) ;;
        logger Debug ("  发现 " ++ showNat (length events)
                      ++ " 个授权事件") None ;;
        eventLoop address bal ∅ events)
       (fun e =>
          logger Warn ("查询 " ++ address ++ " 的授权事件出错:")
            (Some e)))
    (complete 1 ;;
     updateProgress w startTime totalTasks false "").

End Token.

(** The body of [for (const tokenInfo of tokens)].  In the handler
    [completedTasks % addresses.length] is taken on naturals (JavaScript
    gives NaN for an empty address list). *)
Definition tokenBody (tokenInfo : TokenEntry) : M unit :=
  let tokenAddress := tk_address tokenInfo in
  try_catch
    (logger Debug ("处理代币: " ++ tokenAddress) None ;;
     updateProgress w startTime totalTasks true
       ("处理代币 " ++ tokenAddress) ;;
     info <- fetchTokenInfo w tokenInfo (ret tt)
               (fun sym dec =>
                  logger Debug ("代币 " ++ tokenAddress ++ " 信息: symbol="
                                ++ sym ++ ", decimals=" ++ JS.toString dec)
                    None) ;;
     let '(sym, dec, price) := info in
     for_of (batches addresses)
       (fun batch =>
          promise_all batch (addressTask tokenAddress sym dec price)))
    (fun e =>
       logger Warn ("处理代币 " ++ tokenAddress ++ " 出错:") (Some e) ;;
       done <- get_completedTasks ;;
       let n := N.of_nat (length addresses) in
       complete (n - done mod n) ;;
       updateProgress w startTime totalTasks true "").

End Run.

(** [findAndCheckApprovals(provider, addresses, tokens, lookbackBlocks)]. *)
Definition findAndCheckApprovals (w : World) (addresses : list Address)
    (tokens : list TokenEntry) (lookbackBlocks : Z)
  : M (list ApprovalRecord) :=
  declare_results ;;
  currentBlock <- await CallBlockNumber (getBlockNumber w) ;;
  let startBlock := Z.max 0 (currentBlock - lookbackBlocks) in
  logger Info ("当前区块高度: " ++ showZ currentBlock ++ ", 将查找从区块 "
               ++ showZ startBlock ++ " 开始的授权事件") None ;;
  let totalTasks := N.of_nat (length tokens * length addresses) in
  startTime <- declare_progress w ;;
  try_finally
    (for_of tokens
       (tokenBody w addresses startBlock currentBlock startTime totalTasks))
    (write (FinalLine totalTasks)) ;;
  get_results.

End Advanced.

(** ** The basic checker with progress display *)

Module Basic.
Section Run.

Variable w : World.
Variable spenders : list Address.
Variable startTime : Z.
Variable totalTasks : N.

(** The notes written straight to the terminal:
    [进度: [completedTasks/totalTasks] text]. *)
Definition note (text : string) : M unit :=
  done <- get_completedTasks ;;
  write (ProgressNote done totalTasks text).

(** One task of a batch: the work for one spender. *)
Definition spenderTask (address tokenAddress sym : string) (dec : N)
    (price : option JS.number) (bal : N) (spender : Address) : M unit :=
  try_finally
    (try_catch
       (note ("检查 " ++ shortenAddress address ++ " 对 " ++ sym
              ++ " 授权给 " ++ shortenAddress spender ++ "...") ;;
        allowance <- await (CallAllowance tokenAddress address spender)
                       (allowanceOf w tokenAddress address spender) ;;
        r <- lib (approvalRecord w address tokenAddress sym dec price bal
                    spender allowance) ;;
        push r)
       (fun e =>
          logger Warn ("检查 " ++ address ++ " 对 " ++ tokenAddress
                       ++ " 授权给 " ++ spender ++ " 出错:") (Some e)))
    (complete 1 ;;
     updateProgress w startTime totalTasks false "").

(** The body of [for (const tokenInfo of tokens)] for one address. *)
Definition tokenBody (address : Address) (tokenInfo : TokenEntry)
  : M unit :=
  let tokenAddress := tk_address tokenInfo in
  try_catch
    (logger Debug ("  检查代币: " ++ tokenAddress) None ;;
     info <- fetchTokenInfo w tokenInfo
               (note ("获取代币 " ++ tokenAddress ++ " 信息中..."))
               (fun _ _ => ret tt) ;;
     let '(sym, dec, price) := info in
     bal <- fetchBalance w
              (note ("获取地址 " ++ shortenAddress address ++ " 的 " ++ sym
                     ++ " 余额中..."))
              tokenAddress address sym dec ;;
     for_of (batches spenders)
       (fun batch =>
          promise_all batch
            (spenderTask address tokenAddress sym dec price bal)))
    (fun e =>
       logger Warn ("处理代币 " ++ tokenAddress ++ " 出错:") (Some e) ;;
       complete (N.of_nat (length spenders)) ;;
       updateProgress w startTime totalTasks true "").

End Run.

(** [checkApprovals(provider, addresses, tokens, spenders)]. *)
Definition checkApprovals (w : World) (addresses : list Address)
    (tokens : list TokenEntry) (spenders : list Address)
  : M (list ApprovalRecord) :=
  declare_results ;;
  (if (length spenders =? 0)%nat then
     logger Error
       "未指定spender合约地址。请使用 --spender 或 --spender-file 选项" None ;;
     process_exit 1
   else ret tt) ;;
  let totalTasks :=
    N.of_nat (length addresses * length tokens * length spenders) in
  startTime <- declare_progress w ;;
  try_finally
    (for_of addresses
       (fun address =>
          logger Debug ("检查地址: " ++ address) None ;;
          for_of tokens (tokenBody w spenders startTime totalTasks address)))
    (write (FinalLine totalTasks)) ;;
  get_results.

End Basic.

(** ** The basic checker without progress display *)

Module Plain.
Section Run.

Variable w : World.
Variable spenders : list Address.

(** The body of [for (const spender of spenders)]. *)
Definition spenderBody (address tokenAddress sym : string) (dec : N)
    (price : option JS.number) (bal : N) (spender : Address) : M unit :=
  try_catch
    (allowance <- await (CallAllowance tokenAddress address spender)
                    (allowanceOf w tokenAddress address spender) ;;
     r <- lib (approvalRecord w address tokenAddress sym dec price bal
                 spender allowance) ;;
     push r)
    (fun e =>
       logger Warn ("检查 " ++ address ++ " 对 " ++ tokenAddress
                    ++ " 授权给 " ++ spender ++ " 出错:") (Some e)).

(** The body of [for (const tokenInfo of tokens)] for one address. *)
Definition tokenBody (address : Address) (tokenInfo : TokenEntry)
  : M unit :=
  let tokenAddress := tk_address tokenInfo in
  try_catch
    (logger Debug ("  检查代币: " ++ tokenAddress) None ;;
     info <- fetchTokenInfo w tokenInfo (ret tt) (fun _ _ => ret tt) ;;
     let '(sym, dec, price) := info in
     bal <- fetchBalance w (ret tt) tokenAddress address sym dec ;;
     for_of spenders (spenderBody address tokenAddress sym dec price bal))
    (fun e =>
       logger Warn ("处理代币 " ++ tokenAddress ++ " 出错:") (Some e)).

End Run.

(** [checkApprovals(provider, addresses, tokens, spenders)] of the earlier
    script. *)
Definition checkApprovals (w : World) (addresses : list Address)
    (tokens : list TokenEntry) (spenders : list Address)
  : M (list ApprovalRecord) :=
  declare_results ;;
  (if (length spenders =? 0)%nat then
     logger Error
       "未指定spender合约地址。请使用 --spender 或 --spender-file 选项" None ;;
     process_exit 1
   else ret tt) ;;
  for_of addresses
    (fun address =>
       logger Debug ("检查地址: " ++ address) None ;;
       for_of tokens (tokenBody w spenders address)) ;;
  get_results.

End Plain.

(** ** Display and export *)

(** The figures of the closing summary. *)
Record Stats := mkStats {
  uniqueWallets : nat;
  uniqueTokens : nat;
  uniqueSpenders : nat;
  infiniteApprovals : nat;
  totalExposedValueUSD : JS.number;
  exposedValueCount : nat
}.

(** What [displayResults] shows: the announced number of results, the rows
    handed to [displayResultTable], and the summary. *)
Record Report := mkReport {
  found : nat;
  shown : list ApprovalRecord;
  stats : Stats
}.

Definition MAX_DISPLAY_ROWS : nat := 100.

(** [r.exposedValueUSD !== null]. *)
Definition hasValue (r : ApprovalRecord) : bool :=
  match exposedValueUSD r with Some _ => true | None => false end.

(** The number a nullable field counts as in arithmetic. *)
Definition toNumber (v : option JS.number) : JS.number :=
  match v with Some x => x | None => 0%float end.

(** [(a, b) => b.exposedValueUSD - a.exposedValueUSD]. *)
Definition byValueDescending (a b : ApprovalRecord) : JS.number :=
  (toNumber (exposedValueUSD b) - toNumber (exposedValueUSD a))%float.

(** The test of [importantResults.some(...)]. *)
Definition sameTriple (r result : ApprovalRecord) : bool :=
  String.eqb (walletAddress r) (walletAddress result)
  && String.eqb (tokenAddress r) (tokenAddress result)
  && String.eqb (spenderAddress r) (spenderAddress result).

(** The loop that merges the infinite approvals into [importantResults]. *)
Fixpoint mergeImportant (importantResults infiniteResults : list ApprovalRecord)
  : list ApprovalRecord :=
  match infiniteResults with
  | [] => importantResults
  | result :: rest =>
      if existsb (fun r => sameTriple r result) importantResults
      then mergeImportant importantResults rest
      else mergeImportant (importantResults ++ [result]) rest
  end.

Definition highValueResults (w : World) (results : list ApprovalRecord)
  : list ApprovalRecord :=
  let sortedResults :=
    Array_sort w byValueDescending (List.filter hasValue results) in
  JS.slice 0 (MAX_DISPLAY_ROWS / 2) sortedResults.

Definition infiniteResults (results : list ApprovalRecord)
  : list ApprovalRecord :=
  JS.slice 0 (MAX_DISPLAY_ROWS / 2) (List.filter isInfiniteApproval results).

Definition importantResults (w : World) (results : list ApprovalRecord)
  : list ApprovalRecord :=
  mergeImportant (highValueResults w results) (infiniteResults results).

(** The loop that adds up the known exposed values. *)
Definition sumExposed (results : list ApprovalRecord) : JS.number * nat :=
  fold_left
    (fun acc result =>
       match exposedValueUSD result with
       | Some v => ((fst acc + v)%float, S (snd acc))
       | None => acc
       end)
    results (0%float, O).

Definition distinct (l : list string) : nat :=
  size (list_to_set l : gset string).

Definition summarize (results : list ApprovalRecord) : Stats :=
  {| uniqueWallets := distinct (map walletAddress results);
     uniqueTokens := distinct (map tokenAddress results);
     uniqueSpenders := distinct (map spenderAddress results);
     infiniteApprovals := length (List.filter isInfiniteApproval results);
     totalExposedValueUSD := fst (sumExposed results);
     exposedValueCount := snd (sumExposed results) |}.

(** [displayResults(results)] of the advanced checker and of the basic
    checker with progress display; [None] when there is nothing to show. *)
Definition displayResults (w : World) (results : list ApprovalRecord)
  : option Report :=
  if (length results =? 0)%nat then None
  else
    let summary := summarize results in
    Some
      {| found := length results;
         shown :=
           if (MAX_DISPLAY_ROWS <? length results)%nat
           then JS.slice 0 MAX_DISPLAY_ROWS (importantResults w results)
           else results;
         stats := summary |}.

Definition newline : string := String (ascii_of_nat 10) EmptyString.

Definition csvHeader : string :=
  "WalletAddress,TokenAddress,TokenSymbol,SpenderAddress,Allowance,Balance,ExposedAmount,Price,ExposedValueUSD,IsInfiniteApproval"
  ++ newline.

Definition csvLine (w : World) (result : ApprovalRecord) : string :=
  let exposedValueUSD :=
    match exposedValueUSD result with
    | Some v => Number_toFixed w v 2
    | None => "unknown"
    end in
  let price :=
    match price result with
    | Some p => Number_toString w p
    | None => "unknown"
    end in
  walletAddress result ++ "," ++ tokenAddress result ++ ","
  ++ tokenSymbol result ++ "," ++ spenderAddress result ++ ","
  ++ allowance result ++ "," ++ balance result ++ ","
  ++ exposedAmount result ++ "," ++ price ++ "," ++ exposedValueUSD ++ ","
  ++ (if isInfiniteApproval result then "true" else "false") ++ newline.

(** [exportResults(results, filepath)]: the text written to the file. *)
Definition exportResults (w : World) (results : list ApprovalRecord)
  : string :=
  fold_left (fun csv result => (csv ++ csvLine w result)%string) results
    csvHeader.


(** ** The logger's console filter *)

(** Whether a call to [logger] at level [l] is printed, for the
    [--verbose] flag and [config.logLevel]. *)
Definition printed (verbose : bool) (logLevel : string) (l : Level) : bool :=
  match l with
  | Debug => verbose || String.eqb logLevel "debug"
  | Info => includes ["debug"; "info"] logLevel
  | Warn => includes ["debug"; "info"; "warn"] logLevel
  | Error => true
  end.

(** The logger calls of a run that reach the console. *)
Definition console (verbose : bool) (logLevel : string)
    (entries : list LogEntry) : list LogEntry :=
  List.filter (fun e => printed verbose logLevel (log_level e)) entries.

(** ** The result table *)

Inductive Colour := Red | Green | Yellow | Cyan | Gray.

(** A table cell: the text and the [chalk] colour around it, if any. *)
Record Cell := mkCell {
  cell_colour : option Colour;
  cell_text : string
}.

(** The row that [displayResultTable] pushes for a record.  A number
    handed to [parseFloat] is first turned into its string. *)
Definition tableRow (w : World) (result : ApprovalRecord) : list Cell :=
  let isInfinite :=
    if isInfiniteApproval result then mkCell (Some Red) "是"
    else mkCell (Some Green) "否" in
  let allowanceCell :=
    if isInfiniteApproval result then mkCell (Some Red) (allowance result)
    else if JS.gt (parseFloat w (allowance result)) 0%float
         then mkCell (Some Yellow) (allowance result)
         else mkCell (Some Green) (allowance result) in
  let balanceCell := mkCell (Some Cyan) (balance result) in
  let exposedAmountCell :=
    if JS.gt (parseFloat w (exposedAmount result)) 0%float
    then mkCell (Some Yellow) (exposedAmount result)
    else mkCell (Some Green) (exposedAmount result) in
  let exposedValueCell :=
    match exposedValueUSD result with
    | Some v =>
        if JS.gt (parseFloat w (Number_toString w v)) 100%float
        then mkCell (Some Red) ("$" ++ Number_toFixed w v 2)
        else mkCell (Some Yellow) ("$" ++ Number_toFixed w v 2)
    | None => mkCell (Some Gray) "未知"
    end in
  [ mkCell None (shortenAddress (walletAddress result));
    mkCell None (tokenSymbol result);
    mkCell None (shortenAddress (spenderAddress result));
    allowanceCell;
    balanceCell;
    exposedAmountCell;
    exposedValueCell;
    isInfinite ].

Definition BATCH_SIZE : nat := 20.

(** [displayResultTable(results)]: the rows pushed to the table, batch by
    batch. *)
Definition displayResultTable (w : World) (results : list ApprovalRecord)
  : list (list Cell) :=
  flat_map (fun batch => map (tableRow w) batch)
    (batches_from (length results) BATCH_SIZE 0 results).

(** ** Reading the input lists *)

(** Texts are byte strings in UTF-8, as the files are read.  The white
    space and line terminators that [String.prototype.trim] removes, in
    UTF-8: the characters U+0009 to U+000D and U+0020 in one byte, U+00A0
    in two, and U+1680, U+2000 to U+200A, U+2028, U+2029, U+202F, U+205F,
    U+3000 and U+FEFF in three. *)
Definition whiteSpace1 (c : ascii) : bool :=
  let n := nat_of_ascii c in
  ((9 <=? n) && (n <=? 13) || (n =? 32))%nat.

Definition whiteSpace2 (c1 c2 : ascii) : bool :=
  ((nat_of_ascii c1 =? 194) && (nat_of_ascii c2 =? 160))%nat.

Definition whiteSpace3 (c1 c2 c3 : ascii) : bool :=
  let n1 := nat_of_ascii c1 in
  let n2 := nat_of_ascii c2 in
  let n3 := nat_of_ascii c3 in
  ((n1 =? 225) && (n2 =? 154) && (n3 =? 128)
   || (n1 =? 226) && (n2 =? 128)
      && ((128 <=? n3) && (n3 <=? 138) || (n3 =? 168) || (n3 =? 169)
          || (n3 =? 175))
   || (n1 =? 226) && (n2 =? 129) && (n3 =? 159)
   || (n1 =? 227) && (n2 =? 128) && (n3 =? 128)
   || (n1 =? 239) && (n2 =? 187) && (n3 =? 191))%nat.

(** A text that is one such character. *)
Definition isWhiteSpace (s : string) : bool :=
  match s with
  | String c EmptyString => whiteSpace1 c
  | String c1 (String c2 EmptyString) => whiteSpace2 c1 c2
  | String c1 (String c2 (String c3 EmptyString)) => whiteSpace3 c1 c2 c3
  | _ => false
  end.

Fixpoint trimStart (s : string) : string :=
  match s with
  | EmptyString => EmptyString
  | String c1 s1 =>
      if whiteSpace1 c1 then trimStart s1
      else
        match s1 with
        | EmptyString => s
        | String c2 s2 =>
            if whiteSpace2 c1 c2 then trimStart s2
            else
              match s2 with
              | EmptyString => s
              | String c3 s3 =>
                  if whiteSpace3 c1 c2 c3 then trimStart s3 else s
              end
        end
  end.

(** What is left of [String c s'] is [c] before what is left of [s'],
    unless that is one white space character. *)
Fixpoint trimEnd (s : string) : string :=
  match s with
  | EmptyString => EmptyString
  | String c s' =>
      let t := String c (trimEnd s') in
      if isWhiteSpace t then EmptyString else t
  end.

(** [String.prototype.trim]. *)
Definition trim (s : string) : string := trimEnd (trimStart s).

(** [String.prototype.split(sep)] for a separator of one character. *)
Fixpoint splitOn (sep : ascii) (s : string) : list string :=
  match s with
  | EmptyString => [EmptyString]
  | String c s' =>
      if Ascii.eqb c sep then EmptyString :: splitOn sep s'
      else
        match splitOn sep s' with
        | part :: parts => String c part :: parts
        | [] => [String c EmptyString]
        end
  end.

(** [Array.prototype.join(sep)]. *)
Fixpoint joinWith (sep : ascii) (l : list string) : string :=
  match l with
  | [] => EmptyString
  | [x] => x
  | x :: l' => (x ++ String sep (joinWith sep l'))%string
  end.

Definition newlineChar : ascii := ascii_of_nat 10.
Definition commaChar : ascii := ascii_of_nat 44.

(** [line && !line.startsWith('#')]. *)
Definition keptLine (line : string) : bool :=
  negb (String.eqb line "") && negb (String.prefix "#" line).

(** The lines that [readLinesFromFile] returns for a file content. *)
Definition linesOf (content : string) : list string :=
  List.filter keptLine (map trim (splitOn newlineChar content)).

(** The token entry that [readTokensFromFile] makes of a line. *)
Definition tokenOfLine (w : World) (line : string) : TokenEntry :=
  let parts := splitOn commaChar line in
  if (1 <? length parts)%nat then
    {| tk_address := trim (nth 0 parts "");
       tk_price := Some (parseFloat w (trim (nth 1 parts ""))) |}
  else
    {| tk_address := trim (nth 0 parts ""); tk_price := None |}.

Definition tokensOf (w : World) (content : string) : list TokenEntry :=
  map (tokenOfLine w) (linesOf content).

(** The environment of [main]: the configuration read from the process
    environment, the file system and the network behind the provider.
    [getNetwork] stands for making the provider of the configured URL and
    asking it for its network, which the script does in this order after
    its first log line. *)
Record Host := mkHost {
  cfg_network : string;
  cfg_rpcUrl : option string;
  readFile : string -> Reply string;
  getNetwork : Reply (string * N);
  writeFile : string -> string -> Reply unit
}.

(** The command-line options of the basic checker. *)
Record Options := mkOptions {
  opt_address : option string;
  opt_addressFile : option string;
  opt_token : option string;
  opt_tokenFile : option string;
  opt_spender : option string;
  opt_spenderFile : option string;
  opt_export : option string
}.

(** An option that is given and not the empty string. *)
Definition supplied (o : option string) : option string :=
  match o with
  | Some s => if String.eqb s "" then None else Some s
  | None => None
  end.

(** [readLinesFromFile(filePath)]. *)
Definition readLinesFromFile (h : Host) (filePath : string)
  : M (list string) :=
  try_catch
    (content <- lib (readFile h filePath) ;;
     ret (linesOf content))
    (fun e =>
       logger Error ("读取文件 " ++ filePath ++ " 出错:") (Some e) ;;
       process_exit 1).

(** [readTokensFromFile(filePath)]. *)
Definition readTokensFromFile (w : World) (h : Host) (filePath : string)
  : M (list TokenEntry) :=
  try_catch
    (content <- lib (readFile h filePath) ;;
     ret (tokensOf w content))
    (fun e =>
       logger Error ("读取文件 " ++ filePath ++ " 出错:") (Some e) ;;
       process_exit 1).

(** [getAddresses()]. *)
Definition getAddresses (h : Host) (o : Options) : M (list Address) :=
  match supplied (opt_address o) with
  | Some address => ret [address]
  | None =>
      match supplied (opt_addressFile o) with
      | Some path => readLinesFromFile h path
      | None => ret []
      end
  end.

(** [getTokens()]. *)
Definition getTokens (w : World) (h : Host) (o : Options)
  : M (list TokenEntry) :=
  match supplied (opt_token o) with
  | Some token => ret [mkToken token None]
  | None =>
      match supplied (opt_tokenFile o) with
      | Some path => readTokensFromFile w h path
      | None => ret []
      end
  end.

(** [getSpenders()]. *)
Definition getSpenders (h : Host) (o : Options) : M (list Address) :=
  match supplied (opt_spender o) with
  | Some spender => ret [spender]
  | None =>
      match supplied (opt_spenderFile o) with
      | Some path => readLinesFromFile h path
      | None => ret []
      end
  end.

(** [if (!a && !b) { logger.error(text); process.exit(1); }]. *)
Definition require (a b : option string) (text : string) : M unit :=
  match supplied a, supplied b with
  | None, None => logger Error text None ;; process_exit 1
  | _, _ => ret tt
  end.

(** [main()] of the basic checker with progress display.  The value is
    what was displayed and the text that was exported. *)
Definition main (w : World) (h : Host) (o : Options)
  : M (option Report * option string) :=
  try_catch
    (require (opt_address o) (opt_addressFile o)
       "必须提供钱包地址或地址文件" ;;
     require (opt_token o) (opt_tokenFile o)
       "必须提供代币地址或代币地址文件" ;;
     require (cfg_rpcUrl h) None
       ("未找到" ++ cfg_network h ++ "网络的RPC URL，请在.env文件中配置") ;;
     logger Info ("连接到" ++ cfg_network h ++ "网络...") None ;;
     network <- lib (getNetwork h) ;;
     logger Info ("已连接到网络: " ++ fst network ++ " (chainId: "
                  ++ JS.toString (snd network) ++ ")") None ;;
     addresses <- getAddresses h o ;;
     logger Info ("已加载" ++ showNat (length addresses) ++ "个钱包地址")
       None ;;
     tokens <- getTokens w h o ;;
     logger Info ("已加载" ++ showNat (length tokens) ++ "个代币地址") None ;;
     spenders <- getSpenders h o ;;
     logger Info ("已加载" ++ showNat (length spenders)
                  ++ "个spender合约地址") None ;;
     logger Info "开始检查授权..." None ;;
     results <- Basic.checkApprovals w addresses tokens spenders ;;
     (match displayResults w results with
      | None => logger Info "未找到任何授权信息" None
      | Some _ => ret tt
      end) ;;
     exported <- match supplied (opt_export o) with
                 | Some path =>
                     lib (writeFile h path (exportResults w results)) ;;
                     logger Info ("结果已导出到 " ++ path) None ;;
                     ret (Some (exportResults w results))
                 | None => ret None
                 end ;;
     ret (displayResults w results, exported))
    (fun e =>
       logger Error "程序执行出错:" (Some e) ;;
       process_exit 1).

(** ** A small world to run the scripts in *)

Module Demo.

(** The integer part of a number. *)
Definition integerPart (x : JS.number) : Z :=
  match Prim2SF x with
  | S754_finite s m e =>
      let n := if s then Z.neg m else Z.pos m in
      if (0 <=? e)%Z then Z.shiftl n e else Z.shiftr n (- e)
  | _ => 0%Z
  end.

(** Two wallets hold a stablecoin [T1] and a token [T2] without symbol;
    spender [S1] has an unlimited allowance, [S2] a zero allowance, the
    allowance of [S3] cannot be read, and [S4] may spend 7 units.  The
    balance of wallet [W2] cannot be read, nor the events of wallet [W3].
    Amounts are shown in base units.  The engine sorts by insertion,
    which matters only where ECMAScript leaves the order open. *)
Definition world : World :=
  {| getBlockNumber := Returns 100%Z;
     symbolOf :=
       fun t => if String.eqb t "T1" then Returns "USDT"
                else Fails "no symbol";
     decimalsOf := fun _ => Returns 0%N;
     balanceOf :=
       fun t a => if String.eqb a "W2" then Fails "no balance"
                  else Returns 500%N;
     allowanceOf :=
       fun t a s =>
         if String.eqb s "S1" then Returns MaxUint256
         else if String.eqb s "S2" then Returns 0%N
         else if String.eqb s "S3" then Fails "no allowance"
         else Returns 7%N;
     queryFilter :=
       fun t a fromBlock toBlock =>
         if String.eqb a "W3" then Fails "no events"
         else Returns ["S1"; "S2"; "S1"; "S3"; "S4"; "S4"];
     Date_now := fun n => (1000 + 100 * Z.of_nat n)%Z;
     formatUnits := fun v d => Returns (JS.toString v);
     parseFloat :=
       fun text =>
         match NilZero.uint_of_string text with
         | Some d => JS.of_N (N.of_uint d)
         | None => nan
         end;
     Number_toString := fun v => showZ (integerPart v);
     Number_toFixed :=
       fun v digits => (showZ (integerPart v) ++ ".00")%string;
     Array_sort := fun cmp l => JS.sort cmp l |}.

(** The same chain with tokens of 255 decimals, at which [formatUnits]
    throws. *)
Definition manyDecimals : World :=
  {| getBlockNumber := getBlockNumber world;
     symbolOf := symbolOf world;
     decimalsOf := fun _ => Returns 255%N;
     balanceOf := balanceOf world;
     allowanceOf := allowanceOf world;
     queryFilter := queryFilter world;
     Date_now := Date_now world;
     formatUnits :=
       fun v d => if (d =? 255)%N then Fails "invalid decimals"
                  else Returns (JS.toString v);
     parseFloat := parseFloat world;
     Number_toString := Number_toString world;
     Number_toFixed := Number_toFixed world;
     Array_sort := Array_sort world |}.

Definition tokens : list TokenEntry :=
  [mkToken "T1" None; mkToken "T2" None].

Definition wallets : list Address := ["W1"; "W2"; "W3"].

Definition spenders : list Address := ["S1"; "S2"; "S3"; "S4"].

(** The record of wallet [W1], token [T1] and spender [S4]. *)
Definition limited : ApprovalRecord :=
  {| walletAddress := "W1";
     tokenAddress := "T1";
     tokenSymbol := "USDT";
     spenderAddress := "S4";
     allowance := "7";
     rawAllowance := "7";
     isInfiniteApproval := false;
     balance := "500";
     rawBalance := "500";
     exposedAmount := "7";
     rawExposedAmount := "7";
     price := Some 1%float;
     exposedValueUSD := Some 7%float |}.

(** The record of wallet [W1], token [T1] and spender [S1]. *)
Definition unlimited : ApprovalRecord :=
  {| walletAddress := "W1";
     tokenAddress := "T1";
     tokenSymbol := "USDT";
     spenderAddress := "S1";
     allowance := "∞";
     rawAllowance := JS.toString MaxUint256;
     isInfiniteApproval := true;
     balance := "500";
     rawBalance := "500";
     exposedAmount := "500";
     rawExposedAmount := "500";
     price := Some 1%float;
     exposedValueUSD := Some 500%float |}.




End Demo.

(** * Verification *)

(** ** What a piece of code does to the run *)

(** The part of the effect of a piece of code that the properties below
    speak about: the records it pushes, by how much it advances
    [completedTasks], and warnings that it logs. *)
Record Summary := mkSummary {
  s_records : list ApprovalRecord;
  s_done : N;
  s_warnings : list LogEntry
}.

Definition nothing : Summary := mkSummary [] 0 [].

Definition both (a b : Summary) : Summary :=
  mkSummary (s_records a ++ s_records b) (s_done a + s_done b)
    (s_warnings a ++ s_warnings b).

Fixpoint gather {A} (f : A -> Summary) (l : list A) : Summary :=
  match l with
  | [] => nothing
  | x :: l' => both (f x) (gather f l')
  end.

(** [does m c σ]: from every state [m] completes with [c], appends the
    records of [σ] to [results], adds [s_done σ] to [completedTasks], and
    appends log entries among which are the warnings of [σ]. *)
Definition does {A} (m : M A) (c : Completion A) (σ : Summary) : Prop :=
  forall s, exists s' newLogs,
    m s = (c, s')
    /\ results s' = results s ++ s_records σ
    /\ completedTasks s' = (completedTasks s + s_done σ)%N
    /\ logs s' = logs s ++ newLogs
    /\ incl (s_warnings σ) newLogs.

Lemma both_nothing_l σ : both nothing σ = σ.
Proof. destruct σ; reflexivity. Qed.

Lemma both_nothing_r σ : both σ nothing = σ.
Proof.
  destruct σ; unfold both; simpl.
  rewrite !app_nil_r, N.add_0_r; reflexivity.
Qed.

Lemma both_assoc a b c : both (both a b) c = both a (both b c).
Proof.
  unfold both; simpl. rewrite <- !app_assoc, N.add_assoc; reflexivity.
Qed.

Lemma gather_app {A} (f : A -> Summary) l1 l2 :
  gather f (l1 ++ l2) = both (gather f l1) (gather f l2).
Proof.
  induction l1 as [|x l1 IH]; simpl.
  - now rewrite both_nothing_l.
  - now rewrite IH, both_assoc.
Qed.

Lemma gather_concat {A} (f : A -> Summary) (ll : list (list A)) :
  gather (gather f) ll = gather f (concat ll).
Proof.
  induction ll as [|l ll IH]; simpl; [reflexivity|].
  now rewrite gather_app, IH.
Qed.

Lemma gather_ext {A} (f g : A -> Summary) l :
  (forall x, In x l -> f x = g x) -> gather f l = gather g l.
Proof.
  induction l as [|x l IH]; simpl; intros H; [reflexivity|].
  rewrite H by now left. rewrite IH; [reflexivity|].
  intros y Hy; apply H; now right.
Qed.

Lemma gather_records {A} (f : A -> Summary) l :
  s_records (gather f l) = flat_map (fun x => s_records (f x)) l.
Proof. induction l as [|x l IH]; simpl; [reflexivity | now rewrite IH]. Qed.

Lemma gather_warnings {A} (f : A -> Summary) l :
  s_warnings (gather f l) = flat_map (fun x => s_warnings (f x)) l.
Proof. induction l as [|x l IH]; simpl; [reflexivity | now rewrite IH]. Qed.

Lemma gather_done_const {A} (f : A -> Summary) l n :
  (forall x, In x l -> s_done (f x) = n) ->
  s_done (gather f l) = (N.of_nat (length l) * n)%N.
Proof.
  induction l as [|x l IH]; intros H; [reflexivity|].
  cbn [gather both s_done length].
  rewrite H by now left.
  rewrite IH by (intros y Hy; apply H; now right). lia.
Qed.

(** Rules for the constructs of the monad. *)

Lemma does_eq {A} (m : M A) c σ σ' : does m c σ -> σ = σ' -> does m c σ'.
Proof. now intros H <-. Qed.

Lemma does_ret {A} (a : A) : does (ret a) (Normal a) nothing.
Proof.
  intros s. exists s, []. simpl.
  rewrite !app_nil_r, N.add_0_r. repeat split; auto using incl_nil_l.
Qed.

Lemma does_bind {A B} (m : M A) (k : A -> M B) a c σ1 σ2 :
  does m (Normal a) σ1 -> does (k a) c σ2 ->
  does (bind m k) c (both σ1 σ2).
Proof.
  intros Hm Hk s.
  destruct (Hm s) as (s1 & L1 & E1 & R1 & D1 & G1 & W1).
  destruct (Hk s1) as (s2 & L2 & E2 & R2 & D2 & G2 & W2).
  exists s2, (L1 ++ L2). unfold bind. rewrite E1, E2. simpl.
  rewrite R2, R1, D2, D1, G2, G1, <- !app_assoc, N.add_assoc.
  repeat split; auto.
  apply incl_app; [now apply incl_appl | now apply incl_appr].
Qed.

Lemma does_bind_throw {A B} (m : M A) (k : A -> M B) e σ :
  does m (Throw e) σ -> does (bind m k) (Throw e) σ.
Proof.
  intros Hm s. destruct (Hm s) as (s1 & L1 & E1 & H).
  exists s1, L1. unfold bind. now rewrite E1.
Qed.

Lemma does_bind_exit {A B} (m : M A) (k : A -> M B) code σ :
  does m (Exit code) σ -> does (bind m k) (Exit code) σ.
Proof.
  intros Hm s. destruct (Hm s) as (s1 & L1 & E1 & H).
  exists s1, L1. unfold bind. now rewrite E1.
Qed.

Lemma does_try_normal {A} (body : M A) handler a σ :
  does body (Normal a) σ -> does (try_catch body handler) (Normal a) σ.
Proof.
  intros Hm s. destruct (Hm s) as (s1 & L1 & E1 & H).
  exists s1, L1. unfold try_catch. now rewrite E1.
Qed.

Lemma does_try_throw {A} (body : M A) handler e c σ1 σ2 :
  does body (Throw e) σ1 -> does (handler e) c σ2 ->
  does (try_catch body handler) c (both σ1 σ2).
Proof.
  intros Hm Hk s.
  destruct (Hm s) as (s1 & L1 & E1 & R1 & D1 & G1 & W1).
  destruct (Hk s1) as (s2 & L2 & E2 & R2 & D2 & G2 & W2).
  exists s2, (L1 ++ L2). unfold try_catch. rewrite E1, E2. simpl.
  rewrite R2, R1, D2, D1, G2, G1, <- !app_assoc, N.add_assoc.
  repeat split; auto.
  apply incl_app; [now apply incl_appl | now apply incl_appr].
Qed.

Lemma does_finally {A} (body : M A) cleanup (a : A) σ1 σ2 :
  does body (Normal a) σ1 -> does cleanup (Normal tt) σ2 ->
  does (try_finally body cleanup) (Normal a) (both σ1 σ2).
Proof.
  intros Hm Hk s.
  destruct (Hm s) as (s1 & L1 & E1 & R1 & D1 & G1 & W1).
  destruct (Hk s1) as (s2 & L2 & E2 & R2 & D2 & G2 & W2).
  exists s2, (L1 ++ L2). unfold try_finally. rewrite E1, E2. simpl.
  rewrite R2, R1, D2, D1, G2, G1, <- !app_assoc, N.add_assoc.
  repeat split; auto.
  apply incl_app; [now apply incl_appl | now apply incl_appr].
Qed.

Lemma does_for_of {A} (l : list A) (body : A -> M unit) σ :
  (forall x, In x l -> does (body x) (Normal tt) (σ x)) ->
  does (for_of l body) (Normal tt) (gather σ l).
Proof.
  induction l as [|x l IH]; intros H; simpl.
  - apply does_ret.
  - apply does_bind with (a := tt).
    + apply H; now left.
    + apply IH. intros y Hy; apply H; now right.
Qed.

Lemma does_promise_all {A} (l : list A) (task : A -> M unit) σ :
  (forall x, In x l -> does (task x) (Normal tt) (σ x)) ->
  does (promise_all l task) (Normal tt) (gather σ l).
Proof.
  induction l as [|x l IH]; intros H; simpl.
  - apply does_ret.
  - intros s.
    destruct (H x (or_introl eq_refl) s)
      as (s1 & L1 & E1 & R1 & D1 & G1 & W1).
    destruct (IH (fun y Hy => H y (or_intror Hy)) s1)
      as (s2 & L2 & E2 & R2 & D2 & G2 & W2).
    exists s2, (L1 ++ L2). rewrite E1, E2. simpl.
    rewrite R2, R1, D2, D1, G2, G1, <- !app_assoc, N.add_assoc.
    repeat split; auto.
    apply incl_app; [now apply incl_appl | now apply incl_appr].
Qed.

(** Rules for the primitive effects. *)

Ltac leaf :=
  intros s; eexists; exists []; simpl;
  rewrite ?app_nil_r, ?N.add_0_r;
  repeat split; auto using incl_nil_l.

Lemma does_await_returns {A} c (a : A) :
  does (await c (Returns a)) (Normal a) nothing.
Proof. leaf. Qed.

Lemma does_await_fails {A} c e :
  does (@await A c (Fails e)) (Throw e) nothing.
Proof. leaf. Qed.

Lemma does_lib_returns {A} (a : A) : does (lib (Returns a)) (Normal a) nothing.
Proof. leaf. Qed.

Lemma does_lib_fails {A} e : does (@lib A (Fails e)) (Throw e) nothing.
Proof. leaf. Qed.

Lemma does_logger l text detail :
  does (logger l text detail) (Normal tt) nothing.
Proof.
  intros s; eexists; exists [mkLog l text detail]; simpl.
  rewrite ?app_nil_r, ?N.add_0_r. repeat split; auto using incl_nil_l.
Qed.

Lemma does_warn text detail :
  does (logger Warn text detail) (Normal tt)
    (mkSummary [] 0 [mkLog Warn text detail]).
Proof.
  intros s; eexists; exists [mkLog Warn text detail]; simpl.
  rewrite ?app_nil_r, ?N.add_0_r. repeat split; auto using incl_refl.
Qed.

Lemma does_write o : does (write o) (Normal tt) nothing.
Proof. leaf. Qed.

Lemma does_push r : does (push r) (Normal tt) (mkSummary [r] 0 []).
Proof. leaf. Qed.

Lemma does_complete n : does (complete n) (Normal tt) (mkSummary [] n []).
Proof. leaf. Qed.

Lemma does_updateProgress w startTime totalTasks force currentAction :
  does (updateProgress w startTime totalTasks force currentAction)
    (Normal tt) nothing.
Proof.
  intros s. unfold updateProgress.
  destruct (_ || _ || _); eexists; exists []; simpl;
    rewrite ?app_nil_r, ?N.add_0_r; repeat split; auto using incl_nil_l.
Qed.

Lemma does_note totalTasks text :
  does (Basic.note totalTasks text) (Normal tt) nothing.
Proof. leaf. Qed.

Lemma does_conv {A} (m : M A) c c' σ σ' :
  does m c' σ' -> c' = c -> σ' = σ -> does m c σ.
Proof. now intros H <- <-. Qed.

Lemma does_promise_all2_await {A B} c1 (r1 : Reply A) c2 (r2 : Reply B) :
  does (promise_all2 (await c1 r1) (await c2 r2))
    match r1, r2 with
    | Returns a, Returns b => Normal (a, b)
    | Returns _, Fails e => Throw e
    | Fails e, _ => Throw e
    end nothing.
Proof. destruct r1, r2; leaf. Qed.

Create HintDb does discriminated.

(** Symbolic execution of straight-line code with the rules above. *)
Ltac use_replies :=
  repeat match goal with
         | H : _ = Returns _ |- _ => rewrite H
         | H : _ = Fails _ |- _ => rewrite H
         end.

Ltac run :=
  cbv beta zeta; use_replies;
  lazymatch goal with
  | |- does (ret _) _ _ => apply does_ret
  | |- does (bind _ _) _ _ =>
      first [ eapply does_bind; [ solve [run] | run ]
            | eapply does_bind_throw; solve [run]
            | eapply does_bind_exit; solve [run] ]
  | |- does (try_catch _ _) _ _ =>
      first [ eapply does_try_normal; solve [run]
            | eapply does_try_throw; [ solve [run] | run ] ]
  | |- does (try_finally _ _) _ _ =>
      eapply does_finally; [ solve [run] | solve [run] ]
  | |- does (await _ (Returns _)) _ _ => apply does_await_returns
  | |- does (await _ (Fails _)) _ _ => apply does_await_fails
  | |- does (lib (Returns _)) _ _ => apply does_lib_returns
  | |- does (lib (Fails _)) _ _ => apply does_lib_fails
  | |- does (logger Warn _ _) _ _ => apply does_warn
  | |- does (logger _ _ _) _ _ => apply does_logger
  | |- does (write _) _ _ => apply does_write
  | |- does (push _) _ _ => apply does_push
  | |- does (complete _) _ _ => apply does_complete
  | |- does (updateProgress _ _ _ _ _) _ _ => apply does_updateProgress
  | |- does (Basic.note _ _) _ _ => apply does_note
  | |- _ => solve [eauto with does]
  end.

Ltac summary_eq :=
  unfold both, nothing; cbn [s_records s_done s_warnings app];
  rewrite ?app_nil_r, ?N.add_0_r, ?N.add_0_l; try reflexivity.

(** ** Functional description of the fetches *)

(** Symbol, decimals and price that the token information block ends
    with. *)
Definition tokenView (w : World) (tokenInfo : TokenEntry)
  : string * N * option JS.number :=
  match symbolOf w (tk_address tokenInfo),
        decimalsOf w (tk_address tokenInfo) with
  | Returns sym, Returns dec =>
      (sym, dec, inferPrice (tk_price tokenInfo) sym)
  | _, _ => ("未知", 18%N, tk_price tokenInfo)
  end.

(** The balance that the balance block ends with. *)
Definition balanceView (w : World) (tokenAddress address : Address) : N :=
  match balanceOf w tokenAddress address with
  | Returns b => b
  | Fails _ => 0%N
  end.

Definition balanceWarning (address sym e : string) : LogEntry :=
  mkLog Warn ("获取 " ++ address ++ " 的 " ++ sym ++ " 余额出错:") (Some e).

Definition balanceWarnings (w : World) (tokenAddress address sym : string)
    (dec : N) : list LogEntry :=
  match balanceOf w tokenAddress address with
  | Fails e => [balanceWarning address sym e]
  | Returns b =>
      match formatUnits w b dec with
      | Fails e => [balanceWarning address sym e]
      | Returns _ => []
      end
  end.

Lemma does_fetchTokenInfo w tokenInfo before after :
  does before (Normal tt) nothing ->
  (forall sym dec, does (after sym dec) (Normal tt) nothing) ->
  does (fetchTokenInfo w tokenInfo before after)
    (Normal (tokenView w tokenInfo)) nothing.
Proof.
  intros Hb Ha. unfold fetchTokenInfo, tokenView.
  pose proof (does_promise_all2_await
                (CallSymbol (tk_address tokenInfo))
                (symbolOf w (tk_address tokenInfo))
                (CallDecimals (tk_address tokenInfo))
                (decimalsOf w (tk_address tokenInfo))) as Hp.
  destruct (symbolOf w (tk_address tokenInfo)) as [sym|e1];
    [destruct (decimalsOf w (tk_address tokenInfo)) as [dec|e2]|].
  - eapply does_conv;
      [ apply does_try_normal;
        eapply does_bind; [apply Hb|];
        eapply does_bind; [apply Hp|];
        eapply does_bind; [apply Ha|]; apply does_ret
      | reflexivity | summary_eq ].
  - eapply does_conv;
      [ eapply does_try_throw;
        [ eapply does_bind; [apply Hb|];
          eapply does_bind_throw; apply Hp
        | eapply does_bind; [apply does_logger | apply does_ret] ]
      | reflexivity | summary_eq ].
  - eapply does_conv;
      [ eapply does_try_throw;
        [ eapply does_bind; [apply Hb|];
          eapply does_bind_throw; apply Hp
        | eapply does_bind; [apply does_logger | apply does_ret] ]
      | reflexivity | summary_eq ].
Qed.

Lemma does_fetchBalance w before tokenAddress address sym dec :
  does before (Normal tt) nothing ->
  does (fetchBalance w before tokenAddress address sym dec)
    (Normal (balanceView w tokenAddress address))
    (mkSummary [] 0 (balanceWarnings w tokenAddress address sym dec)).
Proof.
  intros Hb. unfold fetchBalance, balanceView, balanceWarnings.
  destruct (balanceOf w tokenAddress address) as [b|e];
    [destruct (formatUnits w b dec) as [f|e] eqn:Ef|].
  - eapply does_conv;
      [ apply does_try_normal; eapply does_bind; [apply Hb|]; run
      | reflexivity | summary_eq ].
  - eapply does_conv;
      [ apply does_try_normal; eapply does_bind; [apply Hb|]; run
      | reflexivity | summary_eq ].
  - eapply does_conv;
      [ eapply does_try_throw;
        [ eapply does_bind; [apply Hb|]; run | run ]
      | reflexivity | summary_eq ].
Qed.

(** The batches cover the list, in order. *)
Lemma concat_batches_from {A} (l : list A) rounds i :
  length l - i <= rounds ->
  concat (batches_from rounds batchSize i l) = skipn i l.
Proof.
  revert i; induction rounds as [|rounds IH]; intros i Hr; simpl.
  - symmetry; apply skipn_all2; lia.
  - destruct (Nat.ltb_spec i (length l)) as [Hi|Hi].
    + simpl. rewrite IH by (unfold batchSize; lia).
      unfold JS.slice. rewrite Nat.add_comm, <- skipn_skipn.
      apply firstn_skipn.
    + symmetry; apply skipn_all2; lia.
Qed.

Lemma concat_batches {A} (l : list A) : concat (batches l) = l.
Proof. unfold batches. rewrite concat_batches_from by lia. reflexivity. Qed.

Lemma batches_from_length {A} (l : list A) rounds i b :
  In b (batches_from rounds batchSize i l) -> length b <= batchSize.
Proof.
  revert i; induction rounds as [|rounds IH]; intros i; simpl; [tauto|].
  destruct (i <? length l)%nat; simpl; [|tauto].
  intros [<-|H]; [|now apply IH in H].
  unfold JS.slice. rewrite length_firstn. lia.
Qed.

(** ** Functional description of the basic checkers *)

Definition itemWarning (address tokenAddress spender e : string) : LogEntry :=
  mkLog Warn ("检查 " ++ address ++ " 对 " ++ tokenAddress ++ " 授权给 "
              ++ spender ++ " 出错:") (Some e).

(** What the work on one (address, token, spender) item leaves behind. *)
Definition itemOutcome (w : World) (address tokenAddress sym : string)
    (dec : N) (price : option JS.number) (bal : N) (spender : Address)
  : Summary :=
  match allowanceOf w tokenAddress address spender with
  | Fails e => mkSummary [] 0 [itemWarning address tokenAddress spender e]
  | Returns allowance =>
      match approvalRecord w address tokenAddress sym dec price bal spender
              allowance with
      | Returns r => mkSummary [r] 0 []
      | Fails e => mkSummary [] 0 [itemWarning address tokenAddress spender e]
      end
  end.

Definition counted (n : N) (σ : Summary) : Summary :=
  mkSummary (s_records σ) (s_done σ + n) (s_warnings σ).

(** What the work on one (address, token) pair leaves behind; [n] is the
    advance of [completedTasks] per spender. *)
Definition pairOutcome (w : World) (n : N) (spenders : list Address)
    (address : Address) (tokenInfo : TokenEntry) : Summary :=
  let tokenAddress := tk_address tokenInfo in
  let sym := fst (fst (tokenView w tokenInfo)) in
  let dec := snd (fst (tokenView w tokenInfo)) in
  let price := snd (tokenView w tokenInfo) in
  let bal := balanceView w tokenAddress address in
  both (mkSummary [] 0 (balanceWarnings w tokenAddress address sym dec))
    (gather
       (fun spender =>
          counted n
            (itemOutcome w address tokenAddress sym dec price bal spender))
       spenders).

Definition runOutcome (w : World) (n : N) (addresses : list Address)
    (tokens : list TokenEntry) (spenders : list Address) : Summary :=
  gather (fun address => gather (pairOutcome w n spenders address) tokens)
    addresses.

Lemma does_Plain_spenderBody w address tokenAddress sym dec price bal spender :
  does (Plain.spenderBody w address tokenAddress sym dec price bal spender)
    (Normal tt)
    (itemOutcome w address tokenAddress sym dec price bal spender).
Proof.
  unfold Plain.spenderBody, itemOutcome.
  destruct (allowanceOf w tokenAddress address spender) as [a|e] eqn:Ea.
  - destruct (approvalRecord w address tokenAddress sym dec price bal spender a)
      as [r|e] eqn:Er;
      (eapply does_conv; [run | reflexivity | summary_eq]).
  - eapply does_conv; [run | reflexivity | summary_eq].
Qed.

Lemma does_Basic_spenderTask w startTime totalTasks address tokenAddress sym
    dec price bal spender :
  does (Basic.spenderTask w startTime totalTasks address tokenAddress sym dec
          price bal spender)
    (Normal tt)
    (counted 1 (itemOutcome w address tokenAddress sym dec price bal spender)).
Proof.
  unfold Basic.spenderTask, itemOutcome, counted.
  destruct (allowanceOf w tokenAddress address spender) as [a|e] eqn:Ea.
  - destruct (approvalRecord w address tokenAddress sym dec price bal spender a)
      as [r|e] eqn:Er;
      (eapply does_conv; [run | reflexivity | summary_eq]).
  - eapply does_conv; [run | reflexivity | summary_eq].
Qed.

Lemma counted_0 σ : counted 0 σ = σ.
Proof. destruct σ; unfold counted; simpl. now rewrite N.add_0_r. Qed.

Lemma does_Plain_tokenBody w spenders address tokenInfo :
  does (Plain.tokenBody w spenders address tokenInfo) (Normal tt)
    (pairOutcome w 0 spenders address tokenInfo).
Proof.
  unfold Plain.tokenBody, pairOutcome. cbv zeta.
  apply does_try_normal.
  eapply does_conv; [ | reflexivity | apply both_nothing_l].
  eapply does_bind; [apply does_logger|].
  eapply does_conv; [ | reflexivity | apply both_nothing_l].
  eapply does_bind;
    [apply does_fetchTokenInfo; [apply does_ret | intros; apply does_ret]|].
  destruct (tokenView w tokenInfo) as [[sym dec] price]; simpl.
  eapply does_bind; [apply does_fetchBalance, does_ret|].
  erewrite gather_ext by (intros; apply counted_0).
  apply does_for_of. intros; apply does_Plain_spenderBody.
Qed.

Lemma does_Basic_tokenBody w spenders startTime totalTasks address tokenInfo :
  does (Basic.tokenBody w spenders startTime totalTasks address tokenInfo)
    (Normal tt) (pairOutcome w 1 spenders address tokenInfo).
Proof.
  unfold Basic.tokenBody, pairOutcome. cbv zeta.
  apply does_try_normal.
  eapply does_conv; [ | reflexivity | apply both_nothing_l].
  eapply does_bind; [apply does_logger|].
  eapply does_conv; [ | reflexivity | apply both_nothing_l].
  eapply does_bind;
    [apply does_fetchTokenInfo; [apply does_note | intros; apply does_ret]|].
  destruct (tokenView w tokenInfo) as [[sym dec] price]; simpl.
  eapply does_bind; [apply does_fetchBalance, does_note|].
  rewrite <- (concat_batches spenders) at 2.
  rewrite <- gather_concat.
  apply does_for_of. intros batch _.
  apply does_promise_all. intros; apply does_Basic_spenderTask.
Qed.

(** A run that ends normally: it returns its records, which are those of
    [σ]; [completedTasks] ends at [s_done σ]; the warnings of [σ] are in
    the log. *)
Definition finishes (run : M (list ApprovalRecord)) (σ : Summary) : Prop :=
  forall s, exists s',
    run s = (Normal (s_records σ), s')
    /\ results s' = s_records σ
    /\ completedTasks s' = s_done σ
    /\ incl (s_warnings σ) (logs s').

Lemma Basic_checkApprovals_finishes w addresses tokens spenders :
  spenders <> [] ->
  finishes (Basic.checkApprovals w addresses tokens spenders)
    (runOutcome w 1 addresses tokens spenders).
Proof.
  intros Hs s. destruct spenders as [|sp spenders]; [contradiction|].
  set (sps := sp :: spenders).
  unfold Basic.checkApprovals.
  change (length sps =? 0)%nat with false. cbv iota.
  unfold bind at 1 2 3 4.
  unfold declare_results, ret, declare_progress, get_results.
  cbv beta iota zeta.
  match goal with
  | |- context [try_finally ?b ?c ?st] =>
      assert (Hbody : does (try_finally b c) (Normal tt)
                        (runOutcome w 1 addresses tokens sps));
      [ | destruct (Hbody st) as (s1 & L & E & R & D & G & Wn); rewrite E ]
  end.
  { eapply does_conv; [ | reflexivity | apply both_nothing_r].
    eapply does_finally; [|apply does_write].
    apply does_for_of. intros address _.
    eapply does_conv; [ | reflexivity | apply both_nothing_l].
    eapply does_bind; [apply does_logger|].
    apply does_for_of. intros; apply does_Basic_tokenBody. }
  simpl in R, D, G. exists s1. rewrite R, D, G, N.add_0_l.
  repeat split; auto. now apply incl_appr.
Qed.

(** The plain checker has no [completedTasks]; its runs are described by
    the records and the warnings. *)
Lemma Plain_checkApprovals_finishes w addresses tokens spenders :
  spenders <> [] ->
  forall s, exists s',
    Plain.checkApprovals w addresses tokens spenders s
    = (Normal (s_records (runOutcome w 0 addresses tokens spenders)), s')
    /\ results s' = s_records (runOutcome w 0 addresses tokens spenders)
    /\ incl (s_warnings (runOutcome w 0 addresses tokens spenders)) (logs s').
Proof.
  intros Hs s. destruct spenders as [|sp spenders]; [contradiction|].
  set (sps := sp :: spenders).
  unfold Plain.checkApprovals.
  change (length sps =? 0)%nat with false. cbv iota.
  assert (Hbody :
            does (for_of addresses
                    (fun address =>
                       logger Debug ("检查地址: " ++ address) None ;;
                       for_of tokens (Plain.tokenBody w sps address)))
              (Normal tt) (runOutcome w 0 addresses tokens sps)).
  { apply does_for_of. intros address _.
    eapply does_conv; [ | reflexivity | apply both_nothing_l].
    eapply does_bind; [apply does_logger|].
    apply does_for_of. intros; apply does_Plain_tokenBody. }
  unfold bind at 1 2 3.
  unfold declare_results, ret, get_results.
  match goal with
  | |- context [for_of addresses ?b ?st] =>
      destruct (Hbody st) as (s1 & L & E & R & D & G & Wn); rewrite E
  end.
  simpl in R, G. exists s1. rewrite R, G.
  repeat split; auto. now apply incl_appr.
Qed.

(** ** Functional description of the advanced checker *)

(** Spender discovery: the spenders of the events in log order, each kept
    at its first occurrence; [seen] are the spenders already processed. *)
Fixpoint discoveredFrom (seen : gset string) (events : list Address)
  : list Address :=
  match events with
  | [] => []
  | spender :: events' =>
      if decide (spender ∈ seen) then discoveredFrom seen events'
      else spender :: discoveredFrom ({[ spender ]} ∪ seen) events'
  end.

Definition discovered (events : list Address) : list Address :=
  discoveredFrom ∅ events.

Definition spenderWarning (address spender e : string) : LogEntry :=
  mkLog Warn ("检查 " ++ address ++ " 对 " ++ spender ++ " 的当前授权出错:")
    (Some e).

Definition eventsWarning (address e : string) : LogEntry :=
  mkLog Warn ("查询 " ++ address ++ " 的授权事件出错:") (Some e).

(** What the check of one discovered spender leaves behind. *)
Definition spenderOutcome (w : World) (address tokenAddress sym : string)
    (dec : N) (price : option JS.number) (bal : N) (spender : Address)
  : Summary :=
  match allowanceOf w tokenAddress address spender with
  | Fails e => mkSummary [] 0 [spenderWarning address spender e]
  | Returns allowance =>
      if String.eqb (JS.toString allowance) "0" then nothing
      else
        match approvalRecord w address tokenAddress sym dec price bal spender
                allowance with
        | Returns r => mkSummary [r] 0 []
        | Fails e => mkSummary [] 0 [spenderWarning address spender e]
        end
  end.

(** What the task for one (token, address) pair leaves behind. *)
Definition walletOutcome (w : World) (startBlock currentBlock : Z)
    (tokenAddress sym : string) (dec : N) (price : option JS.number)
    (address : Address) : Summary :=
  let bal := balanceView w tokenAddress address in
  both (mkSummary [] 0 (balanceWarnings w tokenAddress address sym dec))
    (counted 1
       match queryFilter w tokenAddress address startBlock currentBlock with
       | Fails e => mkSummary [] 0 [eventsWarning address e]
       | Returns events =>
           gather
             (spenderOutcome w address tokenAddress sym dec price bal)
             (discovered events)
       end).

Definition tokenOutcome (w : World) (startBlock currentBlock : Z)
    (addresses : list Address) (tokenInfo : TokenEntry) : Summary :=
  gather
    (walletOutcome w startBlock currentBlock (tk_address tokenInfo)
       (fst (fst (tokenView w tokenInfo))) (snd (fst (tokenView w tokenInfo)))
       (snd (tokenView w tokenInfo)))
    addresses.

Definition scanOutcome (w : World) (startBlock currentBlock : Z)
    (addresses : list Address) (tokens : list TokenEntry) : Summary :=
  gather (tokenOutcome w startBlock currentBlock addresses) tokens.

Lemma does_checkSpender w startTime totalTasks tokenAddress sym dec price
    address bal spender :
  does (Advanced.checkSpender w startTime totalTasks tokenAddress sym dec
          price address bal spender)
    (Normal tt)
    (spenderOutcome w address tokenAddress sym dec price bal spender).
Proof.
  unfold Advanced.checkSpender, spenderOutcome.
  destruct (allowanceOf w tokenAddress address spender) as [a|e] eqn:Ea.
  - destruct (String.eqb (JS.toString a) "0") eqn:Ez.
    + eapply does_conv;
        [ apply does_try_normal;
          eapply does_bind; [apply does_updateProgress|];
          eapply does_bind; [apply does_await_returns|];
          cbv beta; rewrite Ez; apply does_logger
        | reflexivity | summary_eq ].
    + destruct (approvalRecord w address tokenAddress sym dec price bal
                  spender a) as [r|e] eqn:Er.
      * eapply does_conv;
          [ apply does_try_normal;
            eapply does_bind; [apply does_updateProgress|];
            eapply does_bind; [apply does_await_returns|];
            cbv beta; rewrite Ez; run
          | reflexivity | summary_eq ].
      * eapply does_conv;
          [ eapply does_try_throw;
            [ eapply does_bind; [apply does_updateProgress|];
              eapply does_bind; [apply does_await_returns|];
              cbv beta; rewrite Ez; run
            | run ]
          | reflexivity | summary_eq ].
  - eapply does_conv; [run | reflexivity | summary_eq].
Qed.

Lemma does_eventLoop w startTime totalTasks tokenAddress sym dec price
    address bal events :
  forall seen,
    does (Advanced.eventLoop w startTime totalTasks tokenAddress sym dec
            price address bal seen events)
      (Normal tt)
      (gather (spenderOutcome w address tokenAddress sym dec price bal)
         (discoveredFrom seen events)).
Proof.
  induction events as [|spender events IH]; intros seen; simpl.
  - apply does_ret.
  - destruct (decide (spender ∈ seen)); [apply IH|].
    simpl. eapply does_bind; [apply does_checkSpender | apply IH].
Qed.

Lemma does_addressTask w startBlock currentBlock startTime totalTasks
    tokenAddress sym dec price address :
  does (Advanced.addressTask w startBlock currentBlock startTime totalTasks
          tokenAddress sym dec price address)
    (Normal tt)
    (walletOutcome w startBlock currentBlock tokenAddress sym dec price
       address).
Proof.
  unfold Advanced.addressTask, walletOutcome. cbv zeta.
  pose proof (does_fetchBalance w (ret tt) tokenAddress address sym dec
                (does_ret tt)) as Hbal.
  pose proof (fun evs =>
                does_eventLoop w startTime totalTasks tokenAddress sym dec
                  price address (balanceView w tokenAddress address) evs ∅)
    as Hloop.
  destruct (queryFilter w tokenAddress address startBlock currentBlock)
    as [events|e] eqn:Eq.
  - eapply does_conv;
      [ eapply does_finally;
        [ eapply does_bind; [apply does_updateProgress|];
          eapply does_bind; [apply does_logger|];
          eapply does_bind; [apply Hbal|];
          apply does_try_normal;
          eapply does_bind; [apply does_updateProgress|];
          eapply does_bind; [apply does_await_returns|];
          eapply does_bind; [apply does_logger|];
          apply Hloop
        | run ]
      | reflexivity
      | unfold counted, discovered; summary_eq ].
  - eapply does_conv;
      [ eapply does_finally;
        [ eapply does_bind; [apply does_updateProgress|];
          eapply does_bind; [apply does_logger|];
          eapply does_bind; [apply Hbal|];
          eapply does_try_throw;
          [ eapply does_bind; [apply does_updateProgress|];
            eapply does_bind_throw; apply does_await_fails
          | apply does_warn ]
        | run ]
      | reflexivity
      | unfold counted, eventsWarning; summary_eq ].
Qed.

Lemma does_Advanced_tokenBody w addresses startBlock currentBlock startTime
    totalTasks tokenInfo :
  does (Advanced.tokenBody w addresses startBlock currentBlock startTime
          totalTasks tokenInfo)
    (Normal tt) (tokenOutcome w startBlock currentBlock addresses tokenInfo).
Proof.
  unfold Advanced.tokenBody, tokenOutcome. cbv zeta.
  apply does_try_normal.
  eapply does_conv; [ | reflexivity | apply both_nothing_l].
  eapply does_bind; [apply does_logger|].
  eapply does_conv; [ | reflexivity | apply both_nothing_l].
  eapply does_bind; [apply does_updateProgress|].
  eapply does_conv; [ | reflexivity | apply both_nothing_l].
  eapply does_bind;
    [apply does_fetchTokenInfo;
       [apply does_ret | intros; apply does_logger]|].
  destruct (tokenView w tokenInfo) as [[sym dec] price]; simpl.
  rewrite <- (concat_batches addresses) at 2.
  rewrite <- gather_concat.
  apply does_for_of. intros batch _.
  apply does_promise_all. intros; apply does_addressTask.
Qed.

Lemma findAndCheckApprovals_finishes w addresses tokens lookbackBlocks block :
  getBlockNumber w = Returns block ->
  finishes (Advanced.findAndCheckApprovals w addresses tokens lookbackBlocks)
    (scanOutcome w (Z.max 0 (block - lookbackBlocks)) block addresses tokens).
Proof.
  intros Hblock s.
  unfold Advanced.findAndCheckApprovals. rewrite Hblock.
  unfold bind at 1 2 3 4 5.
  unfold declare_results, await, logger, declare_progress, get_results.
  cbv beta iota zeta.
  match goal with
  | |- context [try_finally ?b ?c ?st] =>
      assert (Hbody : does (try_finally b c) (Normal tt)
                        (scanOutcome w (Z.max 0 (block - lookbackBlocks))
                           block addresses tokens));
      [ | destruct (Hbody st) as (s1 & L & E & R & D & G & Wn); rewrite E ]
  end.
  { eapply does_conv; [ | reflexivity | apply both_nothing_r].
    eapply does_finally; [|apply does_write].
    apply does_for_of. intros; apply does_Advanced_tokenBody. }
  simpl in R, D, G. exists s1. rewrite R, D, G, N.add_0_l.
  repeat split; auto. now apply incl_appr.
Qed.

(** ** Where the records of a run come from *)

(** The records a run ends with. *)
Definition resultsOf (run : M (list ApprovalRecord)) (s : State)
  : list ApprovalRecord :=
  results (snd (run s)).

(** The record that the calculator makes for a token entry, a wallet and a
    spender from the allowance [a], with the token information and the
    balance that the run fetched for them. *)
Definition recordFor (w : World) (tokenInfo : TokenEntry)
    (address spender : Address) (a : N) : Reply ApprovalRecord :=
  approvalRecord w address (tk_address tokenInfo)
    (fst (fst (tokenView w tokenInfo))) (snd (fst (tokenView w tokenInfo)))
    (snd (tokenView w tokenInfo))
    (balanceView w (tk_address tokenInfo) address) spender a.

(** [r] is the record computed for a token entry of the run, a wallet and a
    spender from the allowance [a] that the chain returns for them. *)
Definition produced (w : World) (tokens : list TokenEntry)
    (r : ApprovalRecord) : Prop :=
  exists tokenInfo address spender a,
    In tokenInfo tokens
    /\ allowanceOf w (tk_address tokenInfo) address spender = Returns a
    /\ recordFor w tokenInfo address spender a = Returns r.

(** [r] is a record of a run of one of the three scripts. *)
Definition recorded (w : World) (addresses : list Address)
    (tokens : list TokenEntry) (spenders : list Address) (lookbackBlocks : Z)
    (s : State) (r : ApprovalRecord) : Prop :=
  In r (resultsOf
          (Advanced.findAndCheckApprovals w addresses tokens lookbackBlocks) s)
  \/ In r (resultsOf (Basic.checkApprovals w addresses tokens spenders) s)
  \/ In r (resultsOf (Plain.checkApprovals w addresses tokens spenders) s).

Lemma itemOutcome_records w address tokenAddress sym dec given bal spender r :
  In r (s_records
          (itemOutcome w address tokenAddress sym dec given bal spender)) ->
  exists a,
    allowanceOf w tokenAddress address spender = Returns a
    /\ approvalRecord w address tokenAddress sym dec given bal spender a
       = Returns r.
Proof.
  unfold itemOutcome.
  destruct (allowanceOf w tokenAddress address spender) as [a|e];
    [|simpl; tauto].
  destruct (approvalRecord w address tokenAddress sym dec given bal spender a)
    as [r'|e] eqn:Er; simpl; [|tauto].
  intros [<-|[]]. now exists a.
Qed.

Lemma spenderOutcome_records w address tokenAddress sym dec given bal spender
    r :
  In r (s_records
          (spenderOutcome w address tokenAddress sym dec given bal spender)) ->
  exists a,
    allowanceOf w tokenAddress address spender = Returns a
    /\ String.eqb (JS.toString a) "0" = false
    /\ approvalRecord w address tokenAddress sym dec given bal spender a
       = Returns r.
Proof.
  unfold spenderOutcome.
  destruct (allowanceOf w tokenAddress address spender) as [a|e];
    [|simpl; tauto].
  destruct (String.eqb (JS.toString a) "0") eqn:Ez; [simpl; tauto|].
  destruct (approvalRecord w address tokenAddress sym dec given bal spender a)
    as [r'|e] eqn:Er; simpl; [|tauto].
  intros [<-|[]]. now exists a.
Qed.

Lemma runOutcome_produced w n addresses tokens spenders r :
  In r (s_records (runOutcome w n addresses tokens spenders)) ->
  produced w tokens r.
Proof.
  unfold runOutcome. rewrite gather_records. intros H.
  apply in_flat_map in H as (address & _ & H).
  rewrite gather_records in H.
  apply in_flat_map in H as (tokenInfo & Ht & H).
  unfold pairOutcome in H. cbv zeta in H. cbn [both s_records app] in H.
  rewrite gather_records in H.
  apply in_flat_map in H as (spender & _ & H).
  apply itemOutcome_records in H as (a & Ha & Hr).
  now exists tokenInfo, address, spender, a.
Qed.

Lemma scanOutcome_produced w startBlock currentBlock addresses tokens r :
  In r (s_records (scanOutcome w startBlock currentBlock addresses tokens)) ->
  produced w tokens r.
Proof.
  unfold scanOutcome. rewrite gather_records. intros H.
  apply in_flat_map in H as (tokenInfo & Ht & H).
  unfold tokenOutcome in H. rewrite gather_records in H.
  apply in_flat_map in H as (address & _ & H).
  unfold walletOutcome in H. cbv zeta in H.
  cbn [both counted s_records app] in H.
  destruct (queryFilter w (tk_address tokenInfo) address startBlock
              currentBlock) as [events|e]; [|destruct H].
  rewrite gather_records in H.
  apply in_flat_map in H as (spender & _ & H).
  apply spenderOutcome_records in H as (a & Ha & _ & Hr).
  now exists tokenInfo, address, spender, a.
Qed.

(** Without spenders the basic checkers stop at once. *)
Lemma Basic_no_spenders w addresses tokens s :
  Basic.checkApprovals w addresses tokens [] s
  = (Exit 1,
     mkState [] (completedTasks s) (lastUpdate s) (lastProgress s)
       (clockReads s) (stdout s)
       (logs s
        ++ [mkLog Error
              "未指定spender合约地址。请使用 --spender 或 --spender-file 选项"
              None])
       (calls s)).
Proof. reflexivity. Qed.

Lemma Plain_no_spenders w addresses tokens s :
  Plain.checkApprovals w addresses tokens [] s
  = (Exit 1,
     mkState [] (completedTasks s) (lastUpdate s) (lastProgress s)
       (clockReads s) (stdout s)
       (logs s
        ++ [mkLog Error
              "未指定spender合约地址。请使用 --spender 或 --spender-file 选项"
              None])
       (calls s)).
Proof. reflexivity. Qed.

(** When the block number cannot be read the advanced checker throws
    before any task. *)
Lemma Advanced_no_block w addresses tokens lookbackBlocks e s :
  getBlockNumber w = Fails e ->
  Advanced.findAndCheckApprovals w addresses tokens lookbackBlocks s
  = (Throw e,
     mkState [] (completedTasks s) (lastUpdate s) (lastProgress s)
       (clockReads s) (stdout s) (logs s) (calls s ++ [CallBlockNumber])).
Proof.
  intros H. unfold Advanced.findAndCheckApprovals, bind, declare_results, await.
  now rewrite H.
Qed.

Lemma recorded_produced w addresses tokens spenders lookbackBlocks s r :
  recorded w addresses tokens spenders lookbackBlocks s r ->
  produced w tokens r.
Proof.
  unfold recorded, resultsOf. intros [H|[H|H]].
  - destruct (getBlockNumber w) as [block|e] eqn:Eb.
    + destruct (findAndCheckApprovals_finishes w addresses tokens
                  lookbackBlocks block Eb s) as (s' & E & R & _).
      rewrite E in H. simpl in H. rewrite R in H.
      now apply scanOutcome_produced in H.
    + rewrite (Advanced_no_block _ _ _ _ _ _ Eb) in H. destruct H.
  - destruct spenders as [|sp spenders].
    + rewrite Basic_no_spenders in H. destruct H.
    + destruct (Basic_checkApprovals_finishes w addresses tokens
                  (sp :: spenders) ltac:(discriminate) s)
        as (s' & E & R & _).
      rewrite E in H. simpl in H. rewrite R in H.
      now apply runOutcome_produced in H.
  - destruct spenders as [|sp spenders].
    + rewrite Plain_no_spenders in H. destruct H.
    + destruct (Plain_checkApprovals_finishes w addresses tokens
                  (sp :: spenders) ltac:(discriminate) s)
        as (s' & E & R & _).
      rewrite E in H. simpl in H. rewrite R in H.
      now apply runOutcome_produced in H.
Qed.

(** ** The exposure calculator *)

Lemma toString_inj a b : JS.toString a = JS.toString b -> a = b.
Proof.
  unfold JS.toString. intros H.
  assert (Hn : forall n, N.to_uint n <> Decimal.Nil).
  { intros [|p]; [discriminate | apply DecimalPos.Unsigned.to_uint_nonnil]. }
  apply DecimalN.Unsigned.to_uint_inj.
  pose proof (NilZero.usu _ (Hn a)) as Ha.
  pose proof (NilZero.usu _ (Hn b)) as Hb.
  rewrite H in Ha. congruence.
Qed.

Lemma toString_eqb a b :
  String.eqb (JS.toString a) (JS.toString b) = (a =? b)%N.
Proof.
  destruct (N.eqb_spec a b) as [->|Hne].
  - apply String.eqb_refl.
  - apply String.eqb_neq. intros H; apply Hne, toString_inj, H.
Qed.

(** The exposed amount of the calculator, on the raw integers. *)
Definition exposedRaw (a bal : N) : N :=
  if (a =? MaxUint256)%N then bal
  else if (bal <? a)%N then bal else a.

(** The fields of a record that the calculator returns. *)
Lemma approvalRecord_fields w address token sym dec given bal spender
    a r :
  approvalRecord w address token sym dec given bal spender a = Returns r ->
  walletAddress r = address
  /\ tokenAddress r = token
  /\ tokenSymbol r = sym
  /\ spenderAddress r = spender
  /\ rawAllowance r = JS.toString a
  /\ rawBalance r = JS.toString bal
  /\ isInfiniteApproval r = (a =? MaxUint256)%N
  /\ rawExposedAmount r = JS.toString (exposedRaw a bal)
  /\ price r = given
  /\ exposedValueUSD r
     = match given with
       | Some p => Some (parseFloat w (exposedAmount r) * p)%float
       | None => None
       end
  /\ (if (a =? MaxUint256)%N then allowance r = "∞"
      else formatUnits w a dec = Returns (allowance r))
  /\ formatUnits w (exposedRaw a bal) dec = Returns (exposedAmount r)
  /\ formatUnits w bal dec = Returns (balance r).
Proof.
  unfold approvalRecord, exposedRaw. rewrite toString_eqb.
  destruct (a =? MaxUint256)%N.
  - destruct (formatUnits w bal dec) as [fb|e]; [|discriminate].
    intros [= <-]. simpl. repeat split; reflexivity.
  - destruct (formatUnits w a dec) as [fa|e]; [|discriminate].
    destruct (formatUnits w (if (bal <? a)%N then bal else a) dec)
      as [fe|e] eqn:Ee; [|discriminate].
    destruct (formatUnits w bal dec) as [fb|e]; [|discriminate].
    intros [= <-]. simpl. repeat split; reflexivity.
Qed.

(** ** Exposure *)

(** The raw amounts of a record, read as integers: the exposed amount is
    the smaller of allowance and balance, or the balance for an infinite
    approval, and never exceeds the balance. *)
Definition exposure_in_raw_units (r : ApprovalRecord) : Prop :=
  exists a b e : N,
    rawAllowance r = JS.toString a
    /\ rawBalance r = JS.toString b
    /\ rawExposedAmount r = JS.toString e
    /\ (isInfiniteApproval r = false -> e = N.min a b)
    /\ (isInfiniteApproval r = true -> e = b)
    /\ (e <= b)%N.

Lemma exposedRaw_le a bal : (exposedRaw a bal <= bal)%N.
Proof.
  unfold exposedRaw. destruct (a =? MaxUint256)%N; [lia|].
  destruct (N.ltb_spec bal a); lia.
Qed.

Lemma produced_exposure w tokens r :
  produced w tokens r -> exposure_in_raw_units r.
Proof.
  intros (tokenInfo & address & spender & a & _ & _ & Hr).
  apply approvalRecord_fields in Hr
    as (_ & _ & _ & _ & Ha & Hb & Hi & He & _).
  exists a, (balanceView w (tk_address tokenInfo) address),
    (exposedRaw a (balanceView w (tk_address tokenInfo) address)).
  repeat split; auto using exposedRaw_le.
  - rewrite Hi. unfold exposedRaw. intros ->.
    destruct (N.ltb_spec (balanceView w (tk_address tokenInfo) address) a);
      lia.
  - rewrite Hi. unfold exposedRaw. now intros ->.
Qed.

(** C1: every record of a run, in advanced or in basic mode, has as raw
    exposed amount the minimum of raw allowance and raw balance when
    [isInfiniteApproval] is false and the raw balance when it is true; so
    the raw exposed amount never exceeds the raw balance. *)
Theorem exposed_amount_is_min_or_balance w addresses tokens spenders
    lookbackBlocks s r :
  recorded w addresses tokens spenders lookbackBlocks s r ->
  exposure_in_raw_units r.
Proof.
  intros H. eapply produced_exposure, recorded_produced, H.
Qed.

Lemma exposed_amount_is_min_or_balance_witness :
  recorded Demo.world Demo.wallets Demo.tokens Demo.spenders 10 initialState
    Demo.limited
  /\ exposure_in_raw_units Demo.limited.
Proof.
  assert (H : recorded Demo.world Demo.wallets Demo.tokens Demo.spenders 10
                initialState Demo.limited).
  { right; left. vm_compute. tauto. }
  split; [exact H|].
  exact (exposed_amount_is_min_or_balance Demo.world Demo.wallets Demo.tokens
           Demo.spenders 10%Z initialState Demo.limited H).
Defined.

(** ** Infinite approvals *)



(** ** Prices *)

Definition isStablecoin (sym : string) : Prop :=
  sym = "USDT" \/ sym = "USDC" \/ sym = "DAI" \/ sym = "BUSD"
  \/ sym = "TUSD" \/ sym = "USDK" \/ sym = "GUSD".

(** The symbol that the token information block fetched, if it did. *)
Definition fetchedSymbol (w : World) (token : Address) : option string :=
  match symbolOf w token, decimalsOf w token with
  | Returns sym, Returns _ => Some sym
  | _, _ => None
  end.

(** The price policy in the order of the specification: the caller's
    price; else 1 for a fetched stablecoin symbol; else unknown. *)
Definition priceRule (given : option JS.number) (fetched : option string)
    (resolved : option JS.number) : Prop :=
  match given with
  | Some p => resolved = Some p
  | None =>
      match fetched with
      | Some sym =>
          (isStablecoin sym -> resolved = Some 1%float)
          /\ (~ isStablecoin sym -> resolved = None)
      | None => resolved = None
      end
  end.

Lemma includes_stablecoins sym :
  includes stablecoins sym = true <-> isStablecoin sym.
Proof.
  unfold includes, stablecoins, isStablecoin. simpl.
  rewrite !orb_true_iff, !String.eqb_eq. intuition discriminate.
Qed.

Lemma tokenView_priceRule w tokenInfo :
  priceRule (tk_price tokenInfo) (fetchedSymbol w (tk_address tokenInfo))
    (snd (tokenView w tokenInfo)).
Proof.
  unfold priceRule, fetchedSymbol, tokenView, inferPrice.
  destruct (tk_price tokenInfo) as [p|].
  - destruct (symbolOf w (tk_address tokenInfo));
      [destruct (decimalsOf w (tk_address tokenInfo))|]; reflexivity.
  - destruct (symbolOf w (tk_address tokenInfo)) as [sym|];
      [destruct (decimalsOf w (tk_address tokenInfo))|]; try reflexivity.
    cbn [snd]. pose proof (includes_stablecoins sym) as Hs.
    destruct (includes stablecoins sym); split; intros H; try reflexivity.
    + exfalso; apply H, Hs; reflexivity.
    + apply Hs in H; discriminate.
Qed.

(** C8: the token information block resolves the price by the policy, and
    every record of a run carries the price so resolved for a token entry
    of the run with its token address; when that price is unknown its
    [exposedValueUSD] is unknown. *)
Theorem price_resolution_order :
  (forall w tokenInfo s,
      exists sym dec resolved s',
        fetchTokenInfo w tokenInfo (ret tt) (fun _ _ => ret tt) s
        = (Normal (sym, dec, resolved), s')
        /\ priceRule (tk_price tokenInfo)
             (fetchedSymbol w (tk_address tokenInfo)) resolved)
  /\ (forall w addresses tokens spenders lookbackBlocks s r,
         recorded w addresses tokens spenders lookbackBlocks s r ->
         exists tokenInfo,
           In tokenInfo tokens
           /\ tokenAddress r = tk_address tokenInfo
           /\ priceRule (tk_price tokenInfo)
                (fetchedSymbol w (tk_address tokenInfo)) (price r)
           /\ (price r = None -> exposedValueUSD r = None)).
Proof.
  split.
  - intros w tokenInfo s.
    destruct (does_fetchTokenInfo w tokenInfo (ret tt) (fun _ _ => ret tt)
                (does_ret tt) (fun _ _ => does_ret tt) s)
      as (s' & L & E & _).
    pose proof (tokenView_priceRule w tokenInfo) as Hp.
    destruct (tokenView w tokenInfo) as [[sym dec] resolved].
    now exists sym, dec, resolved, s'.
  - intros w addresses tokens spenders lookbackBlocks s r H.
    apply recorded_produced in H
      as (tokenInfo & address & spender & a & Ht & _ & Hr).
    apply approvalRecord_fields in Hr
      as (_ & Hta & _ & _ & _ & _ & _ & _ & Hp & Hv & _).
    exists tokenInfo. repeat split; auto.
    + rewrite Hp. apply tokenView_priceRule.
    + rewrite Hv, Hp. now intros ->.
Qed.

Lemma price_resolution_order_witness :
  recorded Demo.world Demo.wallets Demo.tokens Demo.spenders 10 initialState
    Demo.limited
  /\ exists tokenInfo,
      In tokenInfo Demo.tokens
      /\ tokenAddress Demo.limited = tk_address tokenInfo
      /\ priceRule (tk_price tokenInfo)
           (fetchedSymbol Demo.world (tk_address tokenInfo))
           (price Demo.limited)
      /\ (price Demo.limited = None -> exposedValueUSD Demo.limited = None).
Proof.
  assert (H : recorded Demo.world Demo.wallets Demo.tokens Demo.spenders 10
                initialState Demo.limited).
  { right; left. vm_compute. tauto. }
  split; [exact H|].
  exact (proj2 price_resolution_order Demo.world Demo.wallets Demo.tokens
           Demo.spenders 10%Z initialState Demo.limited H).
Defined.

(** ** The progress counter *)

Lemma spenderOutcome_done w address token sym dec given bal spender :
  s_done (spenderOutcome w address token sym dec given bal spender) = 0%N.
Proof.
  unfold spenderOutcome.
  destruct (allowanceOf w token address spender) as [a|e]; [|reflexivity].
  destruct (String.eqb (JS.toString a) "0"); [reflexivity|].
  now destruct (approvalRecord w address token sym dec given bal spender a).
Qed.

Lemma itemOutcome_done w address token sym dec given bal spender :
  s_done (itemOutcome w address token sym dec given bal spender) = 0%N.
Proof.
  unfold itemOutcome.
  destruct (allowanceOf w token address spender) as [a|e]; [|reflexivity].
  now destruct (approvalRecord w address token sym dec given bal spender a).
Qed.

Lemma walletOutcome_done w startBlock currentBlock token sym dec given
    address :
  s_done (walletOutcome w startBlock currentBlock token sym dec given address)
  = 1%N.
Proof.
  unfold walletOutcome. cbv zeta. cbn [both counted s_done].
  destruct (queryFilter w token address startBlock currentBlock) as [evs|e];
    [|reflexivity].
  rewrite (gather_done_const _ _ 0%N)
    by (intros; apply spenderOutcome_done).
  lia.
Qed.

Lemma scanOutcome_done w startBlock currentBlock addresses tokens :
  s_done (scanOutcome w startBlock currentBlock addresses tokens)
  = N.of_nat (length tokens * length addresses).
Proof.
  unfold scanOutcome.
  rewrite (gather_done_const _ _ (N.of_nat (length addresses))).
  - lia.
  - intros tokenInfo _. unfold tokenOutcome.
    rewrite (gather_done_const _ _ 1%N)
      by (intros; apply walletOutcome_done).
    lia.
Qed.

Lemma runOutcome_done w addresses tokens spenders :
  s_done (runOutcome w 1 addresses tokens spenders)
  = N.of_nat (length addresses * length tokens * length spenders).
Proof.
  unfold runOutcome.
  rewrite (gather_done_const _ _
             (N.of_nat (length tokens) * N.of_nat (length spenders))%N).
  - lia.
  - intros address _.
    rewrite (gather_done_const _ _ (N.of_nat (length spenders))); [lia|].
    intros tokenInfo _. unfold pairOutcome. cbv zeta. cbn [both s_done].
    rewrite (gather_done_const _ _ 1%N); [lia|].
    intros spender _. cbn [counted s_done].
    now rewrite itemOutcome_done.
Qed.

(** C4: a run that ends has [completedTasks] equal to the total task
    count, whatever calls failed: in advanced mode (once the block number
    is read) the count of (token, address) pairs, in basic mode (with
    spenders given) the count of (address, token, spender) items; and the
    task of each work item advances the counter by exactly one. *)
Theorem completed_tasks_equal_total w addresses tokens spenders
    lookbackBlocks s :
  (forall block,
      getBlockNumber w = Returns block ->
      exists s',
        Advanced.findAndCheckApprovals w addresses tokens lookbackBlocks s
        = (Normal (results s'), s')
        /\ completedTasks s' = N.of_nat (length tokens * length addresses))
  /\ (spenders <> [] ->
      exists s',
        Basic.checkApprovals w addresses tokens spenders s
        = (Normal (results s'), s')
        /\ completedTasks s'
           = N.of_nat (length addresses * length tokens * length spenders))
  /\ (forall startBlock currentBlock startTime totalTasks token sym dec given
        address s0,
         exists s1,
           Advanced.addressTask w startBlock currentBlock startTime totalTasks
             token sym dec given address s0 = (Normal tt, s1)
           /\ completedTasks s1 = (completedTasks s0 + 1)%N)
  /\ (forall startTime totalTasks address token sym dec given bal spender s0,
         exists s1,
           Basic.spenderTask w startTime totalTasks address token sym dec
             given bal spender s0 = (Normal tt, s1)
           /\ completedTasks s1 = (completedTasks s0 + 1)%N).
Proof.
  repeat split.
  - intros block Hb.
    destruct (findAndCheckApprovals_finishes w addresses tokens
                lookbackBlocks block Hb s) as (s' & E & R & D & _).
    exists s'. rewrite E, R, D, scanOutcome_done. auto.
  - intros Hs.
    destruct (Basic_checkApprovals_finishes w addresses tokens spenders Hs s)
      as (s' & E & R & D & _).
    exists s'. rewrite E, R, D, runOutcome_done. auto.
  - intros.
    destruct (does_addressTask w startBlock currentBlock startTime totalTasks
                token sym dec given address s0)
      as (s1 & L & E & _ & D & _).
    exists s1. now rewrite E, D, walletOutcome_done.
  - intros.
    destruct (does_Basic_spenderTask w startTime totalTasks address token sym
                dec given bal spender s0)
      as (s1 & L & E & _ & D & _).
    exists s1. rewrite E, D. cbn [counted s_done].
    now rewrite itemOutcome_done.
Qed.

Lemma completed_tasks_equal_total_witness :
  (exists s',
      Advanced.findAndCheckApprovals Demo.world Demo.wallets Demo.tokens 10
        initialState = (Normal (results s'), s')
      /\ completedTasks s' = 6%N)
  /\ (exists s',
         Basic.checkApprovals Demo.world Demo.wallets Demo.tokens
           Demo.spenders initialState = (Normal (results s'), s')
         /\ completedTasks s' = 24%N).
Proof.
  destruct (completed_tasks_equal_total Demo.world Demo.wallets Demo.tokens
              Demo.spenders 10 initialState) as (Ha & Hb & _).
  split.
  - exact (Ha 100%Z eq_refl).
  - apply Hb. discriminate.
Defined.

(** ** Spender discovery *)

Lemma discoveredFrom_In seen events x :
  In x (discoveredFrom seen events) <-> In x events /\ x ∉ seen.
Proof.
  revert seen; induction events as [|y events IH]; intros seen; simpl.
  - tauto.
  - destruct (decide (y ∈ seen)) as [Hy|Hy]; simpl; rewrite IH.
    + split; [tauto|]. intros [[->|H] Hx]; [contradiction | tauto].
    + split.
      * intros [->|[H Hx]]; [tauto|]. split; [tauto|]. set_solver.
      * intros [[->|H] Hx]; [tauto|].
        destruct (decide (x = y)) as [->|Hne]; [tauto|].
        right. split; [assumption|]. set_solver.
Qed.

Lemma discoveredFrom_NoDup seen events :
  List.NoDup (discoveredFrom seen events).
Proof.
  revert seen; induction events as [|y events IH]; intros seen; simpl.
  - constructor.
  - destruct (decide (y ∈ seen)); [apply IH|].
    constructor; [|apply IH].
    rewrite discoveredFrom_In. intros [_ H]. set_solver.
Qed.

Lemma discoveredFrom_first seen pre x post :
  x ∉ seen -> ~ In x pre ->
  exists tail,
    discoveredFrom seen (pre ++ x :: post)
    = discoveredFrom seen pre ++ x :: tail.
Proof.
  revert seen; induction pre as [|y pre IH]; intros seen Hs Hp; simpl.
  - destruct (decide (x ∈ seen)); [contradiction|]. eauto.
  - assert (Hne : x <> y) by (intros ->; apply Hp; now left).
    assert (Hp' : ~ In x pre) by (intros H; apply Hp; now right).
    destruct (decide (y ∈ seen)).
    + now apply IH.
    + destruct (IH ({[ y ]} ∪ seen)) as (tail & E); [set_solver | assumption|].
      exists tail. simpl. now rewrite E.
Qed.

Lemma checkSpender_calls w startTime totalTasks token sym dec given address
    bal spender s :
  calls (snd (Advanced.checkSpender w startTime totalTasks token sym dec given
                address bal spender s))
  = calls s ++ [CallAllowance token address spender].
Proof.
  unfold Advanced.checkSpender, try_catch, bind, updateProgress, await, lib,
    push, logger.
  destruct (_ || _ || _); cbn [fst snd calls];
    destruct (allowanceOf w token address spender) as [a|e]; try reflexivity;
    destruct (String.eqb (JS.toString a) "0"); try reflexivity;
    destruct (approvalRecord w address token sym dec given bal spender a);
    reflexivity.
Qed.

Lemma eventLoop_calls w startTime totalTasks token sym dec given address bal
    events :
  forall seen s,
    calls (snd (Advanced.eventLoop w startTime totalTasks token sym dec given
                  address bal seen events s))
    = calls s
      ++ map (CallAllowance token address) (discoveredFrom seen events).
Proof.
  induction events as [|x events IH]; intros seen s; simpl.
  - now rewrite app_nil_r.
  - destruct (decide (x ∈ seen)); [apply IH|].
    unfold bind.
    pose proof (checkSpender_calls w startTime totalTasks token sym dec given
                  address bal x s) as Hc.
    destruct (does_checkSpender w startTime totalTasks token sym dec given
                address bal x s) as (s1 & L & E & _).
    rewrite E in Hc |- *. simpl in Hc.
    rewrite IH, Hc, <- app_assoc. reflexivity.
Qed.

(** C5: spender discovery keeps each distinct spender of the events once,
    at its first occurrence: the discovered list has no duplicates and the
    same members as the events; a spender that first occurs after the
    events [pre] comes right after the spenders discovered in [pre]; two
    events of one spender give that spender once.  The event loop checks
    the allowance of exactly the discovered spenders, in this order. *)
Theorem discovery_keeps_first_occurrence :
  (forall events, List.NoDup (discovered events))
  /\ (forall events x, In x (discovered events) <-> In x events)
  /\ (forall pre x post,
         ~ In x pre ->
         exists tail,
           discovered (pre ++ x :: post) = discovered pre ++ x :: tail)
  /\ (forall x, discovered [x; x] = [x])
  /\ (forall w startTime totalTasks token sym dec given address bal events s,
         calls (snd (Advanced.eventLoop w startTime totalTasks token sym dec
                       given address bal ∅ events s))
         = calls s ++ map (CallAllowance token address) (discovered events)).
Proof.
  repeat split.
  - intros; apply discoveredFrom_NoDup.
  - unfold discovered. rewrite discoveredFrom_In. tauto.
  - unfold discovered. rewrite discoveredFrom_In.
    intros H; split; [assumption | set_solver].
  - intros. apply discoveredFrom_first; [set_solver | assumption].
  - intros x. unfold discovered. simpl.
    destruct (decide (x ∈ (∅ : gset string))) as [H|_]; [set_solver|].
    destruct (decide (x ∈ ({[ x ]} ∪ ∅ : gset string))) as [_|H];
      [reflexivity | set_solver].
  - intros. apply eventLoop_calls.
Qed.

Lemma discovery_keeps_first_occurrence_witness :
  discovered ["S1"; "S2"; "S1"; "S3"; "S4"; "S4"] = ["S1"; "S2"; "S3"; "S4"]
  /\ exists tail,
      discovered (["S1"; "S2"; "S1"] ++ "S3" :: ["S4"; "S4"])
      = discovered ["S1"; "S2"; "S1"] ++ "S3" :: tail.
Proof.
  split; [vm_compute; reflexivity|].
  destruct discovery_keeps_first_occurrence as (_ & _ & H & _).
  apply H. intros [E|[E|[E|[]]]]; discriminate.
Defined.

(** ** The empty spender list *)

(** C10: in basic mode, with an empty spender list the run reports the
    error and exits with code 1 before any work: no record, no call to the
    chain, no terminal output, no counted task.  This holds of both basic
    checkers. *)
Theorem empty_spenders_abort w addresses tokens s :
  (exists s',
      Basic.checkApprovals w addresses tokens [] s = (Exit 1, s')
      /\ results s' = []
      /\ calls s' = calls s
      /\ stdout s' = stdout s
      /\ completedTasks s' = completedTasks s
      /\ exists text, logs s' = logs s ++ [mkLog Error text None])
  /\ (exists s',
         Plain.checkApprovals w addresses tokens [] s = (Exit 1, s')
         /\ results s' = []
         /\ calls s' = calls s
         /\ exists text, logs s' = logs s ++ [mkLog Error text None])
  /\ (1 <> 0)%Z.
Proof.
  split; [|split; [|discriminate]].
  - eexists; rewrite Basic_no_spenders. repeat split; eauto.
  - eexists; rewrite Plain_no_spenders. repeat split; eauto.
Qed.

(** ** The progress reporter *)

(** C9: [updateProgress] writes a status line exactly when the update is
    forced, or 500 ms have passed since the last line, or the integer
    percentage [floor(completed / total * 100)] exceeds that of the last
    line; it then records the time and the percentage of the line.  The
    line shows the estimate [(elapsed / completed) * (total - completed)]
    in its band when [completed > 0], and the placeholder when
    [completed = 0]: below 60 seconds the estimate rounded up to whole
    seconds, below 3600 seconds the estimate in minutes rounded up, and
    from there on the estimate in hours.  Otherwise nothing is written
    and the throttle state stays. *)
Theorem progress_line_throttle w startTime totalTasks force currentAction s :
  let now := Date_now w (clockReads s) in
  let completed := completedTasks s in
  let percent :=
    JS.Math_floor (JS.of_N completed / JS.of_N totalTasks * 100)%float in
  let elapsed := (JS.of_Z (now - startTime) / 1000)%float in
  let s' := snd (updateProgress w startTime totalTasks force currentAction s) in
  let due :=
    force = true \/ (500 <= now - lastUpdate s)%Z
    \/ JS.gt percent (lastProgress s) = true in
  (due ->
   exists eta,
     stdout s'
     = stdout s ++ [ProgressLine completed totalTasks percent eta currentAction]
     /\ lastUpdate s' = now
     /\ lastProgress s' = percent
     /\ (completed = 0%N -> eta = EtaComputing)
     /\ ((0 < completed)%N ->
         eta = formatEta
                 (elapsed / JS.of_N completed
                  * JS.of_Z (Z.of_N totalTasks - Z.of_N completed))%float)
     /\ ((0 < completed)%N ->
         let remainingTime :=
           (elapsed / JS.of_N completed
            * JS.of_Z (Z.of_N totalTasks - Z.of_N completed))%float in
         ((remainingTime <? 60)%float = true ->
          eta = EtaSeconds (JS.Math_ceil remainingTime))
         /\ ((remainingTime <? 60)%float = false ->
             (remainingTime <? 3600)%float = true ->
             eta = EtaMinutes (JS.Math_ceil (remainingTime / 60)%float))
         /\ ((remainingTime <? 60)%float = false ->
             (remainingTime <? 3600)%float = false ->
             eta = EtaHours (remainingTime / 3600)%float)))
  /\ (~ due ->
      stdout s' = stdout s
      /\ lastUpdate s' = lastUpdate s
      /\ lastProgress s' = lastProgress s)
  /\ completedTasks s' = completedTasks s
  /\ results s' = results s.
Proof.
  cbv zeta. unfold updateProgress, percentOf, etaOf.
  match goal with
  | |- context [if ?c then _ else _] =>
      assert (Hdue : c = true <->
                     force = true
                     \/ (500 <= Date_now w (clockReads s) - lastUpdate s)%Z
                     \/ JS.gt
                          (JS.Math_floor
                             (JS.of_N (completedTasks s) / JS.of_N totalTasks
                              * 100)%float)
                          (lastProgress s) = true)
        by (rewrite !orb_true_iff, Z.leb_le; tauto);
      destruct c
  end; cbn [snd stdout lastUpdate lastProgress completedTasks results].
  - split; [|split; [|split; reflexivity]].
    + intros _. eexists. split; [reflexivity|].
      split; [reflexivity|]. split; [reflexivity|].
      split; [|split].
      * intros ->. reflexivity.
      * intros H. apply N.ltb_lt in H. now rewrite H.
      * intros H. apply N.ltb_lt in H. rewrite H. cbv zeta.
        unfold formatEta, JS.lt.
        split; [|split].
        -- intros ->. reflexivity.
        -- intros -> ->. reflexivity.
        -- intros -> ->. reflexivity.
    + intros Hn. exfalso. apply Hn, Hdue. reflexivity.
  - split; [|split; [|split; reflexivity]].
    + intros H. apply Hdue in H. discriminate.
    + intros _. repeat split.
Qed.

(** The integer percentage is computed on floating-point numbers: 29 of
    100 tasks are shown as 28 %. *)
Example percent_29_of_100 : percentOf 29 100 = 28%float.
Proof. vm_compute. reflexivity. Qed.

Lemma progress_line_throttle_witness :
  stdout (snd (updateProgress Demo.world 1000 8 false ""
                 (mkState [] 2 1000 12%float 3 [] [] [])))
  = [ProgressLine 2 8 25%float (EtaSeconds 1%float) ""]
  /\ stdout (snd (updateProgress Demo.world 1000 8 false ""
                    (mkState [] 2 1250 25%float 3 [] [] [])))
     = []
  /\ stdout (snd (updateProgress Demo.world 900 201 true ""
                    (mkState [] 1 1000 0%float 9 [] [] [])))
     = [ProgressLine 1 201 0%float (EtaMinutes 4%float) ""]
  /\ stdout (snd (updateProgress Demo.world 900 7201 true ""
                    (mkState [] 1 1000 0%float 9 [] [] [])))
     = [ProgressLine 1 7201 0%float (EtaHours 2%float) ""]
  /\ stdout (snd (updateProgress Demo.world 1000 8 true ""
                    (mkState [] 0 1000 0%float 9 [] [] [])))
     = [ProgressLine 0 8 0%float EtaComputing ""].
Proof.
  split; [|split; [|split; [|split]]].
  - destruct (progress_line_throttle Demo.world 1000 8 false ""
                (mkState [] 2 1000 12%float 3 [] [] []))
      as (H & _).
    destruct H as (eta & E & _ & _ & _ & _ & He).
    + right; right. vm_compute. reflexivity.
    + destruct He as (He & _); [reflexivity|].
      rewrite E, He by (vm_compute; reflexivity). vm_compute. reflexivity.
  - destruct (progress_line_throttle Demo.world 1000 8 false ""
                (mkState [] 2 1250 25%float 3 [] [] []))
      as (_ & H & _).
    destruct H as (E & _); [|exact E].
    intros [H|[H|H]]; [discriminate | vm_compute in H; now apply H |].
    vm_compute in H. discriminate.
  - destruct (progress_line_throttle Demo.world 900 201 true ""
                (mkState [] 1 1000 0%float 9 [] [] []))
      as (H & _).
    destruct H as (eta & E & _ & _ & _ & _ & He); [now left|].
    destruct He as (_ & He & _); [reflexivity|].
    rewrite E, He by (vm_compute; reflexivity). vm_compute. reflexivity.
  - destruct (progress_line_throttle Demo.world 900 7201 true ""
                (mkState [] 1 1000 0%float 9 [] [] []))
      as (H & _).
    destruct H as (eta & E & _ & _ & _ & _ & He); [now left|].
    destruct He as (_ & _ & He); [reflexivity|].
    rewrite E, He by (vm_compute; reflexivity). vm_compute. reflexivity.
  - destruct (progress_line_throttle Demo.world 1000 8 true ""
                (mkState [] 0 1000 0%float 9 [] [] []))
      as (H & _).
    destruct H as (eta & E & _ & _ & He & _); [now left|].
    rewrite E, He by reflexivity. vm_compute. reflexivity.
Defined.

(** ** Records per work item *)

(** The (wallet, token, spender) triple of a record. *)
Definition triple (r : ApprovalRecord) : Address * Address * Address :=
  (walletAddress r, tokenAddress r, spenderAddress r).

(** The records that basic mode leaves for one enumerated item. *)
Definition basicRecords (w : World) (tokenInfo : TokenEntry)
    (address spender : Address) : list ApprovalRecord :=
  match allowanceOf w (tk_address tokenInfo) address spender with
  | Returns a =>
      match recordFor w tokenInfo address spender a with
      | Returns r => [r]
      | Fails _ => []
      end
  | Fails _ => []
  end.

(** The records that advanced mode leaves for one discovered spender. *)
Definition advancedRecords (w : World) (tokenInfo : TokenEntry)
    (address spender : Address) : list ApprovalRecord :=
  match allowanceOf w (tk_address tokenInfo) address spender with
  | Returns a =>
      if (a =? 0)%N then []
      else
        match recordFor w tokenInfo address spender a with
        | Returns r => [r]
        | Fails _ => []
        end
  | Fails _ => []
  end.

(** The records of a basic run, item by item in the order of the loops. *)
Definition basicEnumeration (w : World) (addresses : list Address)
    (tokens : list TokenEntry) (spenders : list Address)
  : list ApprovalRecord :=
  flat_map
    (fun address =>
       flat_map
         (fun tokenInfo => flat_map (basicRecords w tokenInfo address) spenders)
         tokens)
    addresses.

(** The records of an advanced run over the blocks from [startBlock] to
    [currentBlock]. *)
Definition advancedEnumeration (w : World) (startBlock currentBlock : Z)
    (addresses : list Address) (tokens : list TokenEntry)
  : list ApprovalRecord :=
  flat_map
    (fun tokenInfo =>
       flat_map
         (fun address =>
            match queryFilter w (tk_address tokenInfo) address startBlock
                    currentBlock with
            | Returns events =>
                flat_map (advancedRecords w tokenInfo address)
                  (discovered events)
            | Fails _ => []
            end)
         addresses)
    tokens.

Lemma itemOutcome_basicRecords w tokenInfo address spender :
  s_records
    (itemOutcome w address (tk_address tokenInfo)
       (fst (fst (tokenView w tokenInfo))) (snd (fst (tokenView w tokenInfo)))
       (snd (tokenView w tokenInfo))
       (balanceView w (tk_address tokenInfo) address) spender)
  = basicRecords w tokenInfo address spender.
Proof.
  unfold itemOutcome, basicRecords, recordFor.
  destruct (allowanceOf w (tk_address tokenInfo) address spender) as [a|e];
    [|reflexivity].
  now destruct (approvalRecord _ _ _ _ _ _ _ _ _).
Qed.

Lemma spenderOutcome_advancedRecords w tokenInfo address spender :
  s_records
    (spenderOutcome w address (tk_address tokenInfo)
       (fst (fst (tokenView w tokenInfo))) (snd (fst (tokenView w tokenInfo)))
       (snd (tokenView w tokenInfo))
       (balanceView w (tk_address tokenInfo) address) spender)
  = advancedRecords w tokenInfo address spender.
Proof.
  unfold spenderOutcome, advancedRecords, recordFor.
  destruct (allowanceOf w (tk_address tokenInfo) address spender) as [a|e];
    [|reflexivity].
  change "0" with (JS.toString 0). rewrite toString_eqb.
  destruct (a =? 0)%N; [reflexivity|].
  now destruct (approvalRecord _ _ _ _ _ _ _ _ _).
Qed.

Lemma runOutcome_enumeration w n addresses tokens spenders :
  s_records (runOutcome w n addresses tokens spenders)
  = basicEnumeration w addresses tokens spenders.
Proof.
  unfold runOutcome, basicEnumeration. rewrite gather_records.
  apply flat_map_ext; intros address.
  rewrite gather_records. apply flat_map_ext; intros tokenInfo.
  unfold pairOutcome. cbv zeta. cbn [both s_records app].
  rewrite gather_records. apply flat_map_ext; intros spender.
  cbn [counted s_records]. apply itemOutcome_basicRecords.
Qed.

Lemma scanOutcome_enumeration w startBlock currentBlock addresses tokens :
  s_records (scanOutcome w startBlock currentBlock addresses tokens)
  = advancedEnumeration w startBlock currentBlock addresses tokens.
Proof.
  unfold scanOutcome, advancedEnumeration. rewrite gather_records.
  apply flat_map_ext; intros tokenInfo.
  unfold tokenOutcome. rewrite gather_records.
  apply flat_map_ext; intros address.
  unfold walletOutcome. cbv zeta. cbn [both counted s_records app].
  destruct (queryFilter w (tk_address tokenInfo) address startBlock
              currentBlock) as [events|e]; [|reflexivity].
  rewrite gather_records. apply flat_map_ext; intros spender.
  apply spenderOutcome_advancedRecords.
Qed.

Lemma recordFor_triple w tokenInfo address spender a r :
  recordFor w tokenInfo address spender a = Returns r ->
  triple r = (address, tk_address tokenInfo, spender).
Proof.
  intros H. apply approvalRecord_fields in H as (H1 & H2 & _ & H4 & _).
  unfold triple. now rewrite H1, H2, H4.
Qed.

Lemma basicRecords_triple w tokenInfo address spender r :
  In r (basicRecords w tokenInfo address spender) ->
  triple r = (address, tk_address tokenInfo, spender).
Proof.
  unfold basicRecords.
  destruct (allowanceOf w (tk_address tokenInfo) address spender) as [a|e];
    [|intros []].
  destruct (recordFor w tokenInfo address spender a) as [r'|e] eqn:Er;
    [|intros []].
  intros [<-|[]]. eapply recordFor_triple, Er.
Qed.

Lemma advancedRecords_triple w tokenInfo address spender r :
  In r (advancedRecords w tokenInfo address spender) ->
  triple r = (address, tk_address tokenInfo, spender).
Proof.
  unfold advancedRecords.
  destruct (allowanceOf w (tk_address tokenInfo) address spender) as [a|e];
    [|intros []].
  destruct (a =? 0)%N; [intros []|].
  destruct (recordFor w tokenInfo address spender a) as [r'|e] eqn:Er;
    [|intros []].
  intros [<-|[]]. eapply recordFor_triple, Er.
Qed.

Lemma basicRecords_length w tokenInfo address spender :
  length (basicRecords w tokenInfo address spender) <= 1.
Proof.
  unfold basicRecords.
  destruct (allowanceOf w (tk_address tokenInfo) address spender) as [a|e];
    [|simpl; lia].
  destruct (recordFor w tokenInfo address spender a); simpl; lia.
Qed.

Lemma advancedRecords_length w tokenInfo address spender :
  length (advancedRecords w tokenInfo address spender) <= 1.
Proof.
  unfold advancedRecords.
  destruct (allowanceOf w (tk_address tokenInfo) address spender) as [a|e];
    [|simpl; lia].
  destruct (a =? 0)%N; [simpl; lia|].
  destruct (recordFor w tokenInfo address spender a); simpl; lia.
Qed.

Lemma NoDup_short {A} (l : list A) : length l <= 1 -> List.NoDup l.
Proof.
  destruct l as [|x [|y l]]; simpl; intros H.
  - constructor.
  - constructor; [intros [] | constructor].
  - lia.
Qed.

(** Keys stay distinct along a loop whose rounds leave records with keys
    that tell the round. *)
Lemma NoDup_keys_flat_map {A B K P} (key : B -> K) (part : K -> P)
    (tag : A -> P) (f : A -> list B) (l : list A) :
  List.NoDup (map tag l) ->
  (forall x b, In x l -> In b (f x) -> part (key b) = tag x) ->
  (forall x, In x l -> List.NoDup (map key (f x))) ->
  List.NoDup (map key (flat_map f l)).
Proof.
  induction l as [|x l IH]; simpl; intros Hl Hp Hf; [constructor|].
  inversion Hl as [|? ? Hx Hl']; subst.
  rewrite map_app. apply List.NoDup_app.
  - apply Hf; now left.
  - apply IH; auto.
  - intros k Hk1 Hk2. apply in_map_iff in Hk1 as (b & <- & Hb).
    apply in_map_iff in Hk2 as (b' & E & Hb').
    apply in_flat_map in Hb' as (y & Hy & Hb').
    apply Hx. apply in_map_iff. exists y. split; [|assumption].
    rewrite <- (Hp y b') by auto. rewrite E. apply Hp; auto.
Qed.

Lemma basicEnumeration_NoDup w addresses tokens spenders :
  List.NoDup addresses ->
  List.NoDup (map tk_address tokens) ->
  List.NoDup spenders ->
  List.NoDup (map triple (basicEnumeration w addresses tokens spenders)).
Proof.
  intros Ha Ht Hs. unfold basicEnumeration.
  apply NoDup_keys_flat_map
    with (part := fun k => fst (fst k)) (tag := fun x : Address => x).
  - now rewrite map_id.
  - intros address r _ Hr.
    apply in_flat_map in Hr as (tokenInfo & _ & Hr).
    apply in_flat_map in Hr as (spender & _ & Hr).
    now rewrite (basicRecords_triple _ _ _ _ _ Hr).
  - intros address _.
    apply NoDup_keys_flat_map
      with (part := fun k => snd (fst k)) (tag := tk_address).
    + assumption.
    + intros tokenInfo r _ Hr.
      apply in_flat_map in Hr as (spender & _ & Hr).
      now rewrite (basicRecords_triple _ _ _ _ _ Hr).
    + intros tokenInfo _.
      apply NoDup_keys_flat_map
        with (part := fun k => snd k) (tag := fun x : Address => x).
      * now rewrite map_id.
      * intros spender r _ Hr.
        now rewrite (basicRecords_triple _ _ _ _ _ Hr).
      * intros spender _. apply NoDup_short.
        rewrite length_map. apply basicRecords_length.
Qed.

Lemma advancedEnumeration_NoDup w startBlock currentBlock addresses tokens :
  List.NoDup addresses ->
  List.NoDup (map tk_address tokens) ->
  List.NoDup
    (map triple
       (advancedEnumeration w startBlock currentBlock addresses tokens)).
Proof.
  intros Ha Ht. unfold advancedEnumeration.
  assert (Hin : forall tokenInfo address r,
             In r match queryFilter w (tk_address tokenInfo) address
                          startBlock currentBlock with
                  | Returns events =>
                      flat_map (advancedRecords w tokenInfo address)
                        (discovered events)
                  | Fails _ => []
                  end ->
             exists spender, triple r = (address, tk_address tokenInfo, spender)).
  { intros tokenInfo address r Hr.
    destruct (queryFilter w (tk_address tokenInfo) address startBlock
                currentBlock) as [events|e]; [|destruct Hr].
    apply in_flat_map in Hr as (spender & _ & Hr).
    exists spender. eapply advancedRecords_triple, Hr. }
  apply NoDup_keys_flat_map
    with (part := fun k => snd (fst k)) (tag := tk_address).
  - assumption.
  - intros tokenInfo r _ Hr.
    apply in_flat_map in Hr as (address & _ & Hr).
    apply Hin in Hr as (spender & ->). reflexivity.
  - intros tokenInfo _.
    apply NoDup_keys_flat_map
      with (part := fun k => fst (fst k)) (tag := fun x : Address => x).
    + now rewrite map_id.
    + intros address r _ Hr. apply Hin in Hr as (spender & ->). reflexivity.
    + intros address _.
      destruct (queryFilter w (tk_address tokenInfo) address startBlock
                  currentBlock) as [events|e]; [|constructor].
      apply NoDup_keys_flat_map
        with (part := fun k => snd k) (tag := fun x : Address => x).
      * rewrite map_id. apply discoveredFrom_NoDup.
      * intros spender r _ Hr.
        now rewrite (advancedRecords_triple _ _ _ _ _ Hr).
      * intros spender _. apply NoDup_short.
        rewrite length_map. apply advancedRecords_length.
Qed.

Lemma flat_map_nothing {A B} (l : list A) :
  flat_map (fun _ : A => @nil B) l = [].
Proof. induction l; simpl; auto. Qed.

Lemma Basic_results w addresses tokens spenders s :
  resultsOf (Basic.checkApprovals w addresses tokens spenders) s
  = basicEnumeration w addresses tokens spenders.
Proof.
  unfold resultsOf. destruct spenders as [|sp spenders].
  - rewrite Basic_no_spenders. unfold basicEnumeration. simpl.
    symmetry. erewrite flat_map_ext; [apply flat_map_nothing|].
    intros address. apply flat_map_nothing.
  - destruct (Basic_checkApprovals_finishes w addresses tokens
                (sp :: spenders) ltac:(discriminate) s) as (s' & E & R & _).
    rewrite E. simpl. rewrite R. apply runOutcome_enumeration.
Qed.

Lemma Advanced_results w addresses tokens lookbackBlocks block s :
  getBlockNumber w = Returns block ->
  resultsOf (Advanced.findAndCheckApprovals w addresses tokens lookbackBlocks)
    s
  = advancedEnumeration w (Z.max 0 (block - lookbackBlocks)) block addresses
      tokens.
Proof.
  intros Hb. unfold resultsOf.
  destruct (findAndCheckApprovals_finishes w addresses tokens lookbackBlocks
              block Hb s) as (s' & E & R & _).
  rewrite E. simpl. rewrite R. apply scanOutcome_enumeration.
Qed.

(** C3, as the code has it: the records of a run are those of its work
    items (the order depends on the order in which the tasks of a batch
    complete).  In basic mode an enumerated
    (wallet, token, spender) item leaves one record when its allowance is
    read and the record is formed, also for a zero allowance, and none when
    the allowance call fails.  In advanced mode a spender discovered for an
    enumerated (token, wallet) pair leaves one record when its allowance is
    read as non-zero and the record is formed, and none when it is zero.
    The record of such an item is among the results, and when the input
    lists have no duplicates no two records of a run share their triple,
    so it is there exactly once.  The record is formed when
    [formatUnits] renders the amounts at the decimals of the token; when
    it throws, or when the allowance call fails, the item leaves no
    record in either mode. *)
Theorem records_follow_work_items :
  (forall w addresses tokens spenders s,
      Permutation
        (resultsOf (Basic.checkApprovals w addresses tokens spenders) s)
        (basicEnumeration w addresses tokens spenders))
  /\ (forall w tokenInfo address spender a r,
         allowanceOf w (tk_address tokenInfo) address spender = Returns a ->
         recordFor w tokenInfo address spender a = Returns r ->
         basicRecords w tokenInfo address spender = [r])
  /\ (forall w tokenInfo address spender e,
         allowanceOf w (tk_address tokenInfo) address spender = Fails e ->
         basicRecords w tokenInfo address spender = [])
  /\ (forall w addresses tokens lookbackBlocks block s,
         getBlockNumber w = Returns block ->
         Permutation
           (resultsOf
              (Advanced.findAndCheckApprovals w addresses tokens
                 lookbackBlocks) s)
           (advancedEnumeration w (Z.max 0 (block - lookbackBlocks)) block
              addresses tokens))
  /\ (forall w tokenInfo address spender,
         allowanceOf w (tk_address tokenInfo) address spender = Returns 0%N ->
         advancedRecords w tokenInfo address spender = [])
  /\ (forall w tokenInfo address spender a r,
         allowanceOf w (tk_address tokenInfo) address spender = Returns a ->
         a <> 0%N ->
         recordFor w tokenInfo address spender a = Returns r ->
         advancedRecords w tokenInfo address spender = [r])
  /\ (forall w addresses tokens spenders s,
         List.NoDup addresses ->
         List.NoDup (map tk_address tokens) ->
         List.NoDup spenders ->
         List.NoDup
           (map triple
              (resultsOf (Basic.checkApprovals w addresses tokens spenders) s)))
  /\ (forall w addresses tokens lookbackBlocks s,
         List.NoDup addresses ->
         List.NoDup (map tk_address tokens) ->
         List.NoDup
           (map triple
              (resultsOf
                 (Advanced.findAndCheckApprovals w addresses tokens
                    lookbackBlocks) s)))
  /\ (forall w addresses tokens spenders s address tokenInfo spender a r,
         In address addresses -> In tokenInfo tokens -> In spender spenders ->
         allowanceOf w (tk_address tokenInfo) address spender = Returns a ->
         recordFor w tokenInfo address spender a = Returns r ->
         In r (resultsOf (Basic.checkApprovals w addresses tokens spenders) s))
  /\ (forall w addresses tokens lookbackBlocks block s tokenInfo address
        events spender a r,
         getBlockNumber w = Returns block ->
         In tokenInfo tokens -> In address addresses ->
         queryFilter w (tk_address tokenInfo) address
           (Z.max 0 (block - lookbackBlocks)) block = Returns events ->
         In spender events ->
         allowanceOf w (tk_address tokenInfo) address spender = Returns a ->
         a <> 0%N ->
         recordFor w tokenInfo address spender a = Returns r ->
         In r (resultsOf
                 (Advanced.findAndCheckApprovals w addresses tokens
                    lookbackBlocks) s))
  /\ (forall w tokenInfo address spender a e,
         allowanceOf w (tk_address tokenInfo) address spender = Returns a ->
         recordFor w tokenInfo address spender a = Fails e ->
         basicRecords w tokenInfo address spender = []
         /\ advancedRecords w tokenInfo address spender = [])
  /\ (forall w tokenInfo address spender a,
         (forall v,
             exists text,
               formatUnits w v (snd (fst (tokenView w tokenInfo)))
               = Returns text) ->
         exists r, recordFor w tokenInfo address spender a = Returns r)
  /\ (forall w tokenInfo address spender a e,
         recordFor w tokenInfo address spender a = Fails e ->
         exists v,
           formatUnits w v (snd (fst (tokenView w tokenInfo))) = Fails e)
  /\ (forall w tokenInfo address spender e,
         allowanceOf w (tk_address tokenInfo) address spender = Fails e ->
         advancedRecords w tokenInfo address spender = []).
Proof.
  split; [intros; now rewrite Basic_results|].
  split.
  { intros w tokenInfo address spender a r Ha Hr.
    unfold basicRecords. now rewrite Ha, Hr. }
  split.
  { intros w tokenInfo address spender e Ha.
    unfold basicRecords. now rewrite Ha. }
  split.
  { intros w addresses tokens lookbackBlocks block s Hb.
    now rewrite (Advanced_results _ _ _ _ _ _ Hb). }
  split.
  { intros w tokenInfo address spender Ha.
    unfold advancedRecords. now rewrite Ha. }
  split.
  { intros w tokenInfo address spender a r Ha Hz Hr.
    unfold advancedRecords. rewrite Ha, Hr.
    now destruct (N.eqb_spec a 0). }
  split.
  { intros w addresses tokens spenders s Ha Ht Hs.
    rewrite Basic_results. now apply basicEnumeration_NoDup. }
  split.
  { intros w addresses tokens lookbackBlocks s Ha Ht.
    destruct (getBlockNumber w) as [block|e] eqn:Eb.
    - rewrite (Advanced_results _ _ _ _ _ _ Eb).
      now apply advancedEnumeration_NoDup.
    - unfold resultsOf. rewrite (Advanced_no_block _ _ _ _ _ _ Eb).
      constructor. }
  split.
  { intros w addresses tokens spenders s address tokenInfo spender a r
      Ha Ht Hs Hal Hr.
    rewrite Basic_results. unfold basicEnumeration.
    apply in_flat_map. exists address. split; [assumption|].
    apply in_flat_map. exists tokenInfo. split; [assumption|].
    apply in_flat_map. exists spender. split; [assumption|].
    unfold basicRecords. rewrite Hal, Hr. now left. }
  split.
  { intros w addresses tokens lookbackBlocks block s tokenInfo address events
      spender a r Hb Ht Ha Hq Hs Hal Hz Hr.
    rewrite (Advanced_results _ _ _ _ _ _ Hb). unfold advancedEnumeration.
    apply in_flat_map. exists tokenInfo. split; [assumption|].
    apply in_flat_map. exists address. split; [assumption|].
    rewrite Hq. apply in_flat_map. exists spender. split.
    - apply discoveredFrom_In. split; [assumption | set_solver].
    - unfold advancedRecords. rewrite Hal, Hr.
      destruct (N.eqb_spec a 0); [contradiction | now left]. }
  split.
  { intros w tokenInfo address spender a e Hal Hr.
    unfold basicRecords, advancedRecords. rewrite Hal, Hr.
    split; [reflexivity | now destruct (a =? 0)%N]. }
  split.
  { intros w tokenInfo address spender a Hf.
    unfold recordFor, approvalRecord.
    set (dec := snd (fst (tokenView w tokenInfo))) in *.
    destruct (String.eqb (JS.toString a) (JS.toString MaxUint256)).
    - destruct (Hf (balanceView w (tk_address tokenInfo) address))
        as (text & ->).
      eexists; reflexivity.
    - destruct (Hf a) as (text & ->).
      destruct (Hf (if (balanceView w (tk_address tokenInfo) address <? a)%N
                    then balanceView w (tk_address tokenInfo) address
                    else a)) as (text' & ->).
      destruct (Hf (balanceView w (tk_address tokenInfo) address))
        as (text'' & ->).
      eexists; reflexivity. }
  split.
  { intros w tokenInfo address spender a e.
    unfold recordFor, approvalRecord.
    set (dec := snd (fst (tokenView w tokenInfo))).
    set (bal := balanceView w (tk_address tokenInfo) address).
    destruct (String.eqb (JS.toString a) (JS.toString MaxUint256)).
    - destruct (formatUnits w bal dec) as [text|e'] eqn:E; [discriminate|].
      intros [= <-]. now exists bal.
    - destruct (formatUnits w a dec) as [text|e'] eqn:E;
        [|intros [= <-]; now exists a].
      destruct (formatUnits w (if (bal <? a)%N then bal else a) dec)
        as [text'|e'] eqn:E';
        [|intros [= <-]; now exists (if (bal <? a)%N then bal else a)].
      destruct (formatUnits w bal dec) as [text''|e'] eqn:E'';
        [discriminate|].
      intros [= <-]. now exists bal. }
  intros w tokenInfo address spender e Hal.
  unfold advancedRecords. now rewrite Hal.
Qed.

Lemma records_follow_work_items_witness :
  List.NoDup
    (map triple
       (resultsOf
          (Basic.checkApprovals Demo.world Demo.wallets Demo.tokens
             Demo.spenders) initialState))
  /\ basicRecords Demo.world (mkToken "T1" None) "W1" "S4" = [Demo.limited]
  /\ allowanceOf Demo.manyDecimals "T1" "W1" "S4" = Returns 7%N
  /\ recordFor Demo.manyDecimals (mkToken "T1" None) "W1" "S4" 7
     = Fails "invalid decimals"
  /\ advancedRecords Demo.manyDecimals (mkToken "T1" None) "W1" "S4" = [].
Proof.
  destruct records_follow_work_items
    as (_ & Hone & _ & _ & _ & _ & Hnodup & _ & _ & _ & Hfail & _).
  split; [|split; [|split; [|split]]].
  - apply Hnodup.
    + repeat constructor; simpl; intuition discriminate.
    + repeat constructor; simpl; intuition discriminate.
    + repeat constructor; simpl; intuition discriminate.
  - apply (Hone Demo.world (mkToken "T1" None) "W1" "S4" 7%N);
      vm_compute; reflexivity.
  - reflexivity.
  - vm_compute. reflexivity.
  - apply (Hfail Demo.manyDecimals (mkToken "T1" None) "W1" "S4" 7%N
             "invalid decimals"); vm_compute; reflexivity.
Defined.

(** The claim fails as stated: a wallet that is listed twice gets two
    records for one triple, and an enumerated triple whose allowance call
    fails gets no record in basic mode. *)
Lemma record_per_triple_counterexample :
  map triple
    (resultsOf
       (Basic.checkApprovals Demo.world ["W1"; "W1"] [mkToken "T1" None]
          ["S4"]) initialState)
  = [("W1", "T1", "S4"); ("W1", "T1", "S4")]
  /\ In "S3" Demo.spenders
  /\ allowanceOf Demo.world "T1" "W1" "S3" = Fails "no allowance"
  /\ forall r,
      In r (resultsOf
              (Basic.checkApprovals Demo.world ["W1"] [mkToken "T1" None]
                 Demo.spenders) initialState) ->
      spenderAddress r <> "S3".
Proof.
  split; [vm_compute; reflexivity|].
  split; [simpl; tauto|].
  split; [reflexivity|].
  intros r Hr. vm_compute in Hr.
  destruct Hr as [<-|[<-|[<-|[]]]]; discriminate.
Qed.

(** ** Failed calls *)

Lemma gather_warnings_In {A} (f : A -> Summary) l x e :
  In x l -> In e (s_warnings (f x)) -> In e (s_warnings (gather f l)).
Proof.
  intros Hx He. rewrite gather_warnings. apply in_flat_map. eauto.
Qed.

Lemma basicRecords_In w tokenInfo address spender r :
  In r (basicRecords w tokenInfo address spender) ->
  exists a,
    allowanceOf w (tk_address tokenInfo) address spender = Returns a
    /\ recordFor w tokenInfo address spender a = Returns r.
Proof.
  unfold basicRecords.
  destruct (allowanceOf w (tk_address tokenInfo) address spender) as [a|e];
    [|intros []].
  destruct (recordFor w tokenInfo address spender a) as [r'|e] eqn:Er;
    [|intros []].
  intros [<-|[]]. eauto.
Qed.

Lemma advancedRecords_In w tokenInfo address spender r :
  In r (advancedRecords w tokenInfo address spender) ->
  exists a,
    allowanceOf w (tk_address tokenInfo) address spender = Returns a
    /\ a <> 0%N
    /\ recordFor w tokenInfo address spender a = Returns r.
Proof.
  unfold advancedRecords.
  destruct (allowanceOf w (tk_address tokenInfo) address spender) as [a|e];
    [|intros []].
  destruct (N.eqb_spec a 0); [intros []|].
  destruct (recordFor w tokenInfo address spender a) as [r'|e] eqn:Er;
    [|intros []].
  intros [<-|[]]. eauto.
Qed.

Lemma basicEnumeration_In w addresses tokens spenders r :
  In r (basicEnumeration w addresses tokens spenders) ->
  exists address tokenInfo spender a,
    In address addresses /\ In tokenInfo tokens /\ In spender spenders
    /\ allowanceOf w (tk_address tokenInfo) address spender = Returns a
    /\ recordFor w tokenInfo address spender a = Returns r.
Proof.
  unfold basicEnumeration. intros H.
  apply in_flat_map in H as (address & Ha & H).
  apply in_flat_map in H as (tokenInfo & Ht & H).
  apply in_flat_map in H as (spender & Hs & H).
  apply basicRecords_In in H as (a & H1 & H2).
  exists address, tokenInfo, spender, a. auto.
Qed.

Lemma advancedEnumeration_In w startBlock currentBlock addresses tokens r :
  In r (advancedEnumeration w startBlock currentBlock addresses tokens) ->
  exists tokenInfo address events spender a,
    In tokenInfo tokens /\ In address addresses
    /\ queryFilter w (tk_address tokenInfo) address startBlock currentBlock
       = Returns events
    /\ In spender events
    /\ allowanceOf w (tk_address tokenInfo) address spender = Returns a
    /\ a <> 0%N
    /\ recordFor w tokenInfo address spender a = Returns r.
Proof.
  unfold advancedEnumeration. intros H.
  apply in_flat_map in H as (tokenInfo & Ht & H).
  apply in_flat_map in H as (address & Ha & H).
  destruct (queryFilter w (tk_address tokenInfo) address startBlock
              currentBlock) as [events|e] eqn:Eq; [|destruct H].
  apply in_flat_map in H as (spender & Hs & H).
  apply discoveredFrom_In in Hs as (Hs & _).
  apply advancedRecords_In in H as (a & H1 & H2 & H3).
  exists tokenInfo, address, events, spender, a. auto 10.
Qed.

Lemma exposedRaw_zero_balance a : exposedRaw a 0 = 0%N.
Proof.
  unfold exposedRaw. destruct (a =? MaxUint256)%N; [reflexivity|].
  destruct (N.ltb_spec 0 a); [reflexivity | lia].
Qed.

(** A record made after the balance call failed shows a zero balance and
    a zero exposed amount. *)
Lemma recordFor_failed_balance w tokenInfo address spender a r e :
  balanceOf w (tk_address tokenInfo) address = Fails e ->
  recordFor w tokenInfo address spender a = Returns r ->
  rawBalance r = "0" /\ rawExposedAmount r = "0".
Proof.
  unfold recordFor, balanceView. intros -> Hr.
  apply approvalRecord_fields in Hr
    as (_ & _ & _ & _ & _ & Hb & _ & He & _).
  rewrite Hb, He, exposedRaw_zero_balance. split; reflexivity.
Qed.

(** No record of [rs] has the triple. *)
Definition noRecordOf (rs : list ApprovalRecord)
    (address token spender : Address) : Prop :=
  forall r, In r rs -> triple r <> (address, token, spender).

(** What a run does about the failed calls of a basic run. *)
Definition basicFailuresHandled (w : World) (addresses : list Address)
    (tokens : list TokenEntry) (spenders : list Address) (s' : State)
  : Prop :=
  (forall address tokenInfo spender e,
      In address addresses -> In tokenInfo tokens -> In spender spenders ->
      allowanceOf w (tk_address tokenInfo) address spender = Fails e ->
      In (itemWarning address (tk_address tokenInfo) spender e) (logs s')
      /\ noRecordOf (results s') address (tk_address tokenInfo) spender)
  /\ (forall address tokenInfo e,
         In address addresses -> In tokenInfo tokens ->
         balanceOf w (tk_address tokenInfo) address = Fails e ->
         In (balanceWarning address (fst (fst (tokenView w tokenInfo))) e)
           (logs s')
         /\ forall r,
             In r (results s') ->
             walletAddress r = address ->
             tokenAddress r = tk_address tokenInfo ->
             rawBalance r = "0" /\ rawExposedAmount r = "0").

(** What a run does about the failed calls of an advanced run over the
    blocks from [startBlock] to [currentBlock]. *)
Definition advancedFailuresHandled (w : World) (startBlock currentBlock : Z)
    (addresses : list Address) (tokens : list TokenEntry) (s' : State)
  : Prop :=
  (forall tokenInfo address e,
      In tokenInfo tokens -> In address addresses ->
      queryFilter w (tk_address tokenInfo) address startBlock currentBlock
      = Fails e ->
      In (eventsWarning address e) (logs s')
      /\ forall r,
          In r (results s') ->
          ~ (walletAddress r = address
             /\ tokenAddress r = tk_address tokenInfo))
  /\ (forall tokenInfo address events spender e,
         In tokenInfo tokens -> In address addresses ->
         queryFilter w (tk_address tokenInfo) address startBlock currentBlock
         = Returns events ->
         In spender events ->
         allowanceOf w (tk_address tokenInfo) address spender = Fails e ->
         In (spenderWarning address spender e) (logs s')
         /\ noRecordOf (results s') address (tk_address tokenInfo) spender)
  /\ (forall tokenInfo address e,
         In tokenInfo tokens -> In address addresses ->
         balanceOf w (tk_address tokenInfo) address = Fails e ->
         In (balanceWarning address (fst (fst (tokenView w tokenInfo))) e)
           (logs s')
         /\ forall r,
             In r (results s') ->
             walletAddress r = address ->
             tokenAddress r = tk_address tokenInfo ->
             rawBalance r = "0" /\ rawExposedAmount r = "0").

Lemma runOutcome_item_warning w n addresses tokens spenders address tokenInfo
    spender e :
  In address addresses -> In tokenInfo tokens -> In spender spenders ->
  allowanceOf w (tk_address tokenInfo) address spender = Fails e ->
  In (itemWarning address (tk_address tokenInfo) spender e)
    (s_warnings (runOutcome w n addresses tokens spenders)).
Proof.
  intros Ha Ht Hs He. unfold runOutcome.
  apply gather_warnings_In with (x := address); [assumption|].
  apply gather_warnings_In with (x := tokenInfo); [assumption|].
  unfold pairOutcome. cbv zeta. cbn [both s_warnings].
  apply in_or_app; right.
  apply gather_warnings_In with (x := spender); [assumption|].
  cbn [counted s_warnings]. unfold itemOutcome. rewrite He. now left.
Qed.

Lemma balanceWarnings_failed w token address sym dec e :
  balanceOf w token address = Fails e ->
  In (balanceWarning address sym e) (balanceWarnings w token address sym dec).
Proof. unfold balanceWarnings. intros ->. now left. Qed.

Lemma runOutcome_balance_warning w n addresses tokens spenders address
    tokenInfo e :
  In address addresses -> In tokenInfo tokens ->
  balanceOf w (tk_address tokenInfo) address = Fails e ->
  In (balanceWarning address (fst (fst (tokenView w tokenInfo))) e)
    (s_warnings (runOutcome w n addresses tokens spenders)).
Proof.
  intros Ha Ht He. unfold runOutcome.
  apply gather_warnings_In with (x := address); [assumption|].
  apply gather_warnings_In with (x := tokenInfo); [assumption|].
  unfold pairOutcome. cbv zeta. cbn [both s_warnings].
  apply in_or_app; left. now apply balanceWarnings_failed.
Qed.

Lemma scanOutcome_wallet_warning w startBlock currentBlock addresses tokens
    tokenInfo address x :
  In tokenInfo tokens -> In address addresses ->
  In x (s_warnings
          (walletOutcome w startBlock currentBlock (tk_address tokenInfo)
             (fst (fst (tokenView w tokenInfo)))
             (snd (fst (tokenView w tokenInfo))) (snd (tokenView w tokenInfo))
             address)) ->
  In x (s_warnings (scanOutcome w startBlock currentBlock addresses tokens)).
Proof.
  intros Ht Ha Hx. unfold scanOutcome.
  apply gather_warnings_In with (x := tokenInfo); [assumption|].
  unfold tokenOutcome.
  now apply gather_warnings_In with (x := address).
Qed.

Lemma basic_failures w addresses tokens spenders s' :
  results s' = basicEnumeration w addresses tokens spenders ->
  incl (s_warnings (runOutcome w 1 addresses tokens spenders)) (logs s') ->
  basicFailuresHandled w addresses tokens spenders s'.
Proof.
  intros R Wn. split.
  - intros address tokenInfo spender e Ha Ht Hs He. split.
    + apply Wn. now apply runOutcome_item_warning.
    + intros r Hr Etr. rewrite R in Hr.
      apply basicEnumeration_In in Hr
        as (address' & tokenInfo' & spender' & a & _ & _ & _ & Hal & Hrec).
      apply recordFor_triple in Hrec. rewrite Hrec in Etr.
      injection Etr as -> Et ->. rewrite Et in Hal. congruence.
  - intros address tokenInfo e Ha Ht He. split.
    + apply Wn. now apply runOutcome_balance_warning.
    + intros r Hr Ew Et. rewrite R in Hr.
      apply basicEnumeration_In in Hr
        as (address' & tokenInfo' & spender' & a & _ & _ & _ & Hal & Hrec).
      pose proof (recordFor_triple _ _ _ _ _ _ Hrec) as Etr.
      unfold triple in Etr. injection Etr as E1 E2 _.
      rewrite Ew in E1. rewrite Et in E2. subst address'.
      rewrite E2 in He.
      eapply recordFor_failed_balance; eassumption.
Qed.

Lemma advanced_failures w startBlock currentBlock addresses tokens s' :
  results s' = advancedEnumeration w startBlock currentBlock addresses tokens ->
  incl (s_warnings (scanOutcome w startBlock currentBlock addresses tokens))
    (logs s') ->
  advancedFailuresHandled w startBlock currentBlock addresses tokens s'.
Proof.
  intros R Wn. split; [|split].
  - intros tokenInfo address e Ht Ha He. split.
    + apply Wn.
      apply scanOutcome_wallet_warning with tokenInfo address; auto.
      unfold walletOutcome. cbv zeta. cbn [both counted s_warnings].
      rewrite He. apply in_or_app; right. now left.
    + intros r Hr (Ew & Et). rewrite R in Hr.
      apply advancedEnumeration_In in Hr
        as (tokenInfo' & address' & events & spender & a & _ & _ & Hq & _ & _
            & _ & Hrec).
      pose proof (recordFor_triple _ _ _ _ _ _ Hrec) as Etr.
      unfold triple in Etr. injection Etr as E1 E2 _.
      rewrite Ew in E1. rewrite Et in E2. subst address'.
      rewrite <- E2 in Hq. congruence.
  - intros tokenInfo address events spender e Ht Ha Hq Hs He. split.
    + apply Wn.
      apply scanOutcome_wallet_warning with tokenInfo address; auto.
      unfold walletOutcome. cbv zeta. cbn [both counted s_warnings].
      rewrite Hq. apply in_or_app; right.
      apply gather_warnings_In with (x := spender).
      * apply discoveredFrom_In. split; [assumption | set_solver].
      * unfold spenderOutcome. rewrite He. now left.
    + intros r Hr Etr. rewrite R in Hr.
      apply advancedEnumeration_In in Hr
        as (tokenInfo' & address' & events' & spender' & a & _ & _ & _ & _
            & Hal & _ & Hrec).
      apply recordFor_triple in Hrec. rewrite Hrec in Etr.
      injection Etr as -> Et ->. rewrite Et in Hal. congruence.
  - intros tokenInfo address e Ht Ha He. split.
    + apply Wn.
      apply scanOutcome_wallet_warning with tokenInfo address; auto.
      unfold walletOutcome. cbv zeta. cbn [both counted s_warnings].
      apply in_or_app; left. now apply balanceWarnings_failed.
    + intros r Hr Ew Et. rewrite R in Hr.
      apply advancedEnumeration_In in Hr
        as (tokenInfo' & address' & events & spender & a & _ & _ & _ & _ & _
            & _ & Hrec).
      pose proof (recordFor_triple _ _ _ _ _ _ Hrec) as Etr.
      unfold triple in Etr. injection Etr as E1 E2 _.
      rewrite Ew in E1. rewrite Et in E2. subst address'.
      rewrite E2 in He.
      eapply recordFor_failed_balance; eassumption.
Qed.

(** C6, as the code has it: a run ends normally with every task counted,
    whatever calls failed.  For an item whose allowance call fails the
    failure is logged as a warning and no record is made; in advanced mode
    the same holds of a (token, wallet) pair whose event query fails.  A
    failed balance call is logged as a warning too, but the item is not
    skipped: its records are made with a zero balance and a zero exposed
    amount, one for each spender of the pair whose allowance is read
    (and, in advanced mode, is not zero) and whose record is formed. *)
Theorem failed_calls_are_logged_and_counted :
  (forall w addresses tokens spenders s,
      spenders <> [] ->
      exists s',
        Basic.checkApprovals w addresses tokens spenders s
        = (Normal (results s'), s')
        /\ completedTasks s'
           = N.of_nat (length addresses * length tokens * length spenders)
        /\ basicFailuresHandled w addresses tokens spenders s')
  /\ (forall w addresses tokens lookbackBlocks block s,
         getBlockNumber w = Returns block ->
         exists s',
           Advanced.findAndCheckApprovals w addresses tokens lookbackBlocks s
           = (Normal (results s'), s')
           /\ completedTasks s' = N.of_nat (length tokens * length addresses)
           /\ advancedFailuresHandled w (Z.max 0 (block - lookbackBlocks))
                block addresses tokens s')
  /\ (forall w addresses tokens spenders s address tokenInfo spender e a r,
         In address addresses -> In tokenInfo tokens -> In spender spenders ->
         balanceOf w (tk_address tokenInfo) address = Fails e ->
         allowanceOf w (tk_address tokenInfo) address spender = Returns a ->
         recordFor w tokenInfo address spender a = Returns r ->
         In r (resultsOf (Basic.checkApprovals w addresses tokens spenders) s)
         /\ rawBalance r = "0" /\ rawExposedAmount r = "0")
  /\ (forall w addresses tokens lookbackBlocks block s tokenInfo address
        events spender e a r,
         getBlockNumber w = Returns block ->
         In tokenInfo tokens -> In address addresses ->
         queryFilter w (tk_address tokenInfo) address
           (Z.max 0 (block - lookbackBlocks)) block = Returns events ->
         In spender events ->
         balanceOf w (tk_address tokenInfo) address = Fails e ->
         allowanceOf w (tk_address tokenInfo) address spender = Returns a ->
         a <> 0%N ->
         recordFor w tokenInfo address spender a = Returns r ->
         In r (resultsOf
                 (Advanced.findAndCheckApprovals w addresses tokens
                    lookbackBlocks) s)
         /\ rawBalance r = "0" /\ rawExposedAmount r = "0").
Proof.
  split; [|split; [|split]].
  - intros w addresses tokens spenders s Hs.
    destruct (Basic_checkApprovals_finishes w addresses tokens spenders Hs s)
      as (s' & E & R & D & Wn).
    exists s'. rewrite E, D, runOutcome_done.
    split; [now rewrite R|]. split; [reflexivity|].
    apply basic_failures; [|assumption].
    rewrite R. apply runOutcome_enumeration.
  - intros w addresses tokens lookbackBlocks block s Hb.
    destruct (findAndCheckApprovals_finishes w addresses tokens
                lookbackBlocks block Hb s) as (s' & E & R & D & Wn).
    exists s'. rewrite E, D, scanOutcome_done.
    split; [now rewrite R|]. split; [reflexivity|].
    apply advanced_failures; [|assumption].
    rewrite R. apply scanOutcome_enumeration.
  - intros w addresses tokens spenders s address tokenInfo spender e a r
      Ha Ht Hs Hbal Hal Hr.
    split; [|exact (recordFor_failed_balance _ _ _ _ _ _ _ Hbal Hr)].
    rewrite Basic_results. unfold basicEnumeration.
    apply in_flat_map. exists address. split; [assumption|].
    apply in_flat_map. exists tokenInfo. split; [assumption|].
    apply in_flat_map. exists spender. split; [assumption|].
    unfold basicRecords. rewrite Hal, Hr. now left.
  - intros w addresses tokens lookbackBlocks block s tokenInfo address events
      spender e a r Hb Ht Ha Hq Hs Hbal Hal Hz Hr.
    split; [|exact (recordFor_failed_balance _ _ _ _ _ _ _ Hbal Hr)].
    rewrite (Advanced_results _ _ _ _ _ _ Hb). unfold advancedEnumeration.
    apply in_flat_map. exists tokenInfo. split; [assumption|].
    apply in_flat_map. exists address. split; [assumption|].
    rewrite Hq. apply in_flat_map. exists spender. split.
    + apply discoveredFrom_In. split; [assumption | set_solver].
    + unfold advancedRecords. rewrite Hal, Hr.
      destruct (N.eqb_spec a 0); [contradiction | now left].
Qed.

Lemma failed_calls_are_logged_and_counted_witness :
  exists s',
    Basic.checkApprovals Demo.world Demo.wallets Demo.tokens Demo.spenders
      initialState = (Normal (results s'), s')
    /\ completedTasks s' = 24%N
    /\ In (itemWarning "W1" "T1" "S3" "no allowance") (logs s')
    /\ noRecordOf (results s') "W1" "T1" "S3".
Proof.
  destruct (proj1 failed_calls_are_logged_and_counted Demo.world Demo.wallets
              Demo.tokens Demo.spenders initialState)
    as (s' & E & D & Hallow & _); [discriminate|].
  exists s'. split; [exact E|]. split; [exact D|].
  apply (Hallow "W1" (mkToken "T1" None) "S3" "no allowance");
    simpl; auto.
Defined.

(** The claim fails as stated for the balance call: the balance of wallet
    [W2] cannot be read, and both modes still make records for it, with a
    zero balance. *)
Lemma failed_balance_counterexample :
  balanceOf Demo.world "T1" "W2" = Fails "no balance"
  /\ (exists r,
         In r (resultsOf
                 (Basic.checkApprovals Demo.world ["W2"] [mkToken "T1" None]
                    ["S4"]) initialState)
         /\ triple r = ("W2", "T1", "S4")
         /\ rawBalance r = "0")
  /\ (exists r,
         In r (resultsOf
                 (Advanced.findAndCheckApprovals Demo.world ["W2"]
                    [mkToken "T1" None] 10) initialState)
         /\ triple r = ("W2", "T1", "S4")
         /\ rawBalance r = "0").
Proof.
  split; [reflexivity|]. split.
  - eexists. split; [vm_compute; left; reflexivity|].
    split; reflexivity.
  - eexists. split; [vm_compute; right; left; reflexivity|].
    split; reflexivity.
Qed.

(** ** Display and export *)

Lemma In_firstn {A} n (l : list A) x : In x (firstn n l) -> In x l.
Proof.
  intros H. rewrite <- (firstn_skipn n l). apply in_or_app. now left.
Qed.

Lemma slice_0_length {A} n (l : list A) : length (JS.slice 0 n l) <= n.
Proof. unfold JS.slice. simpl. rewrite length_firstn. lia. Qed.

Lemma slice_0_In {A} n (l : list A) x : In x (JS.slice 0 n l) -> In x l.
Proof. unfold JS.slice. simpl. apply In_firstn. Qed.

(** The sort rearranges its input. *)
Lemma sort_insert_perm {A} (cmp : A -> A -> JS.number) x l :
  Permutation (JS.sort_insert cmp x l) (x :: l).
Proof.
  induction l as [|y l IH]; simpl; [reflexivity|].
  destruct (JS.gt (cmp x y) 0%float); [|reflexivity].
  rewrite IH. apply perm_swap.
Qed.

Lemma sort_perm {A} (cmp : A -> A -> JS.number) l :
  Permutation (JS.sort cmp l) l.
Proof.
  induction l as [|x l IH]; simpl; [reflexivity|].
  rewrite sort_insert_perm. now constructor.
Qed.






Lemma sameTriple_true r r' : sameTriple r r' = true <-> triple r = triple r'.
Proof.
  unfold sameTriple, triple.
  rewrite !andb_true_iff, !String.eqb_eq. split.
  - intros [[-> ->] ->]. reflexivity.
  - intros [= -> -> ->]. auto.
Qed.

(** The merge appends to the important results those infinite results
    whose triple is not there yet. *)
Lemma mergeImportant_spec infinite :
  forall important,
  exists extra,
    mergeImportant important infinite = important ++ extra
    /\ length extra <= length infinite
    /\ incl extra infinite
    /\ List.NoDup (map triple extra)
    /\ (forall e r, In e extra -> In r important -> triple r <> triple e)
    /\ (forall r, In r infinite ->
                  exists r', In r' (important ++ extra)
                             /\ triple r' = triple r).
Proof.
  induction infinite as [|result rest IH]; intros important; simpl.
  - exists []. rewrite app_nil_r.
    split; [reflexivity|]. split; [simpl; lia|].
    split; [apply incl_nil_l|]. split; [constructor|].
    split; [intros e r [] | intros r []].
  - destruct (existsb (fun r => sameTriple r result) important) eqn:Ex.
    + destruct (IH important) as (extra & E & Hl & Hi & Hn & Hd & Hc).
      exists extra. repeat split; auto.
      * now apply incl_tl.
      * intros r [<-|Hr]; [|now apply Hc].
        apply existsb_exists in Ex as (r' & Hr' & Hs).
        exists r'. split; [apply in_or_app; now left|].
        now apply sameTriple_true.
    + destruct (IH (important ++ [result]))
        as (extra & E & Hl & Hi & Hn & Hd & Hc).
      exists (result :: extra). rewrite E, <- app_assoc. simpl.
      repeat split.
      * lia.
      * intros x [<-|Hx]; [now left | right; now apply Hi].
      * constructor; [|assumption].
        intros Hin. apply in_map_iff in Hin as (e & Et & He).
        apply (Hd e result He); [apply in_or_app; right; now left|].
        now symmetry.
      * intros e r [<-|He] Hr.
        -- intros Et. apply sameTriple_true in Et.
           assert (Hex : existsb (fun r => sameTriple r result) important
                         = true)
             by (apply existsb_exists; eauto).
           congruence.
        -- apply Hd; [assumption | apply in_or_app; now left].
      * intros r [<-|Hr].
        -- exists result. split; [|reflexivity].
           apply in_or_app; right; now left.
        -- destruct (Hc r Hr) as (r' & Hr' & Et).
           exists r'. split; [|assumption].
           rewrite <- app_assoc in Hr'. exact Hr'.
Qed.


Lemma append_assoc (a b c : string) :
  ((a ++ b) ++ c)%string = (a ++ (b ++ c))%string.
Proof.
  induction a as [|ch a IH]; [reflexivity|].
  change (String ch ((a ++ b) ++ c) = String ch (a ++ (b ++ c)))%string.
  now rewrite IH.
Qed.



(** *** Consistent comparators *)




Section Consistent.

Context {A : Type}.
Variable cmp : A -> A -> JS.number.
Variable l : list A.
Hypothesis Hc : JS.consistent cmp l = true.















End Consistent.



(** *** Duplicate triples *)



(** *** Distinct values *)


(** *** The exported lines *)

(** Whether a character occurs in a string. *)
Fixpoint hasChar (c : ascii) (s : string) : bool :=
  match s with
  | EmptyString => false
  | String d s' => Ascii.eqb d c || hasChar c s'
  end.

Lemma splitOn_whole sep x : hasChar sep x = false -> splitOn sep x = [x].
Proof.
  induction x as [|c x IH]; simpl; intros H; [reflexivity|].
  apply orb_false_iff in H as [Hc Hx]. rewrite Hc, (IH Hx). reflexivity.
Qed.

Lemma splitOn_append sep x rest :
  hasChar sep x = false ->
  splitOn sep (x ++ String sep rest) = x :: splitOn sep rest.
Proof.
  induction x as [|c x IH]; intros H.
  - change (splitOn sep (String sep rest) = "" :: splitOn sep rest).
    simpl. now rewrite Ascii.eqb_refl.
  - simpl in H. apply orb_false_iff in H as [Hc Hx].
    change (splitOn sep (String c (x ++ String sep rest))
            = String c x :: splitOn sep rest).
    simpl. now rewrite Hc, (IH Hx).
Qed.

Lemma splitOn_joinWith sep l :
  Forall (fun part => hasChar sep part = false) l ->
  l <> [] -> splitOn sep (joinWith sep l) = l.
Proof.
  induction l as [|x l IH]; intros Hall Hne; [contradiction|].
  inversion Hall as [|? ? Hx Hl]; subst.
  destruct l as [|y l].
  - simpl. now apply splitOn_whole.
  - change (splitOn sep (x ++ String sep (joinWith sep (y :: l)))
            = x :: y :: l).
    rewrite (splitOn_append _ _ _ Hx), IH; [reflexivity | assumption |].
    discriminate.
Qed.



Lemma append_cons c (a b : string) :
  (String c a ++ b)%string = String c (a ++ b)%string.
Proof. reflexivity. Qed.

Lemma append_empty_l (a : string) : ("" ++ a)%string = a.
Proof. reflexivity. Qed.



Lemma Demo_sortConforms : sortConforms Demo.world.
Proof. intros cmp l. split; [apply sort_perm | reflexivity]. Qed.







(** * Further properties of the scripts *)

(** ** Batches *)

Lemma concat_batches_sized {A} (l : list A) size rounds i :
  1 <= size -> length l - i <= rounds ->
  concat (batches_from rounds size i l) = skipn i l.
Proof.
  intros Hsize. revert i; induction rounds as [|rounds IH]; intros i Hr;
    simpl.
  - symmetry; apply skipn_all2; lia.
  - destruct (Nat.ltb_spec i (length l)) as [Hi|Hi].
    + simpl. rewrite IH by lia.
      unfold JS.slice. rewrite Nat.add_comm, <- skipn_skipn.
      apply firstn_skipn.
    + symmetry; apply skipn_all2; lia.
Qed.

Lemma batches_from_bounds {A} (l : list A) size rounds i b :
  1 <= size ->
  In b (batches_from rounds size i l) -> 1 <= length b <= size.
Proof.
  intros Hsize. revert i; induction rounds as [|rounds IH]; intros i; simpl;
    [tauto|].
  destruct (Nat.ltb_spec i (length l)) as [Hi|Hi]; simpl; [|tauto].
  intros [<-|H]; [|now apply IH in H].
  unfold JS.slice. rewrite length_firstn, length_skipn. lia.
Qed.

Lemma batches_from_count {A} (l : list A) rounds i :
  length l - i <= rounds ->
  length l - i <= 3 * length (batches_from rounds 3 i l)
  /\ 3 * length (batches_from rounds 3 i l) < length l - i + 3.
Proof.
  revert i; induction rounds as [|rounds IH]; intros i Hr; simpl; [lia|].
  destruct (Nat.ltb_spec i (length l)) as [Hi|Hi]; simpl; [|lia].
  specialize (IH (i + 3)). lia.
Qed.

(** X1: The scheduler cuts a list into consecutive batches that cover it in
    order; every batch has between one and three items, and there are
    [ceil(n / 3)] of them. *)
Theorem batches_partition {A} (l : list A) :
  concat (batches l) = l
  /\ (forall b, In b (batches l) -> 1 <= length b <= 3)
  /\ length (batches l) = (length l + 2) / 3.
Proof.
  split; [apply concat_batches|]. split.
  - intros b Hb. unfold batches in Hb.
    apply batches_from_bounds in Hb; unfold batchSize in *; lia.
  - unfold batches, batchSize.
    pose proof (batches_from_count l (length l) 0) as H.
    apply Nat.div_unique
      with (r := length l + 2 - 3 * length (batches_from (length l) 3 0 l));
      lia.
Qed.

(** ** Shortened addresses *)

Lemma length_append (a b : string) :
  String.length (a ++ b) = String.length a + String.length b.
Proof.
  induction a as [|c a IH]; [reflexivity|].
  change (S (String.length (a ++ b)) = S (String.length a) + String.length b).
  now rewrite IH.
Qed.

Lemma length_substring n m (s : string) :
  n + m <= String.length s -> String.length (substring n m s) = m.
Proof.
  revert n m; induction s as [|c s IH]; intros n m H; simpl in H.
  - assert (n = 0) by lia. assert (m = 0) by lia. subst. reflexivity.
  - destruct n as [|n]; simpl.
    + destruct m as [|m]; [reflexivity|]. simpl. rewrite IH; [reflexivity|lia].
    + apply IH. lia.
Qed.

Lemma substring_append_left (p r : string) :
  substring 0 (String.length p) (p ++ r) = p.
Proof.
  induction p as [|c p IH].
  - simpl. destruct r; reflexivity.
  - change (String c (substring 0 (String.length p) (p ++ r)) = String c p).
    now rewrite IH.
Qed.

Lemma substring_append_right (p r : string) m :
  substring (String.length p) m (p ++ r) = substring 0 m r.
Proof.
  induction p as [|c p IH]; [reflexivity|].
  change (substring (String.length p) m (p ++ r) = substring 0 m r).
  exact IH.
Qed.

Lemma substring_whole (q : string) : substring 0 (String.length q) q = q.
Proof. induction q as [|c q IH]; simpl; [reflexivity | now rewrite IH]. Qed.

(** X2: [shortenAddress] leaves an address of fewer than ten characters as it
    is and turns a longer one into thirteen characters, so its result
    never has more than thirteen; shortening twice is shortening once. *)
Theorem shortenAddress_length address :
  String.length (shortenAddress address) <= 13
  /\ (String.length address < 10 -> shortenAddress address = address)
  /\ (10 <= String.length address ->
      String.length (shortenAddress address) = 13)
  /\ shortenAddress (shortenAddress address) = shortenAddress address.
Proof.
  assert (Hshort : forall a, String.length a < 10 -> shortenAddress a = a).
  { intros a H. unfold shortenAddress. apply Nat.ltb_lt in H. now rewrite H. }
  destruct (Nat.ltb_spec (String.length address) 10) as [H|H].
  - rewrite !(Hshort address H). repeat split; lia.
  - assert (Hlong : shortenAddress address
        = (substring 0 6 address ++ "..."
           ++ substring (String.length address - 4) 4 address)%string).
    { unfold shortenAddress. apply Nat.ltb_ge in H. now rewrite H. }
    set (p := substring 0 6 address) in *.
    set (q := substring (String.length address - 4) 4 address) in *.
    assert (Hp : String.length p = 6) by (apply length_substring; lia).
    assert (Hq : String.length q = 4) by (apply length_substring; lia).
    assert (Hl : String.length (p ++ "..." ++ q)%string = 13)
      by (rewrite !length_append, Hp, Hq; reflexivity).
    rewrite !Hlong. repeat split; try lia.
    unfold shortenAddress. rewrite Hl. cbn [Nat.ltb Nat.leb Nat.sub].
    f_equal.
    + rewrite <- Hp at 1. apply substring_append_left.
    + f_equal.
      replace 9 with (String.length (p ++ "...")%string)
        by (rewrite length_append, Hp; reflexivity).
      rewrite <- append_assoc.
      rewrite substring_append_right. rewrite <- Hq at 1.
      apply substring_whole.
Qed.

(** ** The console *)

(** X3: A debug line is printed with [--verbose] or at level debug, an
    info line at the levels debug and info, a warning at the levels
    debug, info and warn, and an error always.  So the levels nest,
    except for [--verbose]: what is printed at level info is printed at
    level warn, and without [--verbose] a printed debug line means that
    every level is printed.  The console shows the printed calls in the
    order of the calls, and every error among them. *)
Theorem console_levels verbose logLevel :
  (printed verbose logLevel Debug = true
   <-> verbose = true \/ logLevel = "debug")
  /\ (printed verbose logLevel Info = true
      <-> logLevel = "debug" \/ logLevel = "info")
  /\ (printed verbose logLevel Warn = true
      <-> logLevel = "debug" \/ logLevel = "info" \/ logLevel = "warn")
  /\ printed verbose logLevel Error = true
  /\ (printed verbose logLevel Info = true ->
      printed verbose logLevel Warn = true)
  /\ (verbose = false ->
      printed verbose logLevel Debug = true ->
      forall l, printed verbose logLevel l = true)
  /\ (forall entries e,
         In e entries -> log_level e = Error ->
         In e (console verbose logLevel entries))
  /\ (forall entries e,
         In e (console verbose logLevel entries) ->
         In e entries /\ printed verbose logLevel (log_level e) = true)
  /\ (forall entries1 entries2,
         console verbose logLevel (entries1 ++ entries2)
         = console verbose logLevel entries1
           ++ console verbose logLevel entries2).
Proof.
  assert (Hd : printed verbose logLevel Debug = true
               <-> verbose = true \/ logLevel = "debug")
    by (unfold printed; rewrite orb_true_iff, String.eqb_eq; tauto).
  assert (Hi : printed verbose logLevel Info = true
               <-> logLevel = "debug" \/ logLevel = "info")
    by (unfold printed, includes; simpl;
        rewrite orb_false_r, orb_true_iff, !String.eqb_eq; tauto).
  assert (Hw : printed verbose logLevel Warn = true
               <-> logLevel = "debug" \/ logLevel = "info"
                   \/ logLevel = "warn")
    by (unfold printed, includes; simpl;
        rewrite orb_false_r, !orb_true_iff, !String.eqb_eq; tauto).
  split; [exact Hd|]. split; [exact Hi|]. split; [exact Hw|].
  split; [reflexivity|]. split; [rewrite Hi, Hw; tauto|].
  split; [|split; [|split]].
  - intros -> H l. apply Hd in H as [H|H]; [discriminate|].
    destruct l; [apply Hd | apply Hi | apply Hw | reflexivity]; auto.
  - intros entries e He Hl. unfold console. apply List.filter_In.
    split; [assumption|]. now rewrite Hl.
  - intros entries e He. unfold console in He.
    apply List.filter_In in He. exact He.
  - intros. unfold console. apply List.filter_app.
Qed.

Lemma console_levels_witness :
  printed false "debug" Warn = true
  /\ printed true "error" Debug = true
  /\ printed true "error" Info = false.
Proof.
  destruct (console_levels false "debug") as (_ & _ & _ & _ & _ & H & _).
  split; [apply H; reflexivity|]. split; reflexivity.
Defined.

(** ** The calls sent to the chain *)

(** [sends m C]: from every state [m] appends the calls [C] to the calls
    sent so far. *)
Definition sends {A} (m : M A) (C : list Call) : Prop :=
  forall s, calls (snd (m s)) = calls s ++ C.

Lemma sends_conv {A} (m : M A) C C' : sends m C' -> C' = C -> sends m C.
Proof. now intros H <-. Qed.

(** [ends m c]: from every state [m] completes with [c]. *)
Definition ends {A} (m : M A) (c : Completion A) : Prop :=
  forall s, exists s', m s = (c, s').

Lemma does_ends {A} (m : M A) c σ : does m c σ -> ends m c.
Proof. intros H s. destruct (H s) as (s' & _ & E & _). now exists s'. Qed.

Lemma ends_bind {A B} (m : M A) (k : A -> M B) a c :
  ends m (Normal a) -> ends (k a) c -> ends (bind m k) c.
Proof.
  intros Hm Hk s. destruct (Hm s) as (s1 & E1). destruct (Hk s1) as (s2 & E2).
  exists s2. unfold bind. now rewrite E1.
Qed.

Lemma ends_try_normal {A} (body : M A) handler a :
  ends body (Normal a) -> ends (try_catch body handler) (Normal a).
Proof.
  intros Hm s. destruct (Hm s) as (s1 & E1).
  exists s1. unfold try_catch. now rewrite E1.
Qed.

Lemma ends_for_of {A} (l : list A) (body : A -> M unit) :
  (forall x, In x l -> ends (body x) (Normal tt)) ->
  ends (for_of l body) (Normal tt).
Proof.
  induction l as [|x l IH]; intros H; simpl.
  - intros s. now exists s.
  - eapply ends_bind; [apply H; now left|].
    apply IH. intros y Hy; apply H; now right.
Qed.

Lemma ends_promise_all {A} (l : list A) (task : A -> M unit) :
  (forall x, In x l -> ends (task x) (Normal tt)) ->
  ends (promise_all l task) (Normal tt).
Proof.
  induction l as [|x l IH]; intros H; simpl.
  - intros s. now exists s.
  - intros s. destruct (H x (or_introl eq_refl) s) as (s1 & E1).
    destruct (IH (fun y Hy => H y (or_intror Hy)) s1) as (s2 & E2).
    exists s2. now rewrite E1.
Qed.

Lemma sends_bind {A B} (m : M A) (k : A -> M B) a C1 C2 :
  ends m (Normal a) -> sends m C1 -> sends (k a) C2 ->
  sends (bind m k) (C1 ++ C2).
Proof.
  intros Hd H1 H2 s. destruct (Hd s) as (s1 & E).
  specialize (H1 s). unfold bind. rewrite E in *. simpl in H1.
  now rewrite H2, H1, app_assoc.
Qed.

Lemma sends_bind_any {A B} (m : M A) (k : A -> M B) C1 C2 :
  (forall s, exists a s', m s = (Normal a, s')) -> sends m C1 ->
  (forall a, sends (k a) C2) ->
  sends (bind m k) (C1 ++ C2).
Proof.
  intros Hd H1 H2 s. destruct (Hd s) as (a & s1 & E).
  specialize (H1 s). unfold bind. rewrite E in *. simpl in H1.
  now rewrite H2, H1, app_assoc.
Qed.

Lemma sends_bind_throw {A B} (m : M A) (k : A -> M B) e C :
  ends m (Throw e) -> sends m C -> sends (bind m k) C.
Proof.
  intros Hd H1 s. destruct (Hd s) as (s1 & E).
  specialize (H1 s). unfold bind. now rewrite E in *.
Qed.

Lemma sends_bind_exit {A B} (m : M A) (k : A -> M B) code C :
  ends m (Exit code) -> sends m C -> sends (bind m k) C.
Proof.
  intros Hd H1 s. destruct (Hd s) as (s1 & E).
  specialize (H1 s). unfold bind. now rewrite E in *.
Qed.

Lemma sends_try_normal {A} (body : M A) handler a C :
  ends body (Normal a) -> sends body C -> sends (try_catch body handler) C.
Proof.
  intros Hd H1 s. destruct (Hd s) as (s1 & E).
  specialize (H1 s). unfold try_catch. now rewrite E in *.
Qed.

Lemma sends_try_throw {A} (body : M A) handler e C1 C2 :
  ends body (Throw e) -> sends body C1 -> sends (handler e) C2 ->
  sends (try_catch body handler) (C1 ++ C2).
Proof.
  intros Hd H1 H2 s. destruct (Hd s) as (s1 & E).
  specialize (H1 s). unfold try_catch. rewrite E in *. simpl in H1.
  now rewrite H2, H1, app_assoc.
Qed.

Lemma sends_finally {A} (body : M A) cleanup (a : A) C1 C2 :
  ends body (Normal a) -> sends body C1 ->
  ends cleanup (Normal tt) -> sends cleanup C2 ->
  sends (try_finally body cleanup) (C1 ++ C2).
Proof.
  intros Hd H1 Hc H2 s. destruct (Hd s) as (s1 & E).
  destruct (Hc s1) as (s2 & E2).
  specialize (H1 s). specialize (H2 s1). unfold try_finally.
  rewrite E in *. rewrite E2 in *. simpl in *.
  now rewrite H2, H1, app_assoc.
Qed.

Lemma sends_for_of {A} (l : list A) (body : A -> M unit) C :
  (forall x, In x l -> ends (body x) (Normal tt)) ->
  (forall x, In x l -> sends (body x) (C x)) ->
  sends (for_of l body) (flat_map C l).
Proof.
  induction l as [|x l IH]; intros Hd H; simpl.
  - intros s. simpl. now rewrite app_nil_r.
  - eapply sends_bind.
    + apply Hd; now left.
    + apply H; now left.
    + apply IH; intros y Hy; [apply Hd | apply H]; now right.
Qed.

Lemma sends_promise_all {A} (l : list A) (task : A -> M unit) C :
  (forall x, In x l -> ends (task x) (Normal tt)) ->
  (forall x, In x l -> sends (task x) (C x)) ->
  sends (promise_all l task) (flat_map C l).
Proof.
  induction l as [|x l IH]; intros Hd H; simpl.
  - intros s. simpl. now rewrite app_nil_r.
  - intros s.
    destruct (Hd x (or_introl eq_refl) s) as (s1 & E).
    pose proof (H x (or_introl eq_refl) s) as H1.
    rewrite E in *. simpl in H1.
    rewrite (IH (fun y Hy => Hd y (or_intror Hy))
               (fun y Hy => H y (or_intror Hy)) s1).
    now rewrite H1, app_assoc.
Qed.

Ltac quiet := intros s; simpl; now rewrite app_nil_r.

Lemma sends_ret {A} (a : A) : sends (ret a) [].
Proof. quiet. Qed.

Lemma sends_await {A} c (r : Reply A) : sends (await c r) [c].
Proof. intros s. unfold await. now destruct r. Qed.

Lemma sends_lib {A} (r : Reply A) : sends (lib r) [].
Proof. intros s. unfold lib. destruct r; simpl; now rewrite app_nil_r. Qed.

Lemma sends_logger l text detail : sends (logger l text detail) [].
Proof. quiet. Qed.

Lemma sends_write o : sends (write o) [].
Proof. quiet. Qed.

Lemma sends_push r : sends (push r) [].
Proof. quiet. Qed.

Lemma sends_complete n : sends (complete n) [].
Proof. quiet. Qed.

Lemma sends_note totalTasks text : sends (Basic.note totalTasks text) [].
Proof. quiet. Qed.

Lemma sends_updateProgress w startTime totalTasks force currentAction :
  sends (updateProgress w startTime totalTasks force currentAction) [].
Proof.
  intros s. unfold updateProgress.
  destruct (_ || _ || _); simpl; now rewrite app_nil_r.
Qed.

Lemma sends_promise_all2_await {A B} c1 (r1 : Reply A) c2 (r2 : Reply B) :
  sends (promise_all2 (await c1 r1) (await c2 r2)) [c1; c2].
Proof.
  intros s. unfold promise_all2, await.
  destruct r1, r2; simpl; now rewrite <- app_assoc.
Qed.

Ltac ended := solve [eapply does_ends; run].

Ltac trace :=
  cbv beta zeta; use_replies;
  lazymatch goal with
  | |- sends (ret _) _ => apply sends_ret
  | |- sends (bind _ _) _ =>
      first [ eapply sends_bind; [ ended | solve [trace] | trace ]
            | eapply sends_bind_throw; [ ended | solve [trace] ]
            | eapply sends_bind_exit; [ ended | solve [trace] ] ]
  | |- sends (try_catch _ _) _ =>
      first [ eapply sends_try_normal; [ ended | solve [trace] ]
            | eapply sends_try_throw; [ ended | solve [trace] | trace ] ]
  | |- sends (try_finally _ _) _ =>
      eapply sends_finally; [ ended | solve [trace] | ended | solve [trace] ]
  | |- sends (await _ _) _ => apply sends_await
  | |- sends (lib _) _ => apply sends_lib
  | |- sends (logger _ _ _) _ => apply sends_logger
  | |- sends (write _) _ => apply sends_write
  | |- sends (push _) _ => apply sends_push
  | |- sends (complete _) _ => apply sends_complete
  | |- sends (updateProgress _ _ _ _ _) _ => apply sends_updateProgress
  | |- sends (Basic.note _ _) _ => apply sends_note
  end.

Lemma ends_fetchTokenInfo w tokenInfo before after :
  does before (Normal tt) nothing ->
  (forall sym dec, does (after sym dec) (Normal tt) nothing) ->
  ends (fetchTokenInfo w tokenInfo before after)
    (Normal (tokenView w tokenInfo)).
Proof. intros. eapply does_ends. now apply does_fetchTokenInfo. Qed.

Lemma ends_fetchBalance w before tokenAddress address sym dec :
  does before (Normal tt) nothing ->
  ends (fetchBalance w before tokenAddress address sym dec)
    (Normal (balanceView w tokenAddress address)).
Proof. intros. eapply does_ends. now apply does_fetchBalance. Qed.

Lemma sends_fetchTokenInfo w tokenInfo before after :
  does before (Normal tt) nothing -> sends before [] ->
  (forall sym dec, does (after sym dec) (Normal tt) nothing) ->
  (forall sym dec, sends (after sym dec) []) ->
  sends (fetchTokenInfo w tokenInfo before after)
    [CallSymbol (tk_address tokenInfo); CallDecimals (tk_address tokenInfo)].
Proof.
  intros Hb Sb Ha Sa. unfold fetchTokenInfo. cbv zeta.
  pose proof (does_ends _ _ _
                (does_promise_all2_await
                   (CallSymbol (tk_address tokenInfo))
                   (symbolOf w (tk_address tokenInfo))
                   (CallDecimals (tk_address tokenInfo))
                   (decimalsOf w (tk_address tokenInfo)))) as Hp.
  pose proof (sends_promise_all2_await
                (CallSymbol (tk_address tokenInfo))
                (symbolOf w (tk_address tokenInfo))
                (CallDecimals (tk_address tokenInfo))
                (decimalsOf w (tk_address tokenInfo))) as Sp.
  apply does_ends in Hb.
  assert (Ha' : forall sym dec, ends (after sym dec) (Normal tt))
    by (intros; eapply does_ends; apply Ha).
  destruct (symbolOf w (tk_address tokenInfo)) as [sym|e1];
    [destruct (decimalsOf w (tk_address tokenInfo)) as [dec|e2]|].
  - eapply sends_conv;
      [ eapply sends_try_normal;
        [ eapply ends_bind; [apply Hb|];
          eapply ends_bind; [apply Hp|];
          eapply ends_bind; [apply Ha'|]; eapply does_ends, does_ret
        | eapply sends_bind; [apply Hb | apply Sb |];
          eapply sends_bind; [apply Hp | apply Sp |];
          eapply sends_bind; [apply Ha' | apply Sa | apply sends_ret] ]
      | reflexivity ].
  - eapply sends_conv;
      [ eapply sends_try_throw;
        [ intros s; destruct (Hb s) as (s1 & E1);
          destruct (Hp s1) as (s2 & E2); exists s2;
          unfold bind at 1; rewrite E1; unfold bind at 1; now rewrite E2
        | eapply sends_bind; [apply Hb | apply Sb |];
          eapply sends_bind_throw; [apply Hp | apply Sp]
        | trace ]
      | reflexivity ].
  - eapply sends_conv;
      [ eapply sends_try_throw;
        [ intros s; destruct (Hb s) as (s1 & E1);
          destruct (Hp s1) as (s2 & E2); exists s2;
          unfold bind at 1; rewrite E1; unfold bind at 1; now rewrite E2
        | eapply sends_bind; [apply Hb | apply Sb |];
          eapply sends_bind_throw; [apply Hp | apply Sp]
        | trace ]
      | reflexivity ].
Qed.

Lemma sends_fetchBalance w before tokenAddress address sym dec :
  does before (Normal tt) nothing -> sends before [] ->
  sends (fetchBalance w before tokenAddress address sym dec)
    [CallBalanceOf tokenAddress address].
Proof.
  intros Hb Sb. unfold fetchBalance. cbv zeta.
  destruct (balanceOf w tokenAddress address) as [b|e];
    [destruct (formatUnits w b dec) as [f|e] eqn:Ef|].
  - eapply sends_conv;
      [ eapply sends_try_normal;
        [ eapply does_ends, does_bind; [apply Hb|]; run
        | eapply sends_bind; [eapply does_ends, Hb | apply Sb |]; trace ]
      | reflexivity ].
  - eapply sends_conv;
      [ eapply sends_try_normal;
        [ eapply does_ends, does_bind; [apply Hb|]; run
        | eapply sends_bind; [eapply does_ends, Hb | apply Sb |]; trace ]
      | reflexivity ].
  - eapply sends_conv;
      [ eapply sends_try_throw;
        [ eapply does_ends, does_bind; [apply Hb|]; run
        | eapply sends_bind; [eapply does_ends, Hb | apply Sb |]; trace
        | trace ]
      | reflexivity ].
Qed.

Lemma flat_map_batches {A B} (f : A -> list B) (l : list A) :
  flat_map (fun batch => flat_map f batch) (batches l) = flat_map f l.
Proof.
  rewrite <- (concat_batches l) at 2.
  induction (batches l) as [|b bs IH]; simpl; [reflexivity|].
  now rewrite flat_map_app, IH.
Qed.

Lemma flat_map_singleton {A B} (f : A -> B) (l : list A) :
  flat_map (fun x => [f x]) l = map f l.
Proof. induction l as [|x l IH]; simpl; [reflexivity | now rewrite IH]. Qed.

(** *** The basic checkers *)

(** The calls for one (address, token) pair. *)
Definition pairCalls (spenders : list Address) (address : Address)
    (tokenInfo : TokenEntry) : list Call :=
  [CallSymbol (tk_address tokenInfo); CallDecimals (tk_address tokenInfo);
   CallBalanceOf (tk_address tokenInfo) address]
  ++ map (CallAllowance (tk_address tokenInfo) address) spenders.

Definition basicCalls (addresses : list Address) (tokens : list TokenEntry)
    (spenders : list Address) : list Call :=
  flat_map (fun address => flat_map (pairCalls spenders address) tokens)
    addresses.


Lemma sends_Basic_spenderTask w startTime totalTasks address tokenAddress sym
    dec given bal spender :
  sends (Basic.spenderTask w startTime totalTasks address tokenAddress sym dec
           given bal spender)
    [CallAllowance tokenAddress address spender].
Proof.
  unfold Basic.spenderTask.
  destruct (allowanceOf w tokenAddress address spender) as [a|e] eqn:Ea.
  - destruct (approvalRecord w address tokenAddress sym dec given bal spender
                a) as [r|e] eqn:Er;
      (eapply sends_conv; [trace | reflexivity]).
  - eapply sends_conv; [trace | reflexivity].
Qed.


Lemma sends_Basic_tokenBody w spenders startTime totalTasks address tokenInfo :
  sends (Basic.tokenBody w spenders startTime totalTasks address tokenInfo)
    (pairCalls spenders address tokenInfo).
Proof.
  unfold Basic.tokenBody, pairCalls. cbv zeta.
  eapply sends_try_normal.
  { eapply ends_bind; [eapply does_ends, does_logger|].
    eapply ends_bind;
      [apply ends_fetchTokenInfo; [apply does_note | intros; apply does_ret]|].
    destruct (tokenView w tokenInfo) as [[sym dec] given]; simpl.
    eapply ends_bind; [apply ends_fetchBalance, does_note|].
    apply ends_for_of. intros batch _.
    apply ends_promise_all.
    intros; eapply does_ends, does_Basic_spenderTask. }
  eapply sends_conv.
  { eapply sends_bind; [eapply does_ends, does_logger | apply sends_logger |].
    eapply sends_bind;
      [ apply ends_fetchTokenInfo; [apply does_note | intros; apply does_ret]
      | apply sends_fetchTokenInfo;
        [ apply does_note | apply sends_note | intros; apply does_ret
        | intros; apply sends_ret ] |].
    destruct (tokenView w tokenInfo) as [[sym dec] given]; simpl.
    eapply sends_bind;
      [ apply ends_fetchBalance, does_note
      | apply sends_fetchBalance; [apply does_note | apply sends_note] |].
    eapply sends_for_of with
      (C := fun batch =>
              flat_map (fun spender =>
                          [CallAllowance (tk_address tokenInfo) address
                             spender]) batch).
    - intros batch _.
      apply ends_promise_all.
      intros; eapply does_ends, does_Basic_spenderTask.
    - intros batch _.
      eapply sends_promise_all;
        [ intros; eapply does_ends, does_Basic_spenderTask
        | intros; apply sends_Basic_spenderTask ]. }
  simpl. now rewrite flat_map_batches, flat_map_singleton.
Qed.


Lemma ends_Basic_tokenBody w spenders startTime totalTasks address tokenInfo :
  ends (Basic.tokenBody w spenders startTime totalTasks address tokenInfo)
    (Normal tt).
Proof. eapply does_ends, does_Basic_tokenBody. Qed.


Lemma sends_Basic_checkApprovals w addresses tokens spenders :
  spenders <> [] ->
  sends (Basic.checkApprovals w addresses tokens spenders)
    (basicCalls addresses tokens spenders).
Proof.
  intros Hs. destruct spenders as [|sp spenders]; [contradiction|].
  set (sps := sp :: spenders).
  unfold Basic.checkApprovals.
  change (length sps =? 0)%nat with false. cbv iota.
  assert (Hloop : forall startTime totalTasks,
             ends (for_of addresses
                     (fun address =>
                        logger Debug ("检查地址: " ++ address) None ;;
                        for_of tokens
                          (Basic.tokenBody w sps startTime totalTasks
                             address)))
               (Normal tt)).
  { intros. apply ends_for_of. intros address _.
    eapply ends_bind; [eapply does_ends, does_logger|].
    apply ends_for_of. intros; apply ends_Basic_tokenBody. }
  eapply sends_conv.
  { eapply sends_bind with (a := tt) (C1 := []);
      [intros s; eexists; reflexivity | quiet |].
    eapply sends_bind; [eapply does_ends, does_ret | apply sends_ret |].
    eapply sends_bind_any with (C1 := []);
      [intros s; eexists; eexists; reflexivity | quiet |].
    intros startTime.
    eapply sends_bind with (a := tt)
                           (C1 := basicCalls addresses tokens sps ++ []).
    - intros s. destruct (Hloop startTime
                            (N.of_nat (length addresses * length tokens
                                       * length sps)) s) as (s1 & E).
      eexists. unfold try_finally. rewrite E. reflexivity.
    - eapply sends_finally;
        [ apply Hloop | | eapply does_ends, does_write | apply sends_write ].
      eapply sends_for_of.
      + intros address _.
        eapply ends_bind; [eapply does_ends, does_logger|].
        apply ends_for_of. intros; apply ends_Basic_tokenBody.
      + intros address _.
        eapply sends_conv;
          [ eapply sends_bind;
            [eapply does_ends, does_logger | apply sends_logger |];
            eapply sends_for_of;
            [ intros; apply ends_Basic_tokenBody
            | intros; apply sends_Basic_tokenBody ]
          | reflexivity ].
    - quiet. }
  simpl. now rewrite !app_nil_r.
Qed.

(** *** The advanced checker *)

(** The calls for one (token, address) pair. *)
Definition walletCalls (w : World) (startBlock currentBlock : Z)
    (tokenAddress address : Address) : list Call :=
  [CallBalanceOf tokenAddress address;
   CallQueryFilter tokenAddress address startBlock currentBlock]
  ++ match queryFilter w tokenAddress address startBlock currentBlock with
     | Returns events =>
         map (CallAllowance tokenAddress address) (discovered events)
     | Fails _ => []
     end.

(** The calls for one token. *)
Definition tokenCalls (w : World) (startBlock currentBlock : Z)
    (addresses : list Address) (tokenInfo : TokenEntry) : list Call :=
  [CallSymbol (tk_address tokenInfo); CallDecimals (tk_address tokenInfo)]
  ++ flat_map (walletCalls w startBlock currentBlock (tk_address tokenInfo))
       addresses.

Definition advancedCalls (w : World) (startBlock currentBlock : Z)
    (addresses : list Address) (tokens : list TokenEntry) : list Call :=
  CallBlockNumber
  :: flat_map (tokenCalls w startBlock currentBlock addresses) tokens.

Lemma sends_checkSpender w startTime totalTasks tokenAddress sym dec given
    address bal spender :
  sends (Advanced.checkSpender w startTime totalTasks tokenAddress sym dec
           given address bal spender)
    [CallAllowance tokenAddress address spender].
Proof.
  unfold Advanced.checkSpender.
  destruct (allowanceOf w tokenAddress address spender) as [a|e] eqn:Ea.
  - destruct (String.eqb (JS.toString a) "0") eqn:Ez.
    + eapply sends_conv;
        [ eapply sends_try_normal;
          [ eapply does_ends, does_bind; [apply does_updateProgress|];
            eapply does_bind; [apply does_await_returns|];
            cbv beta; rewrite Ez; apply does_logger
          | eapply sends_bind;
            [ eapply does_ends, does_updateProgress
            | apply sends_updateProgress |];
            eapply sends_bind;
            [ eapply does_ends, does_await_returns | apply sends_await |];
            cbv beta; rewrite Ez; apply sends_logger ]
        | reflexivity ].
    + destruct (approvalRecord w address tokenAddress sym dec given bal
                  spender a) as [r|e] eqn:Er.
      * eapply sends_conv;
          [ eapply sends_try_normal;
            [ eapply does_ends, does_bind; [apply does_updateProgress|];
              eapply does_bind; [apply does_await_returns|];
              cbv beta; rewrite Ez; run
            | eapply sends_bind;
              [ eapply does_ends, does_updateProgress
              | apply sends_updateProgress |];
              eapply sends_bind;
              [ eapply does_ends, does_await_returns | apply sends_await |];
              cbv beta; rewrite Ez; trace ]
          | reflexivity ].
      * eapply sends_conv;
          [ eapply sends_try_throw;
            [ eapply does_ends, does_bind; [apply does_updateProgress|];
              eapply does_bind; [apply does_await_returns|];
              cbv beta; rewrite Ez; run
            | eapply sends_bind;
              [ eapply does_ends, does_updateProgress
              | apply sends_updateProgress |];
              eapply sends_bind;
              [ eapply does_ends, does_await_returns | apply sends_await |];
              cbv beta; rewrite Ez; trace
            | trace ]
          | reflexivity ].
  - eapply sends_conv; [trace | reflexivity].
Qed.

Lemma sends_eventLoop w startTime totalTasks tokenAddress sym dec given
    address bal events :
  forall seen,
    sends (Advanced.eventLoop w startTime totalTasks tokenAddress sym dec
             given address bal seen events)
      (map (CallAllowance tokenAddress address) (discoveredFrom seen events)).
Proof.
  induction events as [|spender events IH]; intros seen; simpl.
  - apply sends_ret.
  - destruct (decide (spender ∈ seen)); [apply IH|].
    simpl.
    change (CallAllowance tokenAddress address spender
            :: map (CallAllowance tokenAddress address)
                 (discoveredFrom ({[spender]} ∪ seen) events))
      with ([CallAllowance tokenAddress address spender]
            ++ map (CallAllowance tokenAddress address)
                 (discoveredFrom ({[spender]} ∪ seen) events)).
    eapply sends_bind;
      [ eapply does_ends, does_checkSpender | apply sends_checkSpender
      | apply IH ].
Qed.

Lemma sends_addressTask w startBlock currentBlock startTime totalTasks
    tokenAddress sym dec given address :
  sends (Advanced.addressTask w startBlock currentBlock startTime totalTasks
           tokenAddress sym dec given address)
    (walletCalls w startBlock currentBlock tokenAddress address).
Proof.
  unfold Advanced.addressTask, walletCalls. cbv zeta.
  pose proof (ends_fetchBalance w (ret tt) tokenAddress address sym dec
                (does_ret tt)) as Hbal.
  pose proof (sends_fetchBalance w (ret tt) tokenAddress address sym dec
                (does_ret tt) (sends_ret tt)) as Sbal.
  pose proof (fun evs =>
                does_ends _ _ _
                  (does_eventLoop w startTime totalTasks tokenAddress sym dec
                     given address (balanceView w tokenAddress address) evs
                     ∅)) as Hloop.
  pose proof (fun evs =>
                sends_eventLoop w startTime totalTasks tokenAddress sym dec
                  given address (balanceView w tokenAddress address) evs ∅)
    as Sloop.
  destruct (queryFilter w tokenAddress address startBlock currentBlock)
    as [events|e] eqn:Eq.
  - eapply sends_conv;
      [ eapply sends_finally;
        [ eapply ends_bind; [eapply does_ends, does_updateProgress|];
          eapply ends_bind; [eapply does_ends, does_logger|];
          eapply ends_bind; [apply Hbal|];
          apply ends_try_normal;
          eapply ends_bind; [eapply does_ends, does_updateProgress|];
          eapply ends_bind; [eapply does_ends, does_await_returns|];
          eapply ends_bind; [eapply does_ends, does_logger|];
          apply Hloop
        | eapply sends_bind;
          [eapply does_ends, does_updateProgress
          | apply sends_updateProgress |];
          eapply sends_bind;
          [eapply does_ends, does_logger | apply sends_logger |];
          eapply sends_bind; [apply Hbal | apply Sbal |];
          eapply sends_try_normal;
          [ eapply ends_bind; [eapply does_ends, does_updateProgress|];
            eapply ends_bind; [eapply does_ends, does_await_returns|];
            eapply ends_bind; [eapply does_ends, does_logger|];
            apply Hloop
          | eapply sends_bind;
            [eapply does_ends, does_updateProgress
            | apply sends_updateProgress |];
            eapply sends_bind;
            [eapply does_ends, does_await_returns | apply sends_await |];
            eapply sends_bind;
            [eapply does_ends, does_logger | apply sends_logger |];
            apply Sloop ]
        | eapply does_ends; run
        | trace ]
      | unfold discovered; simpl; now rewrite app_nil_r ].
  - eapply sends_conv;
      [ eapply sends_finally;
        [ eapply ends_bind; [eapply does_ends, does_updateProgress|];
          eapply ends_bind; [eapply does_ends, does_logger|];
          eapply ends_bind; [apply Hbal|];
          eapply does_ends, does_try_throw;
          [ eapply does_bind; [apply does_updateProgress|];
            eapply does_bind_throw; apply does_await_fails
          | apply does_warn ]
        | eapply sends_bind;
          [eapply does_ends, does_updateProgress
          | apply sends_updateProgress |];
          eapply sends_bind;
          [eapply does_ends, does_logger | apply sends_logger |];
          eapply sends_bind; [apply Hbal | apply Sbal |];
          eapply sends_try_throw;
          [ eapply does_ends, does_bind; [apply does_updateProgress|];
            eapply does_bind_throw; apply does_await_fails
          | eapply sends_bind;
            [eapply does_ends, does_updateProgress
            | apply sends_updateProgress |];
            eapply sends_bind_throw;
            [eapply does_ends, does_await_fails | apply sends_await]
          | apply sends_logger ]
        | eapply does_ends; run
        | trace ]
      | reflexivity ].
Qed.

Lemma sends_Advanced_tokenBody w addresses startBlock currentBlock startTime
    totalTasks tokenInfo :
  sends (Advanced.tokenBody w addresses startBlock currentBlock startTime
           totalTasks tokenInfo)
    (tokenCalls w startBlock currentBlock addresses tokenInfo).
Proof.
  unfold Advanced.tokenBody, tokenCalls. cbv zeta.
  eapply sends_try_normal.
  { eapply ends_bind; [eapply does_ends, does_logger|].
    eapply ends_bind; [eapply does_ends, does_updateProgress|].
    eapply ends_bind;
      [apply ends_fetchTokenInfo;
         [apply does_ret | intros; apply does_logger]|].
    destruct (tokenView w tokenInfo) as [[sym dec] given]; simpl.
    apply ends_for_of. intros batch _.
    apply ends_promise_all. intros; eapply does_ends, does_addressTask. }
  eapply sends_conv.
  { eapply sends_bind; [eapply does_ends, does_logger | apply sends_logger |].
    eapply sends_bind;
      [eapply does_ends, does_updateProgress | apply sends_updateProgress |].
    eapply sends_bind;
      [ apply ends_fetchTokenInfo;
        [apply does_ret | intros; apply does_logger]
      | apply sends_fetchTokenInfo;
        [ apply does_ret | apply sends_ret | intros; apply does_logger
        | intros; apply sends_logger ] |].
    destruct (tokenView w tokenInfo) as [[sym dec] given]; simpl.
    eapply sends_for_of with
      (C := fun batch =>
              flat_map (walletCalls w startBlock currentBlock
                          (tk_address tokenInfo)) batch).
    - intros batch _.
      apply ends_promise_all. intros; eapply does_ends, does_addressTask.
    - intros batch _.
      eapply sends_promise_all;
        [ intros; eapply does_ends, does_addressTask
        | intros; apply sends_addressTask ]. }
  simpl. now rewrite flat_map_batches.
Qed.

Lemma sends_findAndCheckApprovals w addresses tokens lookbackBlocks block :
  getBlockNumber w = Returns block ->
  sends (Advanced.findAndCheckApprovals w addresses tokens lookbackBlocks)
    (advancedCalls w (Z.max 0 (block - lookbackBlocks)) block addresses
       tokens).
Proof.
  intros Hblock. unfold Advanced.findAndCheckApprovals, advancedCalls.
  rewrite Hblock.
  assert (Hloop : forall startTime totalTasks,
             ends (for_of tokens
                     (Advanced.tokenBody w addresses
                        (Z.max 0 (block - lookbackBlocks)) block startTime
                        totalTasks))
               (Normal tt)).
  { intros. apply ends_for_of.
    intros; eapply does_ends, does_Advanced_tokenBody. }
  eapply sends_conv.
  { eapply sends_bind with (a := tt) (C1 := []);
      [intros s; eexists; reflexivity | quiet |].
    eapply sends_bind;
      [eapply does_ends, does_await_returns | apply sends_await |].
    cbv zeta.
    eapply sends_bind; [eapply does_ends, does_logger | apply sends_logger |].
    eapply sends_bind_any with (C1 := []);
      [intros s; eexists; eexists; reflexivity | quiet |].
    intros startTime.
    eapply sends_bind with (a := tt).
    - intros s.
      destruct (Hloop startTime
                  (N.of_nat (length tokens * length addresses)) s)
        as (s1 & E).
      eexists. unfold try_finally. rewrite E. reflexivity.
    - eapply sends_finally;
        [ apply Hloop | | eapply does_ends, does_write | apply sends_write ].
      eapply sends_for_of;
        [ intros; eapply does_ends, does_Advanced_tokenBody
        | intros; apply sends_Advanced_tokenBody ].
    - quiet. }
  simpl. now rewrite !app_nil_r.
Qed.

(** *** What the runs send *)

(** A call that basic mode may send for these inputs. *)
Definition basicScope (addresses : list Address) (tokens : list TokenEntry)
    (spenders : list Address) (c : Call) : Prop :=
  match c with
  | CallSymbol t | CallDecimals t => In t (map tk_address tokens)
  | CallBalanceOf t a => In t (map tk_address tokens) /\ In a addresses
  | CallAllowance t a sp =>
      In t (map tk_address tokens) /\ In a addresses /\ In sp spenders
  | CallBlockNumber | CallQueryFilter _ _ _ _ => False
  end.

(** A call that advanced mode may send for these inputs. *)
Definition advancedScope (w : World) (startBlock currentBlock : Z)
    (addresses : list Address) (tokens : list TokenEntry) (c : Call) : Prop :=
  match c with
  | CallBlockNumber => True
  | CallSymbol t | CallDecimals t => In t (map tk_address tokens)
  | CallBalanceOf t a => In t (map tk_address tokens) /\ In a addresses
  | CallQueryFilter t a fromBlock toBlock =>
      In t (map tk_address tokens) /\ In a addresses
      /\ fromBlock = startBlock /\ toBlock = currentBlock
  | CallAllowance t a sp =>
      In t (map tk_address tokens) /\ In a addresses
      /\ exists events,
          queryFilter w t a startBlock currentBlock = Returns events
          /\ In sp events
  end.

Definition isAllowanceCall (c : Call) : bool :=
  match c with CallAllowance _ _ _ => true | _ => false end.

Lemma basicCalls_length addresses tokens spenders :
  length (basicCalls addresses tokens spenders)
  = length addresses * length tokens * (3 + length spenders).
Proof.
  unfold basicCalls.
  assert (Hpair : forall address,
             length (flat_map (pairCalls spenders address) tokens)
             = length tokens * (3 + length spenders)).
  { intros address. induction tokens as [|t tokens IH]; [reflexivity|].
    cbn [flat_map]. rewrite length_app, IH. unfold pairCalls.
    rewrite length_app, length_map. simpl. lia. }
  induction addresses as [|a addresses IH]; [reflexivity|].
  cbn [flat_map]. rewrite length_app, IH, Hpair. simpl. lia.
Qed.

Lemma basicCalls_scope addresses tokens spenders :
  Forall (basicScope addresses tokens spenders)
    (basicCalls addresses tokens spenders).
Proof.
  apply List.Forall_forall. intros c Hc. unfold basicCalls in Hc.
  apply in_flat_map in Hc as (address & Ha & Hc).
  apply in_flat_map in Hc as (tokenInfo & Ht & Hc).
  assert (Ht' : In (tk_address tokenInfo) (map tk_address tokens))
    by now apply in_map.
  unfold pairCalls in Hc. apply in_app_or in Hc as [Hc|Hc].
  - destruct Hc as [<-|[<-|[<-|[]]]]; simpl; auto.
  - apply in_map_iff in Hc as (spender & <- & Hs). simpl. auto.
Qed.

Lemma advancedCalls_scope w startBlock currentBlock addresses tokens :
  Forall (advancedScope w startBlock currentBlock addresses tokens)
    (advancedCalls w startBlock currentBlock addresses tokens).
Proof.
  apply List.Forall_forall. intros c Hc. unfold advancedCalls in Hc.
  destruct Hc as [<-|Hc]; [exact I|].
  apply in_flat_map in Hc as (tokenInfo & Ht & Hc).
  assert (Ht' : In (tk_address tokenInfo) (map tk_address tokens))
    by now apply in_map.
  unfold tokenCalls in Hc. apply in_app_or in Hc as [Hc|Hc].
  - destruct Hc as [<-|[<-|[]]]; simpl; auto.
  - apply in_flat_map in Hc as (address & Ha & Hc).
    unfold walletCalls in Hc. apply in_app_or in Hc as [Hc|Hc].
    + destruct Hc as [<-|[<-|[]]]; simpl; auto.
    + destruct (queryFilter w (tk_address tokenInfo) address startBlock
                  currentBlock) as [events|e] eqn:Eq; [|destruct Hc].
      apply in_map_iff in Hc as (spender & <- & Hs). simpl.
      split; [assumption|]. split; [assumption|].
      exists events. split; [assumption|].
      unfold discovered in Hs. now apply discoveredFrom_In in Hs.
Qed.

Lemma advancedCalls_fixed w startBlock currentBlock addresses tokens :
  length (List.filter (fun c => negb (isAllowanceCall c))
            (advancedCalls w startBlock currentBlock addresses tokens))
  = 1 + length tokens * (2 + 2 * length addresses).
Proof.
  unfold advancedCalls. cbn [List.filter isAllowanceCall negb length].
  f_equal.
  assert (Hw : forall t,
             length (List.filter (fun c => negb (isAllowanceCall c))
                       (flat_map (walletCalls w startBlock currentBlock t)
                          addresses))
             = 2 * length addresses).
  { intros t. induction addresses as [|a addresses IH]; [reflexivity|].
    cbn [flat_map]. rewrite List.filter_app, length_app, IH.
    unfold walletCalls. rewrite List.filter_app, length_app.
    cbn [List.filter isAllowanceCall negb length].
    replace (length (List.filter _ _)) with 0; [simpl; lia|].
    destruct (queryFilter w t a startBlock currentBlock) as [events|e];
      [|reflexivity].
    induction (discovered events) as [|x l IHl]; [reflexivity|].
    simpl. exact IHl. }
  induction tokens as [|t tokens IH]; [reflexivity|].
  cbn [flat_map]. rewrite List.filter_app, length_app, IH.
  unfold tokenCalls. rewrite List.filter_app, length_app, Hw.
  simpl. lia.
Qed.


(** X5: In basic mode a run over a non-empty spender list sends, for each
    address and each token in turn, the symbol, decimals and balance calls
    and then one allowance call per spender, whether or not earlier calls
    failed: [|addresses| * |tokens| * (3 + |spenders|)] calls, each about
    a listed token, address and spender, and none for the block number or
    for events. *)
Theorem basic_call_sequence w addresses tokens spenders s :
  spenders <> [] ->
  calls (snd (Basic.checkApprovals w addresses tokens spenders s))
  = calls s
    ++ flat_map
         (fun address =>
            flat_map
              (fun tokenInfo =>
                 [CallSymbol (tk_address tokenInfo);
                  CallDecimals (tk_address tokenInfo);
                  CallBalanceOf (tk_address tokenInfo) address]
                 ++ map (CallAllowance (tk_address tokenInfo) address)
                      spenders)
              tokens)
         addresses
  /\ length (calls (snd (Basic.checkApprovals w addresses tokens spenders s)))
     = length (calls s)
       + length addresses * length tokens * (3 + length spenders)
  /\ exists sent,
      calls (snd (Basic.checkApprovals w addresses tokens spenders s))
      = calls s ++ sent
      /\ Forall (basicScope addresses tokens spenders) sent.
Proof.
  intros Hs.
  pose proof (sends_Basic_checkApprovals w addresses tokens _ Hs s) as H.
  split; [exact H|]. split.
  - rewrite H, length_app, basicCalls_length. reflexivity.
  - exists (basicCalls addresses tokens spenders).
    split; [exact H | apply basicCalls_scope].
Qed.

Lemma basic_call_sequence_witness :
  Demo.spenders <> []
  /\ length (calls (snd (Basic.checkApprovals Demo.world Demo.wallets
                           Demo.tokens Demo.spenders initialState)))
     = 42.
Proof.
  assert (H : Demo.spenders <> []) by discriminate.
  split; [exact H|].
  destruct (basic_call_sequence Demo.world Demo.wallets Demo.tokens
              Demo.spenders initialState H) as (_ & Hl & _).
  rewrite Hl. reflexivity.
Defined.

(** X6: In advanced mode a run that reads the block number sends that call,
    then per token the symbol and decimals calls, per token and address
    one balance call and one event query over the blocks from
    [max(0, block - lookback)] to the current block, and one allowance
    call for each spender discovered in the events of that pair and for no
    other spender.  Apart from allowance calls these are
    [1 + |tokens| * (2 + 2 * |addresses|)] calls. *)
Theorem advanced_call_multiset w addresses tokens lookbackBlocks block s :
  getBlockNumber w = Returns block ->
  exists sent,
    calls (snd (Advanced.findAndCheckApprovals w addresses tokens
                  lookbackBlocks s))
    = calls s ++ sent
    /\ Permutation sent
         (CallBlockNumber
          :: flat_map
               (fun tokenInfo =>
                  [CallSymbol (tk_address tokenInfo);
                   CallDecimals (tk_address tokenInfo)]
                  ++ flat_map
                       (walletCalls w (Z.max 0 (block - lookbackBlocks))
                          block (tk_address tokenInfo))
                       addresses)
               tokens)
    /\ Forall (advancedScope w (Z.max 0 (block - lookbackBlocks)) block
                 addresses tokens) sent
    /\ length (List.filter (fun c => negb (isAllowanceCall c)) sent)
       = 1 + length tokens * (2 + 2 * length addresses).
Proof.
  intros Hb.
  exists (advancedCalls w (Z.max 0 (block - lookbackBlocks)) block addresses
            tokens).
  split; [now apply sends_findAndCheckApprovals|].
  split; [reflexivity|].
  split; [apply advancedCalls_scope | apply advancedCalls_fixed].
Qed.

Lemma advanced_call_multiset_witness :
  getBlockNumber Demo.world = Returns 100%Z
  /\ exists sent,
      calls (snd (Advanced.findAndCheckApprovals Demo.world Demo.wallets
                    Demo.tokens 30 initialState))
      = sent
      /\ In (CallQueryFilter "T1" "W1" 70 100) sent
      /\ length (List.filter (fun c => negb (isAllowanceCall c)) sent) = 17.
Proof.
  split; [reflexivity|].
  destruct (advanced_call_multiset Demo.world Demo.wallets Demo.tokens 30
              100 initialState eq_refl) as (sent & E & P & _ & L).
  exists sent. split; [exact E|]. split; [|exact L].
  eapply Permutation_in; [symmetry; exact P|].
  vm_compute. tauto.
Defined.

(** X7: When the block number cannot be read the advanced checker rejects
    with that error after this one call: nothing is logged or written, no
    task is counted and no record is left. *)
Theorem advanced_block_number_failure w addresses tokens lookbackBlocks e s :
  getBlockNumber w = Fails e ->
  exists s',
    Advanced.findAndCheckApprovals w addresses tokens lookbackBlocks s
    = (Throw e, s')
    /\ calls s' = calls s ++ [CallBlockNumber]
    /\ results s' = []
    /\ logs s' = logs s
    /\ stdout s' = stdout s
    /\ completedTasks s' = completedTasks s.
Proof.
  intros H. eexists.
  rewrite (Advanced_no_block w addresses tokens lookbackBlocks e s H).
  repeat split.
Qed.

(** A chain that answers nothing. *)
Definition unreachable : World :=
  {| getBlockNumber := Fails "unreachable";
     symbolOf := fun _ => Fails "unreachable";
     decimalsOf := fun _ => Fails "unreachable";
     balanceOf := fun _ _ => Fails "unreachable";
     allowanceOf := fun _ _ _ => Fails "unreachable";
     queryFilter := fun _ _ _ _ => Fails "unreachable";
     Date_now := fun n => Z.of_nat n;
     formatUnits := fun _ _ => Fails "unreachable";
     parseFloat := fun _ => nan;
     Number_toString := fun _ => "NaN";
     Number_toFixed := fun _ _ => "NaN";
     Array_sort := fun cmp l => JS.sort cmp l |}.

Lemma advanced_block_number_failure_witness :
  getBlockNumber unreachable = Fails "unreachable"
  /\ exists s',
      Advanced.findAndCheckApprovals unreachable Demo.wallets Demo.tokens 30
        initialState
      = (Throw "unreachable", s')
      /\ calls s' = [CallBlockNumber].
Proof.
  split; [reflexivity|].
  destruct (advanced_block_number_failure unreachable Demo.wallets
              Demo.tokens 30 "unreachable" initialState eq_refl)
    as (s' & E & C & _).
  exists s'. split; [exact E | exact C].
Defined.

(** X8: Advanced mode finds nothing that basic mode would not report: when
    the spender list of a basic run has every spender of the events that
    the advanced run sees, each record of the advanced run is a record of
    the basic run. *)
Theorem advanced_records_among_basic w addresses tokens spenders
    lookbackBlocks block s s0 r :
  getBlockNumber w = Returns block ->
  (forall tokenInfo address events spender,
      In tokenInfo tokens -> In address addresses ->
      queryFilter w (tk_address tokenInfo) address
        (Z.max 0 (block - lookbackBlocks)) block = Returns events ->
      In spender events -> In spender spenders) ->
  In r (resultsOf
          (Advanced.findAndCheckApprovals w addresses tokens lookbackBlocks)
          s) ->
  In r (resultsOf (Basic.checkApprovals w addresses tokens spenders) s0).
Proof.
  intros Hb Hall Hr.
  rewrite (Advanced_results _ _ _ _ _ _ Hb) in Hr.
  apply advancedEnumeration_In in Hr
    as (tokenInfo & address & events & spender & a & Ht & Ha & Hq & Hs & Hal
        & _ & Hrec).
  rewrite Basic_results. unfold basicEnumeration.
  apply in_flat_map. exists address. split; [assumption|].
  apply in_flat_map. exists tokenInfo. split; [assumption|].
  apply in_flat_map. exists spender.
  split; [now apply (Hall tokenInfo address events)|].
  unfold basicRecords. rewrite Hal, Hrec. now left.
Qed.

Lemma advanced_records_among_basic_witness :
  getBlockNumber Demo.world = Returns 100%Z
  /\ In Demo.limited
       (resultsOf
          (Advanced.findAndCheckApprovals Demo.world Demo.wallets Demo.tokens
             30) initialState)
  /\ In Demo.limited
       (resultsOf
          (Basic.checkApprovals Demo.world Demo.wallets Demo.tokens
             Demo.spenders) initialState).
Proof.
  assert (Hr : In Demo.limited
                 (resultsOf
                    (Advanced.findAndCheckApprovals Demo.world Demo.wallets
                       Demo.tokens 30) initialState))
    by (vm_compute; tauto).
  split; [reflexivity|]. split; [exact Hr|].
  apply (advanced_records_among_basic Demo.world Demo.wallets Demo.tokens
           Demo.spenders 30 100 initialState initialState Demo.limited).
  - reflexivity.
  - intros tokenInfo address events spender _ _ Hq Hs.
    unfold Demo.world in Hq. cbn [queryFilter] in Hq.
    destruct (String.eqb address "W3"); [discriminate|].
    injection Hq as <-. vm_compute in Hs. vm_compute. tauto.
  - exact Hr.
Defined.

(** ** The closing line *)

Lemma ends_Basic_loop w addresses tokens spenders startTime totalTasks :
  ends (for_of addresses
          (fun address =>
             logger Debug ("检查地址: " ++ address) None ;;
             for_of tokens
               (Basic.tokenBody w spenders startTime totalTasks address)))
    (Normal tt).
Proof.
  apply ends_for_of. intros address _.
  eapply ends_bind; [eapply does_ends, does_logger|].
  apply ends_for_of. intros; apply ends_Basic_tokenBody.
Qed.

Lemma ends_Advanced_loop w addresses tokens startBlock currentBlock startTime
    totalTasks :
  ends (for_of tokens
          (Advanced.tokenBody w addresses startBlock currentBlock startTime
             totalTasks))
    (Normal tt).
Proof.
  apply ends_for_of. intros; eapply does_ends, does_Advanced_tokenBody.
Qed.

(** X9: The last thing that a run of either checker with progress display
    writes to the terminal is the closing line, and it shows the number of
    tasks of the run as done: [|addresses| * |tokens| * |spenders|] in
    basic mode and [|tokens| * |addresses|] in advanced mode. *)
Theorem closing_line_is_last w addresses tokens spenders lookbackBlocks s :
  (spenders <> [] ->
   exists out,
     stdout (snd (Basic.checkApprovals w addresses tokens spenders s))
     = out
       ++ [FinalLine
             (N.of_nat (length addresses * length tokens * length spenders))])
  /\ (forall block,
         getBlockNumber w = Returns block ->
         exists out,
           stdout (snd (Advanced.findAndCheckApprovals w addresses tokens
                          lookbackBlocks s))
           = out ++ [FinalLine (N.of_nat (length tokens * length addresses))]).
Proof.
  split.
  - intros Hs. destruct spenders as [|sp spenders]; [contradiction|].
    set (sps := sp :: spenders).
    unfold Basic.checkApprovals.
    change (length sps =? 0)%nat with false. cbv iota.
    unfold bind at 1 2 3 4.
    unfold declare_results, ret, declare_progress, get_results.
    cbv beta iota zeta.
    match goal with
    | |- context [try_finally ?b ?c ?st] =>
        assert (Hloop : ends b (Normal tt)) by apply ends_Basic_loop;
        destruct (Hloop st) as (s1 & E);
        unfold try_finally; rewrite E
    end.
    exists (stdout s1). reflexivity.
  - intros block Hb.
    unfold Advanced.findAndCheckApprovals. rewrite Hb.
    unfold bind at 1 2 3 4 5.
    unfold declare_results, await, logger, declare_progress, get_results.
    cbv beta iota zeta.
    match goal with
    | |- context [try_finally ?b ?c ?st] =>
        assert (Hloop : ends b (Normal tt)) by apply ends_Advanced_loop;
        destruct (Hloop st) as (s1 & E);
        unfold try_finally; rewrite E
    end.
    exists (stdout s1). reflexivity.
Qed.

Lemma closing_line_is_last_witness :
  Demo.spenders <> []
  /\ getBlockNumber Demo.world = Returns 100%Z
  /\ (exists out,
         stdout (snd (Basic.checkApprovals Demo.world Demo.wallets Demo.tokens
                        Demo.spenders initialState))
         = out ++ [FinalLine 24])
  /\ (exists out,
         stdout (snd (Advanced.findAndCheckApprovals Demo.world Demo.wallets
                        Demo.tokens 30 initialState))
         = out ++ [FinalLine 6]).
Proof.
  destruct (closing_line_is_last Demo.world Demo.wallets Demo.tokens
              Demo.spenders 30 initialState) as (Hbasic & Hadvanced).
  split; [discriminate|]. split; [reflexivity|]. split.
  - apply Hbasic. discriminate.
  - apply (Hadvanced 100%Z). reflexivity.
Defined.

(** ** What is displayed *)

Lemma importantResults_incl w results r :
  sortConforms w -> In r (importantResults w results) -> In r results.
Proof.
  intros Hsort. unfold importantResults.
  destruct (mergeImportant_spec (infiniteResults results)
              (highValueResults w results))
    as (extra & E & _ & Hi & _).
  rewrite E. intros Hr. apply in_app_or in Hr as [Hr|Hr].
  - apply slice_0_In in Hr.
    eapply Permutation_in in Hr; [|apply Hsort].
    apply List.filter_In in Hr. tauto.
  - apply Hi, slice_0_In, List.filter_In in Hr. tauto.
Qed.

Lemma displayResultTable_rows w results :
  displayResultTable w results = map (tableRow w) results.
Proof.
  unfold displayResultTable.
  rewrite <- (concat_batches_sized results BATCH_SIZE (length results) 0)
    at 3 by (unfold BATCH_SIZE; lia).
  induction (batches_from (length results) BATCH_SIZE 0 results)
    as [|b bs IH]; simpl; [reflexivity|].
  now rewrite List.map_app, IH.
Qed.

(** X10: Nothing is displayed exactly when there are no results.  Otherwise
    the rows handed to the table are results of the run, at most 100 of
    them, and all of them in the order of the run when the run has at most
    100; the table gets one row of eight cells per row handed to it, in
    the same order, whatever the batches of 20. *)
Theorem displayed_rows w results :
  sortConforms w ->
  (displayResults w results = None <-> results = [])
  /\ (forall report,
         displayResults w results = Some report ->
         found report = length results
         /\ length (shown report) <= 100
         /\ incl (shown report) results
         /\ (length results <= 100 -> shown report = results)
         /\ displayResultTable w (shown report)
            = map (tableRow w) (shown report)
         /\ length (displayResultTable w (shown report)) <= 100
         /\ Forall (fun row => length row = 8)
              (displayResultTable w (shown report)))
  /\ (forall r,
         map cell_text (tableRow w r)
         = [ shortenAddress (walletAddress r); tokenSymbol r;
             shortenAddress (spenderAddress r); allowance r; balance r;
             exposedAmount r;
             match exposedValueUSD r with
             | Some v => ("$" ++ Number_toFixed w v 2)%string
             | None => "未知"
             end;
             if isInfiniteApproval r then "是" else "否" ]
         /\ (nth_error (map cell_colour (tableRow w r)) 3 = Some (Some Red)
             <-> isInfiniteApproval r = true)
         /\ (nth_error (map cell_colour (tableRow w r)) 7 = Some (Some Red)
             <-> isInfiniteApproval r = true)).
Proof.
  intros Hsort. unfold displayResults. split; [|split].
  - destruct results; simpl; split; congruence.
  - intros report.
    destruct (Nat.eqb_spec (length results) 0) as [|Hn]; [discriminate|].
    intros [= <-]. cbn [found shown].
    assert (Hcap :
              length (if (MAX_DISPLAY_ROWS <? length results)%nat
                      then JS.slice 0 MAX_DISPLAY_ROWS
                             (importantResults w results)
                      else results) <= 100).
    { destruct (Nat.ltb_spec MAX_DISPLAY_ROWS (length results)) as [H|H].
      - apply slice_0_length.
      - exact H. }
    split; [reflexivity|]. split; [exact Hcap|]. split.
    { destruct (MAX_DISPLAY_ROWS <? length results)%nat.
      - intros r Hr. apply slice_0_In in Hr.
        now apply (importantResults_incl w).
      - apply incl_refl. }
    split.
    { intros Hle.
      destruct (Nat.ltb_spec MAX_DISPLAY_ROWS (length results)) as [H|H];
        [unfold MAX_DISPLAY_ROWS in H; lia | reflexivity]. }
    rewrite displayResultTable_rows.
    split; [reflexivity|]. split; [now rewrite length_map|].
    apply List.Forall_forall. intros row Hrow.
    apply in_map_iff in Hrow as (r & <- & _). reflexivity.
  - intros r. unfold tableRow.
    destruct (isInfiniteApproval r), (exposedValueUSD r) as [v|];
      try destruct (JS.gt (parseFloat w (Number_toString w v)) 100%float);
      destruct (JS.gt (parseFloat w (allowance r)) 0%float);
      destruct (JS.gt (parseFloat w (exposedAmount r)) 0%float);
      simpl; repeat split; congruence.
Qed.

Lemma displayed_rows_witness :
  sortConforms Demo.world
  /\ exists report,
      displayResults Demo.world [Demo.limited; Demo.unlimited] = Some report
      /\ shown report = [Demo.limited; Demo.unlimited]
      /\ length (displayResultTable Demo.world (shown report)) <= 100.
Proof.
  split; [exact Demo_sortConforms|].
  destruct (displayed_rows Demo.world [Demo.limited; Demo.unlimited]
              Demo_sortConforms)
    as (_ & H & _).
  eexists. split; [reflexivity|].
  destruct (H _ eq_refl) as (_ & _ & _ & Hs & _ & Hl & _).
  split; [apply Hs; simpl; lia | exact Hl].
Defined.

(** ** The input files *)

(** A line as [readLinesFromFile] returns it: not empty, not a comment,
    without white space around it and without a line break in it. *)
Definition cleanLine (line : string) : bool :=
  keptLine line && String.eqb (trim line) line
  && negb (hasChar newlineChar line).

Lemma splitOn_parts sep s :
  Forall (fun part => hasChar sep part = false) (splitOn sep s).
Proof.
  induction s as [|c s IH]; simpl.
  - now repeat constructor.
  - destruct (Ascii.eqb c sep) eqn:Ec; [now constructor|].
    destruct (splitOn sep s) as [|part parts];
      [now repeat constructor; simpl; rewrite Ec|].
    inversion IH as [|? ? Hp Hps]; subst.
    constructor; [simpl; now rewrite Ec, Hp | assumption].
Qed.

Lemma splitOn_chars sep c s part :
  In part (splitOn sep s) -> hasChar c part = true -> hasChar c s = true.
Proof.
  revert part; induction s as [|d s IH]; simpl; intros part Hin Hc.
  - destruct Hin as [<-|[]]. discriminate.
  - destruct (Ascii.eqb d sep).
    + destruct Hin as [<-|Hin]; [discriminate|].
      rewrite (IH _ Hin Hc). apply orb_true_r.
    + destruct (splitOn sep s) as [|p ps].
      * destruct Hin as [<-|[]]. simpl in Hc. rewrite orb_false_r in Hc.
        now rewrite Hc.
      * destruct Hin as [<-|Hin].
        -- simpl in Hc. apply orb_true_iff in Hc as [Hc|Hc];
             [now rewrite Hc|].
           rewrite (IH p (or_introl eq_refl) Hc). apply orb_true_r.
        -- rewrite (IH part (or_intror Hin) Hc). apply orb_true_r.
Qed.

(** A text made of white space characters only. *)
Definition whiteSpaces (s : string) : Prop :=
  exists chunks,
    Forall (fun chunk => isWhiteSpace chunk = true) chunks
    /\ s = fold_right String.append "" chunks.

Lemma whiteSpaces_empty : whiteSpaces "".
Proof. exists []. split; [constructor | reflexivity]. Qed.

Lemma whiteSpaces_cons ws p :
  isWhiteSpace ws = true -> whiteSpaces p -> whiteSpaces (ws ++ p).
Proof.
  intros Hw (chunks & Hall & ->). exists (ws :: chunks).
  split; [now constructor | reflexivity].
Qed.

(** [trimStart] removes white space from the start of the text and
    nothing else, and [trimEnd] from its end. *)
Lemma trimStart_removes s :
  exists p, whiteSpaces p /\ s = (p ++ trimStart s)%string.
Proof.
  assert (H : forall n s, String.length s <= n ->
                          exists p, whiteSpaces p
                                    /\ s = (p ++ trimStart s)%string).
  { clear s. induction n as [|n IH]; intros s Hn.
    - destruct s; [|simpl in Hn; lia].
      exists "". split; [apply whiteSpaces_empty | reflexivity].
    - destruct s as [|c1 s1];
        [exists ""; split; [apply whiteSpaces_empty | reflexivity]|].
      simpl in Hn. simpl.
      destruct (whiteSpace1 c1) eqn:E1.
      { destruct (IH s1) as (p & Hp & E); [lia|].
        exists (String c1 "" ++ p)%string.
        split; [now apply whiteSpaces_cons|].
        rewrite append_assoc, append_cons, append_empty_l. now rewrite <- E. }
      destruct s1 as [|c2 s2];
        [exists ""; split; [apply whiteSpaces_empty | reflexivity]|].
      simpl in Hn.
      destruct (whiteSpace2 c1 c2) eqn:E2.
      { destruct (IH s2) as (p & Hp & E); [lia|].
        exists (String c1 (String c2 "") ++ p)%string.
        split; [now apply whiteSpaces_cons|].
        rewrite append_assoc, !append_cons, append_empty_l. now rewrite <- E. }
      destruct s2 as [|c3 s3];
        [exists ""; split; [apply whiteSpaces_empty | reflexivity]|].
      simpl in Hn.
      destruct (whiteSpace3 c1 c2 c3) eqn:E3;
        [|exists ""; split; [apply whiteSpaces_empty | reflexivity]].
      destruct (IH s3) as (p & Hp & E); [lia|].
      exists (String c1 (String c2 (String c3 "")) ++ p)%string.
      split; [now apply whiteSpaces_cons|].
      rewrite append_assoc, !append_cons, append_empty_l. now rewrite <- E. }
  now apply (H (String.length s)).
Qed.

Lemma trimEnd_removes s :
  exists p, whiteSpaces p /\ s = (trimEnd s ++ p)%string.
Proof.
  induction s as [|c s IH];
    [exists ""; split; [apply whiteSpaces_empty | reflexivity]|].
  destruct IH as (p & Hp & E). cbn [trimEnd]. cbv zeta.
  destruct (isWhiteSpace (String c (trimEnd s))) eqn:Ew.
  - exists (String c (trimEnd s) ++ p)%string.
    split; [now apply whiteSpaces_cons|].
    rewrite append_empty_l, append_cons. now rewrite <- E.
  - exists p. split; [exact Hp|]. rewrite append_cons. now rewrite <- E.
Qed.

Lemma trimStart_suffix s : exists p, s = (p ++ trimStart s)%string.
Proof. destruct (trimStart_removes s) as (p & _ & E). now exists p. Qed.

Lemma trimEnd_prefix s : exists p, s = (trimEnd s ++ p)%string.
Proof. destruct (trimEnd_removes s) as (p & _ & E). now exists p. Qed.

(** [trim] removes white space around the text and nothing else. *)
Lemma trim_removes s :
  exists before after,
    s = (before ++ trim s ++ after)%string
    /\ whiteSpaces before /\ whiteSpaces after.
Proof.
  unfold trim.
  destruct (trimStart_removes s) as (p & Hp & E).
  destruct (trimEnd_removes (trimStart s)) as (q & Hq & E').
  exists p, q. split; [|split; assumption].
  now rewrite <- E', <- E.
Qed.

Lemma hasChar_append c a b :
  hasChar c (a ++ b) = hasChar c a || hasChar c b.
Proof.
  induction a as [|d a IH]; [reflexivity|].
  change (Ascii.eqb d c || hasChar c (a ++ b)
          = Ascii.eqb d c || hasChar c a || hasChar c b).
  now rewrite IH, orb_assoc.
Qed.

Lemma trim_chars c s : hasChar c (trim s) = true -> hasChar c s = true.
Proof.
  unfold trim. intros H.
  destruct (trimStart_suffix s) as (p & E).
  destruct (trimEnd_prefix (trimStart s)) as (q & E').
  rewrite E, E', !hasChar_append, H. now rewrite orb_true_r.
Qed.

Lemma trimEnd_idempotent s : trimEnd (trimEnd s) = trimEnd s.
Proof.
  induction s as [|c s IH]; [reflexivity|].
  cbn [trimEnd]. cbv zeta.
  destruct (isWhiteSpace (String c (trimEnd s))) eqn:E; [reflexivity|].
  cbn [trimEnd]. cbv zeta. now rewrite IH, E.
Qed.

(** A text that starts with a white space character. *)
Definition startsWithWhiteSpace (s : string) : bool :=
  match s with
  | EmptyString => false
  | String c1 s1 =>
      whiteSpace1 c1
      || match s1 with
         | EmptyString => false
         | String c2 s2 =>
             whiteSpace2 c1 c2
             || match s2 with
                | EmptyString => false
                | String c3 _ => whiteSpace3 c1 c2 c3
                end
         end
  end.

Lemma trimStart_clean s : startsWithWhiteSpace (trimStart s) = false.
Proof.
  assert (H : forall n s, String.length s <= n ->
                          startsWithWhiteSpace (trimStart s) = false).
  { clear s. induction n as [|n IH]; intros s Hn.
    - destruct s; [reflexivity | simpl in Hn; lia].
    - destruct s as [|c1 s1]; [reflexivity|]. simpl in Hn. simpl.
      destruct (whiteSpace1 c1) eqn:E1; [apply IH; lia|].
      destruct s1 as [|c2 s2]; [simpl; now rewrite E1|]. simpl in Hn.
      destruct (whiteSpace2 c1 c2) eqn:E2; [apply IH; lia|].
      destruct s2 as [|c3 s3]; [simpl; now rewrite E1, E2|]. simpl in Hn.
      destruct (whiteSpace3 c1 c2 c3) eqn:E3; [apply IH; lia|].
      simpl. now rewrite E1, E2, E3. }
  now apply (H (String.length s)).
Qed.

Lemma clean_trimStart s : startsWithWhiteSpace s = false -> trimStart s = s.
Proof.
  destruct s as [|c1 s1]; [reflexivity|]. simpl.
  destruct (whiteSpace1 c1); [discriminate|].
  destruct s1 as [|c2 s2]; [reflexivity|].
  destruct (whiteSpace2 c1 c2); [discriminate|].
  destruct s2 as [|c3 s3]; [reflexivity|].
  now destruct (whiteSpace3 c1 c2 c3).
Qed.

Lemma startsWithWhiteSpace_append p q :
  startsWithWhiteSpace p = true -> startsWithWhiteSpace (p ++ q) = true.
Proof.
  destruct p as [|c1 p]; [discriminate|].
  rewrite append_cons. simpl.
  destruct (whiteSpace1 c1); [reflexivity|].
  destruct p as [|c2 p]; [discriminate|].
  rewrite append_cons.
  destruct (whiteSpace2 c1 c2); [intros _; apply orb_true_r|].
  destruct p as [|c3 p]; [discriminate|].
  rewrite append_cons. simpl. trivial.
Qed.

Lemma trim_idempotent s : trim (trim s) = trim s.
Proof.
  unfold trim.
  assert (Hc : startsWithWhiteSpace (trimEnd (trimStart s)) = false).
  { destruct (startsWithWhiteSpace (trimEnd (trimStart s))) eqn:E;
      [|reflexivity].
    destruct (trimEnd_prefix (trimStart s)) as (q & Eq).
    apply (startsWithWhiteSpace_append _ q) in E.
    rewrite <- Eq, trimStart_clean in E. discriminate. }
  rewrite (clean_trimStart _ Hc). apply trimEnd_idempotent.
Qed.

Lemma trim_clean_start s : startsWithWhiteSpace (trim s) = false.
Proof.
  unfold trim.
  destruct (startsWithWhiteSpace (trimEnd (trimStart s))) eqn:E;
    [|reflexivity].
  destruct (trimEnd_prefix (trimStart s)) as (q & Eq).
  apply (startsWithWhiteSpace_append _ q) in E.
  rewrite <- Eq, trimStart_clean in E. discriminate.
Qed.

Lemma whiteSpace2_bytes c1 c2 :
  whiteSpace2 c1 c2 = true -> whiteSpace1 c2 = false.
Proof.
  unfold whiteSpace2, whiteSpace1. cbv zeta. intros H.
  apply andb_true_iff in H as (_ & H). apply Nat.eqb_eq in H. now rewrite H.
Qed.

Ltac bool_to_prop H :=
  repeat first
    [ rewrite orb_true_iff in H | rewrite andb_true_iff in H
    | rewrite Nat.eqb_eq in H | rewrite Nat.leb_le in H ].

Lemma whiteSpace3_bytes c1 c2 c3 :
  whiteSpace3 c1 c2 c3 = true ->
  whiteSpace1 c3 = false /\ whiteSpace2 c2 c3 = false.
Proof.
  unfold whiteSpace3, whiteSpace2, whiteSpace1. cbv zeta.
  set (n1 := nat_of_ascii c1). set (n2 := nat_of_ascii c2).
  set (n3 := nat_of_ascii c3). intros H. bool_to_prop H.
  split.
  - destruct ((9 <=? n3)%nat && (n3 <=? 13)%nat || (n3 =? 32)%nat) eqn:E;
      [|reflexivity].
    bool_to_prop E. lia.
  - destruct ((n2 =? 194)%nat && (n3 =? 160)%nat) eqn:E; [|reflexivity].
    bool_to_prop E. lia.
Qed.

Lemma trimEnd_whiteSpace ws : isWhiteSpace ws = true -> trimEnd ws = "".
Proof.
  destruct ws as [|c1 [|c2 [|c3 [|c4 ws]]]]; try discriminate.
  - simpl. now intros ->.
  - intros H. pose proof (whiteSpace2_bytes _ _ H) as H1.
    simpl in *. now rewrite H1, H.
  - intros H. destruct (whiteSpace3_bytes _ _ _ H) as (H1 & H2).
    simpl in *. now rewrite H1, H2, H.
Qed.

Lemma trimEnd_append_whiteSpace p ws :
  isWhiteSpace ws = true -> trimEnd (p ++ ws) = trimEnd p.
Proof.
  intros H. induction p as [|c p IH].
  - rewrite append_empty_l. now apply trimEnd_whiteSpace.
  - rewrite append_cons. cbn [trimEnd]. now rewrite IH.
Qed.

Lemma startsWithWhiteSpace_chunk ws rest :
  isWhiteSpace ws = true -> startsWithWhiteSpace (ws ++ rest) = true.
Proof.
  intros H. apply startsWithWhiteSpace_append.
  destruct ws as [|c1 [|c2 [|c3 [|c4 ws]]]]; try discriminate;
    simpl in *; rewrite H; now rewrite ?orb_true_r.
Qed.

(** A trimmed text neither starts nor ends with a white space
    character. *)
Lemma trim_clean_ends s ws rest :
  isWhiteSpace ws = true ->
  trim s <> (ws ++ rest)%string /\ trim s <> (rest ++ ws)%string.
Proof.
  intros H. split; intros E.
  - pose proof (trim_clean_start s) as Hc.
    rewrite E, (startsWithWhiteSpace_chunk _ _ H) in Hc. discriminate.
  - assert (Hi : trimEnd (trim s) = trim s)
      by (unfold trim; apply trimEnd_idempotent).
    rewrite E, (trimEnd_append_whiteSpace _ _ H) in Hi.
    destruct (trimEnd_prefix rest) as (q & Eq).
    apply (f_equal String.length) in Eq, Hi.
    rewrite !length_append in Eq, Hi.
    destruct ws; [discriminate|]. simpl in Hi. lia.
Qed.

Lemma linesOf_clean content line :
  In line (linesOf content) -> cleanLine line = true.
Proof.
  unfold linesOf, cleanLine. intros H.
  apply List.filter_In in H as (H & Hk).
  apply in_map_iff in H as (part & <- & Hp).
  rewrite Hk, trim_idempotent, String.eqb_refl. simpl.
  apply negb_true_iff.
  destruct (hasChar newlineChar (trim part)) eqn:Hc; [|reflexivity].
  apply trim_chars in Hc.
  pose proof (splitOn_parts newlineChar content) as Hall.
  rewrite List.Forall_forall in Hall. now rewrite (Hall _ Hp) in Hc.
Qed.

(** X11: Every line that [readLinesFromFile] makes of a file content is a
    clean line: not empty, not starting with [#], free of line breaks,
    and neither starting nor ending with a white space character.  It is
    what is left of a line of the file, as the line breaks cut it, when
    the white space around it is removed. *)
Theorem lines_of_a_file_are_clean content :
  Forall
    (fun line =>
       line <> "" /\ String.prefix "#" line = false /\ trim line = line
       /\ hasChar newlineChar line = false
       /\ (forall ws rest,
              isWhiteSpace ws = true ->
              line <> (ws ++ rest)%string /\ line <> (rest ++ ws)%string)
       /\ exists part before after,
           In part (splitOn newlineChar content)
           /\ part = (before ++ line ++ after)%string
           /\ whiteSpaces before /\ whiteSpaces after)
    (linesOf content).
Proof.
  apply List.Forall_forall. intros line H.
  pose proof (linesOf_clean _ _ H) as Hc. unfold cleanLine, keptLine in Hc.
  apply andb_true_iff in Hc as (Hc & Hn).
  apply andb_true_iff in Hc as (Hc & Ht).
  apply andb_true_iff in Hc as (He & Hp).
  apply negb_true_iff in He, Hp, Hn.
  apply String.eqb_neq in He. apply String.eqb_eq in Ht.
  repeat (split; [assumption|]).
  unfold linesOf in H. apply List.filter_In in H as (H & _).
  apply in_map_iff in H as (part & <- & Hpart). split.
  - intros ws rest. apply trim_clean_ends.
  - destruct (trim_removes part) as (before & after & E & Hb & Ha).
    now exists part, before, after.
Qed.

Lemma filter_clean l :
  Forall (fun line => cleanLine line = true) l ->
  List.filter keptLine (map trim l) = l.
Proof.
  induction l as [|x l IH]; intros H; [reflexivity|].
  inversion H as [|? ? Hx Hl]; subst.
  unfold cleanLine in Hx.
  apply andb_true_iff in Hx as (Hx & _).
  apply andb_true_iff in Hx as (Hk & Ht).
  apply String.eqb_eq in Ht.
  cbn [map List.filter]. rewrite Ht, Hk, (IH Hl). reflexivity.
Qed.

(** X12: Reading a file undoes writing it: of lines joined with line breaks
    [readLinesFromFile] returns each line trimmed, in order, without the
    blank lines and the comments; clean lines come back as they were
    written. *)
Theorem lines_round_trip l :
  Forall (fun line => hasChar newlineChar line = false) l ->
  linesOf (joinWith newlineChar l) = List.filter keptLine (map trim l)
  /\ (Forall (fun line => cleanLine line = true) l ->
      linesOf (joinWith newlineChar l) = l).
Proof.
  intros Hall.
  assert (H : linesOf (joinWith newlineChar l)
              = List.filter keptLine (map trim l)).
  { destruct l as [|x l]; [reflexivity|].
    unfold linesOf. rewrite splitOn_joinWith; [reflexivity | assumption |].
    discriminate. }
  split; [exact H|]. intros Hc. rewrite H. now apply filter_clean.
Qed.

Lemma lines_round_trip_witness :
  linesOf (joinWith newlineChar ["  0xabc "; ""; "# wallets"; "0xdef"])
  = ["0xabc"; "0xdef"]
  /\ linesOf (joinWith newlineChar ["0xabc"; "0xdef"]) = ["0xabc"; "0xdef"].
Proof.
  split.
  - destruct (lines_round_trip ["  0xabc "; ""; "# wallets"; "0xdef"])
      as (H & _); [repeat constructor|].
    rewrite H. reflexivity.
  - destruct (lines_round_trip ["0xabc"; "0xdef"]) as (_ & H);
      [repeat constructor|].
    apply H. repeat constructor.
Defined.

Lemma tokenOfLine_plain w line :
  hasChar commaChar line = false ->
  tokenOfLine w line = mkToken (trim line) None.
Proof.
  intros H. unfold tokenOfLine. now rewrite (splitOn_whole _ _ H).
Qed.

(** X13: A line of a token file without a comma gives the trimmed line as
    address and no price; of a line with commas the first field, trimmed,
    is the address and the second one, trimmed and parsed by
    [parseFloat], is the price, further fields being ignored.  A token
    file without any comma is read like an address file. *)
Theorem token_file_lines w :
  (forall line,
      hasChar commaChar line = false ->
      tokenOfLine w line = mkToken (trim line) None)
  /\ (forall a p,
         hasChar commaChar a = false -> hasChar commaChar p = false ->
         tokenOfLine w (a ++ String commaChar p)
         = mkToken (trim a) (Some (parseFloat w (trim p))))
  /\ (forall a p rest,
         hasChar commaChar a = false -> hasChar commaChar p = false ->
         tokenOfLine w (a ++ String commaChar (p ++ String commaChar rest))
         = mkToken (trim a) (Some (parseFloat w (trim p))))
  /\ (forall content,
         hasChar commaChar content = false ->
         tokensOf w content
         = map (fun address => mkToken address None) (linesOf content)).
Proof.
  split; [apply tokenOfLine_plain|]. split; [|split].
  - intros a p Ha Hp. unfold tokenOfLine.
    rewrite (splitOn_append _ _ _ Ha), (splitOn_whole _ _ Hp). reflexivity.
  - intros a p rest Ha Hp. unfold tokenOfLine.
    rewrite (splitOn_append _ _ _ Ha), (splitOn_append _ _ _ Hp).
    destruct (splitOn commaChar rest); reflexivity.
  - intros content Hc. unfold tokensOf. apply map_ext_in.
    intros line Hl. rewrite tokenOfLine_plain.
    + pose proof (linesOf_clean _ _ Hl) as Hcl. unfold cleanLine in Hcl.
      apply andb_true_iff in Hcl as (Hcl & _).
      apply andb_true_iff in Hcl as (_ & Ht).
      apply String.eqb_eq in Ht. now rewrite Ht.
    + destruct (hasChar commaChar line) eqn:E; [|reflexivity].
      unfold linesOf in Hl. apply List.filter_In in Hl as (Hl & _).
      apply in_map_iff in Hl as (part & <- & Hp).
      apply trim_chars in E.
      apply (splitOn_chars _ _ _ _ Hp) in E. congruence.
Qed.

Lemma token_file_lines_witness :
  tokenOfLine Demo.world " T1 " = mkToken "T1" None
  /\ tk_address (tokenOfLine Demo.world "T1, 2,x") = "T1".
Proof.
  destruct (token_file_lines Demo.world) as (H1 & _ & H3 & _).
  split.
  - apply (H1 " T1 "). reflexivity.
  - exact (f_equal tk_address (H3 "T1" " 2" "x" eq_refl eq_refl)).
Defined.

(** ** The main function *)



















(** A host with an address file and a spender file. *)
Definition demoHost : Host :=
  {| cfg_network := "ethereum";
     cfg_rpcUrl := Some "http://localhost:8545";
     readFile :=
       fun filePath =>
         if String.eqb filePath "wallets.txt"
         then Returns (joinWith newlineChar ["W1"; " W2"; "# later"; "W3"; ""])
         else if String.eqb filePath "spenders.txt"
              then Returns (joinWith newlineChar ["S1"; "S4"])
              else Fails "ENOENT";
     getNetwork := Returns ("mainnet", 1%N);
     writeFile := fun _ _ => Returns tt |}.




(** *** How [main] ends *)

(** Code that leaves by [process.exit] only with code 1 and right after
    an error message. *)
Definition exitsWithError {A} (m : M A) : Prop :=
  forall s code s',
    m s = (Exit code, s') ->
    code = 1%Z
    /\ exists before text detail,
        logs s' = before ++ [mkLog Error text detail].

Lemma exitsWithError_bind {A B} (m : M A) (k : A -> M B) :
  exitsWithError m -> (forall a, exitsWithError (k a)) ->
  exitsWithError (bind m k).
Proof.
  intros Hm Hk s code s'. unfold bind.
  destruct (m s) as [[a|e|c] s1] eqn:E.
  - apply Hk.
  - discriminate.
  - intros [= <- <-]. now apply (Hm s).
Qed.

Lemma exitsWithError_try {A} (body : M A) handler :
  exitsWithError body -> (forall e, exitsWithError (handler e)) ->
  exitsWithError (try_catch body handler).
Proof.
  intros Hm Hk s code s'. unfold try_catch.
  destruct (body s) as [[a|e|c] s1] eqn:E.
  - discriminate.
  - apply Hk.
  - intros [= <- <-]. now apply (Hm s).
Qed.

Lemma exitsWithError_ret {A} (a : A) : exitsWithError (ret a).
Proof. intros s code s'. discriminate. Qed.

Lemma exitsWithError_logger l text detail :
  exitsWithError (logger l text detail).
Proof. intros s code s'. discriminate. Qed.

Lemma exitsWithError_lib {A} (r : Reply A) : exitsWithError (lib r).
Proof. intros s code s'. unfold lib. destruct r; discriminate. Qed.

Lemma exitsWithError_fail {A} text detail :
  exitsWithError (logger Error text detail ;; @process_exit A 1).
Proof.
  intros s code s'. unfold bind, logger, process_exit.
  intros [= <- <-]. split; [reflexivity|]. simpl. eauto.
Qed.

Lemma exitsWithError_require a b text : exitsWithError (require a b text).
Proof.
  unfold require.
  destruct (supplied a), (supplied b);
    try apply exitsWithError_ret. apply exitsWithError_fail.
Qed.

Lemma exitsWithError_readLinesFromFile h filePath :
  exitsWithError (readLinesFromFile h filePath).
Proof.
  unfold readLinesFromFile. apply exitsWithError_try.
  - apply exitsWithError_bind; [apply exitsWithError_lib|].
    intros; apply exitsWithError_ret.
  - intros; apply exitsWithError_fail.
Qed.

Lemma exitsWithError_readTokensFromFile w h filePath :
  exitsWithError (readTokensFromFile w h filePath).
Proof.
  unfold readTokensFromFile. apply exitsWithError_try.
  - apply exitsWithError_bind; [apply exitsWithError_lib|].
    intros; apply exitsWithError_ret.
  - intros; apply exitsWithError_fail.
Qed.

Lemma exitsWithError_checkApprovals w addresses tokens spenders :
  exitsWithError (Basic.checkApprovals w addresses tokens spenders).
Proof.
  intros s code s' E. destruct spenders as [|sp spenders].
  - rewrite Basic_no_spenders in E. injection E as <- <-.
    split; [reflexivity|]. simpl. eauto.
  - destruct (Basic_checkApprovals_finishes w addresses tokens (sp :: spenders)
                ltac:(discriminate) s) as (s1 & E1 & _).
    rewrite E1 in E. discriminate.
Qed.

(** X15: [main] never ends with an error that escapes it: it returns, or it
    exits, and then with code 1 and right after an error message. *)
Theorem main_exits_with_an_error_message w h o s :
  match main w h o s with
  | (Normal _, _) => True
  | (Throw _, _) => False
  | (Exit code, s') =>
      code = 1%Z
      /\ exists before text detail,
          logs s' = before ++ [mkLog Error text detail]
  end.
Proof.
  assert (Hbody : exitsWithError (main w h o)).
  { unfold main. apply exitsWithError_try;
      [|intros; apply exitsWithError_fail].
    repeat first
      [ apply exitsWithError_checkApprovals
      | apply exitsWithError_require
      | apply exitsWithError_logger
      | apply exitsWithError_lib
      | apply exitsWithError_ret
      | apply exitsWithError_bind; [|intros] ].
    - unfold getAddresses.
      destruct (supplied (opt_address o)); [apply exitsWithError_ret|].
      destruct (supplied (opt_addressFile o));
        [apply exitsWithError_readLinesFromFile | apply exitsWithError_ret].
    - unfold getTokens.
      destruct (supplied (opt_token o)); [apply exitsWithError_ret|].
      destruct (supplied (opt_tokenFile o));
        [apply exitsWithError_readTokensFromFile | apply exitsWithError_ret].
    - unfold getSpenders.
      destruct (supplied (opt_spender o)); [apply exitsWithError_ret|].
      destruct (supplied (opt_spenderFile o));
        [apply exitsWithError_readLinesFromFile | apply exitsWithError_ret].
    - destruct (displayResults _);
        [apply exitsWithError_ret | apply exitsWithError_logger].
    - destruct (supplied (opt_export o)); [|apply exitsWithError_ret].
      repeat first
        [ apply exitsWithError_logger
        | apply exitsWithError_lib
        | apply exitsWithError_ret
        | apply exitsWithError_bind; [|intros] ]. }
  destruct (main w h o s) as [[v|e|code] s'] eqn:E.
  - exact I.
  - unfold main, try_catch in E.
    match type of E with
    | context [match ?b with _ => _ end] => destruct b as [[v'|e'|c'] s1]
    end; discriminate.
  - now apply (Hbody s).
Qed.

(** X16: The options are checked before anything else: without a wallet
    address or address file, without a token address or token file, or
    without an RPC URL for the network, [main] logs one error and exits
    with code 1; no call is sent, nothing is written to the terminal and
    no record is made. *)
Theorem main_checks_the_options_first w h o s :
  (supplied (opt_address o) = None /\ supplied (opt_addressFile o) = None)
  \/ (supplied (opt_token o) = None /\ supplied (opt_tokenFile o) = None)
  \/ supplied (cfg_rpcUrl h) = None ->
  exists s' text,
    main w h o s = (Exit 1, s')
    /\ logs s' = logs s ++ [mkLog Error text None]
    /\ calls s' = calls s
    /\ stdout s' = stdout s
    /\ results s' = results s.
Proof.
  intros H. unfold main, try_catch, bind at 1, require at 1.
  destruct (supplied (opt_address o)) as [a|] eqn:Ea;
    [|destruct (supplied (opt_addressFile o)) as [af|] eqn:Eaf].
  3: { eexists; eexists. split; [reflexivity|]. simpl. auto. }
  all: cbv beta iota; unfold ret at 1; cbv beta iota;
    unfold bind at 1, require at 1;
    (destruct (supplied (opt_token o)) as [t|] eqn:Et;
     [|destruct (supplied (opt_tokenFile o)) as [tf|] eqn:Etf]).
  3, 6: eexists; eexists; (split; [reflexivity|]); simpl; auto.
  all: cbv beta iota; unfold ret at 1; cbv beta iota;
    unfold bind at 1, require at 1;
    destruct H as [[H1 H2]|[[H1 H2]|H]]; try discriminate;
    rewrite H; cbn [supplied];
    eexists; eexists; (split; [reflexivity|]); simpl; auto.
Qed.

Lemma main_checks_the_options_first_witness :
  exists s' text,
    main Demo.world demoHost
      (mkOptions (Some "W1") None (Some "") None (Some "S1") None None)
      initialState
    = (Exit 1, s')
    /\ logs s' = [mkLog Error text None]
    /\ calls s' = [].
Proof.
  destruct (main_checks_the_options_first Demo.world demoHost
              (mkOptions (Some "W1") None (Some "") None (Some "S1") None
                 None) initialState)
    as (s' & text & E & L & C & _).
  - right; left. split; reflexivity.
  - exists s', text. auto.
Defined.
